(** * Issue-relationship hierarchy builder of the Jira MCP server

    A shallow embedding of [src/services/issueService.ts] (the hierarchy
    builders [getIssueHierarchy] and [getIssueHierarchyFromRoot], the
    operations [transitionIssue] and [completeIssue], the listing
    [getMyIssuesGroupedByStatus] and the link views [getIssueLinks] and
    [navigateHierarchy]) and of the last-viewed-issue tracker
    [IssueTracker].

    Conventions of the embedding.
    - An issue key is a [string].  A JavaScript object used as a dictionary
      whose key order is observable ([Object.keys]) is an insertion-ordered
      association list ([Rec]); issue keys are neither canonical array
      indices nor names of members of [Object.prototype], so [Object.keys]
      enumerates them in insertion order and a key that was never stored
      reads as [undefined].  The
      adjacency dictionaries, which are only looked up, are [gmap]s.  A
      [Set<string>] that is only tested and extended is a [gset]; a [Set]
      that is later enumerated is a duplicate-free list in insertion order.
    - The [visited] set is one mutable object shared by all recursive calls;
      it is threaded through the calls as explicit state.
    - Recursion that is not structural carries a [fuel] argument and returns
      [None] when the fuel is used up; totality lemmas show that the fuel
      supplied by the callers always suffices.
    - Text formatting (icons, markdown) is outside the embedding: a rendered
      node records the arguments from which the source formats its two
      lines. *)

From stdpp Require Import gmap strings list.

(** ** Strings *)

(** [s.includes(search)] *)
Fixpoint includes (s search : string) : bool :=
  String.prefix search s ||
  match s with
  | EmptyString => false
  | String _ s' => includes s' search
  end.

(** Truthiness of a string value: only the empty string is falsy. *)
Definition truthy (s : string) : bool := negb (String.eqb s "").

(** [parts.join(sep)] *)
Fixpoint join (sep : string) (parts : list string) : string :=
  match parts with
  | [] => ""
  | [p] => p
  | p :: rest => p +:+ sep +:+ join sep rest
  end.

(** Lower-casing restricted to the ASCII letters; used to instantiate the
    [toLowerCase] parameter of the sections below on concrete inputs. *)
Definition asciiLowerChar (c : Ascii.ascii) : Ascii.ascii :=
  let n := Ascii.nat_of_ascii c in
  if (65 <=? n)%nat && (n <=? 90)%nat then Ascii.ascii_of_nat (n + 32) else c.

Fixpoint asciiLower (s : string) : string :=
  match s with
  | EmptyString => EmptyString
  | String c s' => String (asciiLowerChar c) (asciiLower s')
  end.

(** ** Data model *)

Definition Key := string.

(** Insertion-ordered dictionary ([Record<string, V>]). *)
Definition Rec (V : Type) := list (Key * V).

Fixpoint rget {V} (k : Key) (r : Rec V) : option V :=
  match r with
  | [] => None
  | (k', v) :: r' => if bool_decide (k = k') then Some v else rget k r'
  end.

(** [r[k] = v]: overwrite in place, or append a new entry. *)
Fixpoint rset {V} (k : Key) (v : V) (r : Rec V) : Rec V :=
  match r with
  | [] => [(k, v)]
  | (k', v') :: r' =>
      if bool_decide (k = k') then (k, v) :: r' else (k', v') :: rset k v r'
  end.

Definition rkeys {V} (r : Rec V) : list Key := r.*1.

(** [if (!r[k]) r[k] = v] *)
Definition rsetIfAbsent {V} (k : Key) (v : V) (r : Rec V) : Rec V :=
  match rget k r with
  | Some _ => r
  | None => rset k v r
  end.

(** [set.add(x)] on an enumerable [Set]. *)
Definition setAdd (x : Key) (s : list Key) : list Key :=
  if bool_decide (x ∈ s) then s else s ++ [x].

(** [Array.from(new Set(xs))]: first occurrences, in order. *)
Definition arrayFromSet (xs : list Key) : list Key :=
  foldl (fun s x => setAdd x s) [] xs.

(** Specification of [arrayFromSet]: the first occurrences of [xs] that are
    not already in [seen]. *)
Fixpoint firstOccurrences (seen xs : list Key) : list Key :=
  match xs with
  | [] => []
  | x :: rest =>
      if bool_decide (x ∈ seen) then firstOccurrences seen rest
      else x :: firstOccurrences (seen ++ [x]) rest
  end.

(** [m[k] || []] *)
Definition lookupList (m : gmap Key (list Key)) (k : Key) : list Key :=
  default [] (m !! k).

(** [if (!m[p]) m[p] = []; if (!m[p].includes(c)) m[p].push(c)] *)
Definition addEdge (p c : Key) (m : gmap Key (list Key)) : gmap Key (list Key) :=
  let l := lookupList m p in
  <[p := if bool_decide (c ∈ l) then l else l ++ [c]]> m.

(** The displayed part of an issue's fields. *)
Record Status := { st_name : option string; st_category : option string }.

Record DisplayFields := {
  summary : option string;
  status : option Status;
  priority : option string;
  issuetype : option string;
}.

Definition noFields : DisplayFields :=
  {| summary := None; status := None; priority := None; issuetype := None |}.

(** The ['toString'] member of an epic-link object, as the code tests it. *)
Inductive ToStringMember :=
| ToStringMissing               (* 'toString' in obj is false *)
| ToStringNotCallable           (* present, typeof is not 'function' *)
| ToStringReturns (s : string). (* callable, obj.toString() is s *)

(** The raw value of [customfield_10102] (Epic Link).  The members [key]
    and [id] of an object are strings when present. *)
Inductive EpicLink :=
| ELNone                        (* undefined, null, or another falsy value *)
| ELString (s : string)
| ELOther                       (* a truthy number or boolean *)
| ELObject (o_key o_id : option string) (o_toString : ToStringMember).

(** [if (epicLink)] *)
Definition epicLinkTruthy (e : EpicLink) : bool :=
  match e with
  | ELNone => false
  | ELString s => truthy s
  | ELOther | ELObject _ _ _ => true
  end.

(** The linked issue embedded in a link; an absent [key] is [""]. *)
Record LinkedIssue := { li_key : Key; li_fields : option DisplayFields }.

(** [link.type || {}] with each member defaulted to ['']. *)
Record LinkType := {
  lt_id : string; lt_name : string; lt_inward : string; lt_outward : string
}.

Record IssueLink := {
  link_type : LinkType;
  inwardIssue : option LinkedIssue;
  outwardIssue : option LinkedIssue;
}.

Record Issue := {
  key : Key;
  fields : DisplayFields;
  customfield_10102 : EpicLink;
  issuelinks : list IssueLink;
}.

(** [{ key: k, fields: linked.fields || {} }] *)
Definition stubIssue (k : Key) (linked : LinkedIssue) : Issue :=
  {| key := k; fields := default noFields (li_fields linked);
     customfield_10102 := ELNone; issuelinks := [] |}.

(** A failed request of the API client. *)
Record ApiError := { statusCode : option nat; message : string }.

Inductive Result (A : Type) :=
| Ok (a : A)
| Err (e : ApiError).
Arguments Ok {A} a.
Arguments Err {A} e.

(** ** Tree renderer ([buildTreeLines]) *)

(** One rendered node: the arguments of the two lines pushed for it. *)
Record RenderedNode := {
  rn_key : Key;
  rn_level : nat;
  rn_prefix : string;
  rn_isLast : bool;
  rn_issue : Issue;
}.

Definition renderedKeys (lines : list RenderedNode) : list Key := rn_key <$> lines.

(** The [for] loop over [allChildren]; [n] is [allChildren.length]. *)
Fixpoint forEachChild
  (rec : Key -> bool -> gset Key -> option (list RenderedNode * gset Key))
  (rest : list Key) (i n : nat) (lines : list RenderedNode) (visited : gset Key)
  : option (list RenderedNode * gset Key) :=
  match rest with
  | [] => Some (lines, visited)
  | childKey :: rest' =>
      match rec childKey (i =? n - 1)%nat visited with
      | None => None
      | Some (childLines, visited') =>
          forEachChild rec rest' (S i) n (lines ++ childLines) visited'
      end
  end.

Section TreeRenderer.

Variable issueMap : Rec Issue.
Variables coversMap parentMap : gmap Key (list Key).

(** [Array.from(new Set([...coveredIssues, ...childIssues]))] *)
Definition allChildren (issueKey : Key) : list Key :=
  arrayFromSet (lookupList coversMap issueKey ++ lookupList parentMap issueKey).

Fixpoint buildTreeLines (fuel : nat) (issueKey : Key) (level : nat)
  (prefix : string) (isLast : bool) (visited : gset Key)
  : option (list RenderedNode * gset Key) :=
  match fuel with
  | 0 => None
  | S fuel' =>
      if bool_decide (issueKey ∈ visited) then Some ([], visited)
      else
        let visited := {[issueKey]} ∪ visited in
        match rget issueKey issueMap with
        | None => Some ([], visited)
        | Some issue =>
            let lines :=
              [ {| rn_key := issueKey; rn_level := level; rn_prefix := prefix;
                   rn_isLast := isLast; rn_issue := issue |} ] in
            let children := allChildren issueKey in
            let childPrefix := prefix +:+ (if isLast then "    " else "│   ") in
            forEachChild
              (fun childKey isLastChild v =>
                 buildTreeLines fuel' childKey (S level) childPrefix isLastChild v)
              children 0 (length children) lines visited
        end
  end.

(** Children as the specification words them: the entries of the three
    dictionaries in the order GroupLink, Containment, Coverage, without
    duplicates. *)
Definition specChildren (epicMap : Rec (list Key)) (issueKey : Key) : list Key :=
  arrayFromSet (default [] (rget issueKey epicMap)
                ++ lookupList parentMap issueKey ++ lookupList coversMap issueKey).

(** Every key that can be reached as somebody's child. *)
Definition childKeys : gset Key :=
  ⋃ ((fun kv => list_to_set kv.2) <$> map_to_list coversMap)
  ∪ ⋃ ((fun kv => list_to_set kv.2) <$> map_to_list parentMap).

(** Recursion depth that one walk can need: each level marks a fresh key. *)
Definition treeFuel : nat := S (S (size childKeys)).

(** What one walk does to the shared [visited] set: it only grows, and the
    keys rendered are exactly the keys newly marked that have a record. *)
Definition walkInv (visited : gset Key) (lines : list RenderedNode)
  (visited' : gset Key) : Prop :=
  visited ⊆ visited' ∧ NoDup (renderedKeys lines) ∧
  (∀ k, k ∈ renderedKeys lines ↔
        (k ∈ visited' ∧ (k ∉ visited) ∧ is_Some (rget k issueMap))).

End TreeRenderer.

(** ** Link classification, shared by both hierarchy builders *)

(** Sequential loop over a list with a state that may run out of fuel. *)
Fixpoint forEachM {A S : Type} (f : A -> S -> option S) (xs : list A) (s : S)
  : option S :=
  match xs with
  | [] => Some s
  | x :: rest => s' ← f x s; forEachM f rest s'
  end.

Section LinkTypes.

(** [String.prototype.toLowerCase]; the development is parametric in it. *)
Variable toLowerCase : string -> string.

(** [linkId === '10703' || linkName.includes('requirement')] *)
Definition isRequirementLink (t : LinkType) : bool :=
  String.eqb (lt_id t) "10703" || includes (toLowerCase (lt_name t)) "requirement".

(** [linkId === '10600' || linkName.includes('parent')] *)
Definition isParentChildLink (t : LinkType) : bool :=
  String.eqb (lt_id t) "10600" || includes (toLowerCase (lt_name t)) "parent".

Definition outwardIs (phrase : string) (link : IssueLink) : option LinkedIssue :=
  match outwardIssue link with
  | Some o =>
      if includes (toLowerCase (lt_outward (link_type link))) phrase
      then Some o else None
  | None => None
  end.

Definition inwardIs (phrase : string) (link : IssueLink) : option LinkedIssue :=
  match inwardIssue link with
  | Some i =>
      if includes (toLowerCase (lt_inward (link_type link))) phrase
      then Some i else None
  | None => None
  end.

End LinkTypes.

(** ** Rooted mode ([getIssueHierarchyFromRoot]) *)

(** The dictionaries shared by all calls of [fetchIssueHierarchy], and the
    trace of the single-key lookups sent to the API client. *)
Record FetchState := {
  fs_issueMap : Rec Issue;
  fs_parentMap : gmap Key (list Key);
  fs_coversMap : gmap Key (list Key);
  fs_epicMap : Rec (list Key);
  fs_visited : gset Key;
  fs_lookups : list Key;
}.

Definition emptyFetchState : FetchState :=
  {| fs_issueMap := []; fs_parentMap := ∅; fs_coversMap := ∅; fs_epicMap := [];
     fs_visited := ∅; fs_lookups := [] |}.

(** [visited.add(key)] followed by the request [getIssue(key)]. *)
Definition beginLookup (k : Key) (st : FetchState) : FetchState :=
  {| fs_issueMap := fs_issueMap st; fs_parentMap := fs_parentMap st;
     fs_coversMap := fs_coversMap st; fs_epicMap := fs_epicMap st;
     fs_visited := {[k]} ∪ fs_visited st; fs_lookups := fs_lookups st ++ [k] |}.

Definition setIssue (k : Key) (issue : Issue) (st : FetchState) : FetchState :=
  {| fs_issueMap := rset k issue (fs_issueMap st); fs_parentMap := fs_parentMap st;
     fs_coversMap := fs_coversMap st; fs_epicMap := fs_epicMap st;
     fs_visited := fs_visited st; fs_lookups := fs_lookups st |}.

Definition addParent (p c : Key) (st : FetchState) : FetchState :=
  {| fs_issueMap := fs_issueMap st; fs_parentMap := addEdge p c (fs_parentMap st);
     fs_coversMap := fs_coversMap st; fs_epicMap := fs_epicMap st;
     fs_visited := fs_visited st; fs_lookups := fs_lookups st |}.

Definition addCovers (p c : Key) (st : FetchState) : FetchState :=
  {| fs_issueMap := fs_issueMap st; fs_parentMap := fs_parentMap st;
     fs_coversMap := addEdge p c (fs_coversMap st); fs_epicMap := fs_epicMap st;
     fs_visited := fs_visited st; fs_lookups := fs_lookups st |}.

(** [if (!epicMap[e]) epicMap[e] = []; if (!epicMap[e].includes(k)) epicMap[e].push(k)] *)
Definition addEpicUnique (e k : Key) (st : FetchState) : FetchState :=
  let l := default [] (rget e (fs_epicMap st)) in
  {| fs_issueMap := fs_issueMap st; fs_parentMap := fs_parentMap st;
     fs_coversMap := fs_coversMap st;
     fs_epicMap := rset e (if bool_decide (k ∈ l) then l else l ++ [k]) (fs_epicMap st);
     fs_visited := fs_visited st; fs_lookups := fs_lookups st |}.

(** [typeof epicLink === 'string' ? epicLink : epicLink.key], when truthy. *)
Definition rootedEpicKey (e : EpicLink) : option Key :=
  if epicLinkTruthy e then
    match e with
    | ELString s => Some s
    | ELObject (Some k) _ _ => if truthy k then Some k else None
    | _ => None
    end
  else None.

(** Sum of the lengths of the values of a dictionary. *)
Definition totalLength (lists : list (list Key)) : nat :=
  foldl (fun sum arr => sum + length arr) 0 lists.

Record RootParams := {
  rp_issueKey : Key;
  rp_maxDepth : nat;      (* 0 when the argument is omitted *)
  rp_includeEpic : bool;
}.

Record RootedOutput := {
  ro_rootIssue : Issue;
  ro_totalIssues : nat;
  ro_maxDepth : nat;
  ro_treeLines : list RenderedNode;
  ro_withEpicLink : nat;
  ro_withCovers : nat;
  ro_withParentChild : nat;
}.

Inductive RootedResult :=
| IssueNotFound (issueKey : Key)
| RootedHierarchy (output : RootedOutput).

Section RootedMode.

Variable toLowerCase : string -> string.
Variable getIssue : Key -> Result Issue.
Variable params : RootParams.

(** [params.maxDepth || 10] *)
Definition effectiveMaxDepth : nat :=
  match rp_maxDepth params with
  | 0 => 10
  | S n => S n
  end.

(** One recorded edge followed by the guarded recursive fetch:
    [if (a && b) { add(parent, child); if (!visited.has(next)) await fetch(next, depth + 1) }] *)
Definition followEdge (add : Key -> Key -> FetchState -> FetchState)
  (recur : Key -> FetchState -> option FetchState)
  (parent child next : Key) (st : FetchState) : option FetchState :=
  if truthy parent && truthy child then
    let st := add parent child st in
    if bool_decide (next ∈ fs_visited st) then Some st else recur next st
  else Some st.

(** The body of the loop over [issue.fields.issuelinks]. *)
Definition fetchLink (recur : Key -> FetchState -> option FetchState)
  (key : Key) (link : IssueLink) (st : FetchState) : option FetchState :=
  st ← (if isRequirementLink toLowerCase (link_type link) then
          st ← match outwardIs toLowerCase "covers" link with
               | Some o => followEdge addCovers recur key (li_key o) (li_key o) st
               | None => Some st
               end;
          match inwardIs toLowerCase "covered by" link with
          | Some i => followEdge addCovers recur (li_key i) key (li_key i) st
          | None => Some st
          end
        else Some st);
  if isParentChildLink toLowerCase (link_type link) then
    st ← match outwardIs toLowerCase "is parent of" link with
         | Some o => followEdge addParent recur key (li_key o) (li_key o) st
         | None => Some st
         end;
    match inwardIs toLowerCase "is child of" link with
    | Some i => followEdge addParent recur (li_key i) key (li_key i) st
    | None => Some st
    end
  else Some st.

(** What [fetchIssueHierarchy] does with a fetched record: the epic link,
    then the issue links; [recur] is the recursive call at [depth + 1]. *)
Definition fetchRelated (recur : Key -> FetchState -> option FetchState)
  (key : Key) (issue : Issue) (st : FetchState) : option FetchState :=
  st ← match rootedEpicKey (customfield_10102 issue) with
       | Some epicKey =>
           let st := addEpicUnique epicKey key st in
           if rp_includeEpic params && negb (bool_decide (epicKey ∈ fs_visited st))
           then recur epicKey st else Some st
       | None => Some st
       end;
  forEachM (fetchLink recur key) (issuelinks issue) st.

Fixpoint fetchIssueHierarchy (fuel : nat) (key : Key) (depth : nat)
  (st : FetchState) : option FetchState :=
  if (effectiveMaxDepth <? depth)%nat || bool_decide (key ∈ fs_visited st)
  then Some st
  else
    match fuel with
    | 0 => None
    | S fuel' =>
        let st := beginLookup key st in
        match getIssue key with
        | Err _ => Some st                       (* caught and logged *)
        | Ok issue =>
            fetchRelated (fun k s => fetchIssueHierarchy fuel' k (S depth) s)
              key issue (setIssue key issue st)
        end
    end.

(** The state after [await fetchIssueHierarchy(params.issueKey, 0)]. *)
Definition fetchFromRoot : option FetchState :=
  fetchIssueHierarchy (S effectiveMaxDepth) (rp_issueKey params) 0 emptyFetchState.

(** The call itself.  No statement of its [try] block throws on records of
    this data model (a failed lookup is caught inside [fetchIssueHierarchy]),
    so the outer [catch] has no counterpart here. *)
Definition getIssueHierarchyFromRoot : option RootedResult :=
  st ← fetchFromRoot;
  match rget (rp_issueKey params) (fs_issueMap st) with
  | None => Some (IssueNotFound (rp_issueKey params))
  | Some rootIssue =>
      '(treeLines, _) ←
        buildTreeLines (fs_issueMap st) (fs_coversMap st) (fs_parentMap st)
          (treeFuel (fs_coversMap st) (fs_parentMap st))
          (rp_issueKey params) 0 "" true ∅;
      Some (RootedHierarchy
        {| ro_rootIssue := rootIssue;
           ro_totalIssues := length (rkeys (fs_issueMap st));
           ro_maxDepth := effectiveMaxDepth;
           ro_treeLines := treeLines;
           ro_withEpicLink := totalLength (fs_epicMap st).*2;
           ro_withCovers := totalLength (map_to_list (fs_coversMap st)).*2;
           ro_withParentChild := totalLength (map_to_list (fs_parentMap st)).*2 |})
  end.

End RootedMode.

(** Invariants of the fetch phase.  [recordsVisited]: every key with a
    record has been marked.  [fetchInv]: the visited-set only grows, every
    new lookup is of a key that was unmarked before and is marked after,
    no key is looked up twice, and records are never replaced. *)
Definition recordsVisited (st : FetchState) : Prop :=
  ∀ k, is_Some (rget k (fs_issueMap st)) → k ∈ fs_visited st.

Definition fetchInv (st st' : FetchState) : Prop :=
  fs_visited st ⊆ fs_visited st'
  ∧ (∃ new, fs_lookups st' = fs_lookups st ++ new ∧ NoDup new
            ∧ ∀ k, k ∈ new → (k ∉ fs_visited st) ∧ k ∈ fs_visited st')
  ∧ (∀ k v, rget k (fs_issueMap st) = Some v → rget k (fs_issueMap st') = Some v)
  ∧ (∀ k, is_Some (rget k (fs_issueMap st')) →
          is_Some (rget k (fs_issueMap st))
          ∨ (k ∈ fs_visited st' ∧ (k ∉ fs_visited st) ∧ k ∈ fs_lookups st'))
  ∧ (∀ p c, c ∈ lookupList (fs_parentMap st) p → c ∈ lookupList (fs_parentMap st') p).

Definition fetchStep (st st' : FetchState) : Prop :=
  recordsVisited st → recordsVisited st' ∧ fetchInv st st'.

(** A step that only adds edges: records, visited-set and lookups are
    as before, and no Containment edge is lost. *)
Definition edgesOnly (st st' : FetchState) : Prop :=
  fs_issueMap st' = fs_issueMap st ∧ fs_visited st' = fs_visited st
  ∧ fs_lookups st' = fs_lookups st
  ∧ (∀ p c, c ∈ lookupList (fs_parentMap st) p → c ∈ lookupList (fs_parentMap st') p).

(** [link] is a Containment link from the issue that carries it to
    [child], and nothing else. *)
Definition containmentLinkTo (toLowerCase : string -> string) (child : Key)
  (link : IssueLink) : Prop :=
  isRequirementLink toLowerCase (link_type link) = false
  ∧ isParentChildLink toLowerCase (link_type link) = true
  ∧ (∃ o, outwardIs toLowerCase "is parent of" link = Some o ∧ li_key o = child)
  ∧ inwardIs toLowerCase "is child of" link = None.

(** ** Forest mode ([getIssueHierarchy]) *)

Record SearchResponse := {
  sr_issues : list Issue;       (* response.issues || [] *)
  sr_total : nat;
}.

(** One row of the structure (folder topology); an absent string member
    is [""]. *)
Record Element := {
  el_id : string;
  el_name : string;
  el_summary : string;
  el_parentId : string;
  el_issueKey : string;
  el_type : string;
  el_folder : bool;
  el_elementType : string;
}.

Record ForestParams := {
  fp_jql : string;              (* "" when omitted *)
  fp_assignee : string;         (* "" when omitted *)
  fp_maxResults : nat;          (* 0 when omitted *)
}.

(** The dictionaries of one build pass. *)
Record Graph := {
  g_issueMap : Rec Issue;
  g_epicMap : Rec (list Key);
  g_coversMap : gmap Key (list Key);
  g_parentMap : gmap Key (list Key);
}.

Record EpicData := {
  ed_epicKey : Key;
  ed_epic : option Issue;
  ed_issues : list Key;
}.

(** An epic header with the tree rendered under it; [es_more] is the
    number of issues beyond the display cap. *)
Record EpicSection := {
  es_epicKey : Key;
  es_epic : option Issue;
  es_issueCount : nat;
  es_lines : list RenderedNode;
  es_more : nat;
}.

Record FolderInfo := { fi_id : string; fi_name : string; fi_parentId : string }.

(** The folder overlay: issue key to folder paths, and folder name to the
    ids of the folders of that name. *)
Record Overlay := {
  ov_issueToFolderMap : Rec (list string);
  ov_folderMap : Rec (list string);
  ov_structureErrors : list string;
}.

Definition noOverlay : Overlay :=
  {| ov_issueToFolderMap := []; ov_folderMap := []; ov_structureErrors := [] |}.

Record ForestOutput := {
  fo_total : nat;
  fo_epicsCount : nat;
  fo_foldersCount : nat;
  fo_issuesWithFolders : nat;
  fo_structureErrors : list string;
  fo_noFoldersNote : bool;
  fo_folders : list (string * list EpicSection);
  fo_epicsWithoutFolders : list EpicSection;
  fo_rootTasks : option (list RenderedNode * nat);
  fo_withEpicLink : nat;
  fo_withCovers : nat;
  fo_withParentChild : nat;
  fo_totalInHierarchy : nat;
}.

(** A completed call: the result handed to the caller (or the error
    thrown) and the single-key lookups sent while building it. *)
Record ForestRun := {
  fr_result : Result ForestOutput;
  fr_lookups : list Key;
}.

(** [jql] of the main query. *)
Definition forestJql (p : ForestParams) : string :=
  if truthy (fp_assignee p) && negb (truthy (fp_jql p))
  then "assignee = " +:+ fp_assignee p +:+ " AND statusCategory != Done"
  else if truthy (fp_jql p) then fp_jql p
       else "assignee = currentUser() AND statusCategory != Done".

Definition epicJql (p : ForestParams) : string :=
  "issuetype = Epic" +:+
  (if includes (forestJql p) "assignee = currentUser()"
   then " AND (assignee = currentUser() OR reporter = currentUser())"
   else if truthy (fp_assignee p)
        then " AND (assignee = " +:+ fp_assignee p +:+ " OR reporter = "
             +:+ fp_assignee p +:+ ")"
        else if truthy (fp_jql p) then " AND (" +:+ fp_jql p +:+ ")" else "").

Definition hierarchyFields : list string :=
  ["summary"; "status"; "priority"; "issuetype"; "key"; "customfield_10102"; "issuelinks"].

Definition epicFields : list string :=
  ["summary"; "status"; "priority"; "key"; "issuetype"].

(** The [TypeError] of calling a member that is not a function. *)
Definition notAFunction : ApiError :=
  {| statusCode := None; message := "epicLink.toString is not a function" |}.

(** Epic key collected by the first loop ("Fill issue_map"), inside
    [if (epicLink)]. *)
Definition collectEpicKey (e : EpicLink) : Result (option Key) :=
  match e with
  | ELNone | ELOther => Ok None
  | ELString s => Ok (Some s)
  | ELObject o_key _ o_toString =>
      if truthy (default "" o_key) then Ok o_key
      else match o_toString with
           | ToStringMissing => Ok None
           | ToStringNotCallable => Err notAFunction
           | ToStringReturns s => Ok (Some s)
           end
  end.

(** First loop: [issueMap[issue.key] = issue] and [epicKeysToFetch.add]. *)
Fixpoint fillIssueMap (issues : list Issue) (issueMap : Rec Issue)
  (epicKeysToFetch : list Key) : Result (Rec Issue * list Key) :=
  match issues with
  | [] => Ok (issueMap, epicKeysToFetch)
  | issue :: rest =>
      let issueMap := rset (key issue) issue issueMap in
      if epicLinkTruthy (customfield_10102 issue) then
        match collectEpicKey (customfield_10102 issue) with
        | Err e => Err e
        | Ok (Some epicKey) =>
            fillIssueMap rest issueMap
              (if truthy epicKey then setAdd epicKey epicKeysToFetch
               else epicKeysToFetch)
        | Ok None => fillIssueMap rest issueMap epicKeysToFetch
        end
      else fillIssueMap rest issueMap epicKeysToFetch
  end.

(** "Add epics from assignee query to issueMap". *)
Fixpoint addSearchedEpics (epics : list Issue) (issueMap : Rec Issue)
  (epicKeysToFetch : list Key) : Rec Issue * list Key :=
  match epics with
  | [] => (issueMap, epicKeysToFetch)
  | epic :: rest =>
      addSearchedEpics rest (rsetIfAbsent (key epic) epic issueMap)
        (setAdd (key epic) epicKeysToFetch)
  end.

(** [epicKeysArray.filter(key => !fetchedEpicKeys.has(key))] *)
Definition epicsToFetch (epicKeysToFetch : list Key) (searchedEpics : list Issue)
  : list Key :=
  filter (fun k => k ∉ key <$> searchedEpics) epicKeysToFetch.

(** Epic key decoded by the second loop ("Process hierarchical
    relationships"), inside [if (epicLink)]. *)
Definition decodeEpicLink (e : EpicLink) : option Key :=
  match e with
  | ELNone | ELOther => None
  | ELString s => Some s
  | ELObject (Some k) _ _ => Some k
  | ELObject None (Some id) _ => Some id
  | ELObject None None (ToStringReturns s) => Some s
  | ELObject None None _ => None
  end.

(** The GroupLink edge of one issue: [Some epicKey] when
    [epicMap[epicKey].push(key)] runs. *)
Definition groupLinkOf (issue : Issue) : option Key :=
  if epicLinkTruthy (customfield_10102 issue) then
    match decodeEpicLink (customfield_10102 issue) with
    | Some epicKey => if truthy epicKey then Some epicKey else None
    | None => None
    end
  else None.

(** [if (!epicMap[e]) epicMap[e] = []; epicMap[e].push(k)] *)
Definition pushEpic (e k : Key) (epicMap : Rec (list Key)) : Rec (list Key) :=
  rset e (default [] (rget e epicMap) ++ [k]) epicMap.

Definition withEpicMap (f : Rec (list Key) -> Rec (list Key)) (g : Graph) : Graph :=
  {| g_issueMap := g_issueMap g; g_epicMap := f (g_epicMap g);
     g_coversMap := g_coversMap g; g_parentMap := g_parentMap g |}.

(** [if (a && b) { add(parent, child); if (!issueMap[other]) issueMap[other] = stub }] *)
Definition coversEdge (parent child : Key) (other : LinkedIssue) (g : Graph) : Graph :=
  if truthy parent && truthy child then
    {| g_issueMap := rsetIfAbsent (li_key other) (stubIssue (li_key other) other) (g_issueMap g);
       g_epicMap := g_epicMap g;
       g_coversMap := addEdge parent child (g_coversMap g);
       g_parentMap := g_parentMap g |}
  else g.

Definition parentEdge (parent child : Key) (other : LinkedIssue) (g : Graph) : Graph :=
  if truthy parent && truthy child then
    {| g_issueMap := rsetIfAbsent (li_key other) (stubIssue (li_key other) other) (g_issueMap g);
       g_epicMap := g_epicMap g;
       g_coversMap := g_coversMap g;
       g_parentMap := addEdge parent child (g_parentMap g) |}
  else g.

(** [path.split(sep)[0]] for a non-empty separator. *)
Fixpoint firstSegment (sep s : string) : string :=
  if String.prefix sep s then ""
  else match s with
       | EmptyString => ""
       | String c s' => String c (firstSegment sep s')
       end.

Fixpoint insertSorted (x : string) (xs : list string) : list string :=
  match xs with
  | [] => [x]
  | y :: rest => if String.leb x y then x :: xs else y :: insertSorted x rest
  end.

(** [keys.sort()]: the default order of [sort], which on these strings is
    the byte order of [String.leb]. *)
Definition sortStrings (xs : list string) : list string := foldr insertSorted [] xs.

(** [!e.issueKey && (e.type === 'folder' || e.folder === true || e.elementType === 'folder')] *)
Definition isFolder (e : Element) : bool :=
  negb (truthy (el_issueKey e))
  && (String.eqb (el_type e) "folder" || el_folder e
      || String.eqb (el_elementType e) "folder").

(** [element.name || element.summary || 'Unnamed Folder'] *)
Definition folderName (e : Element) : string :=
  if truthy (el_name e) then el_name e
  else if truthy (el_summary e) then el_summary e else "Unnamed Folder".

(** "First, collect all folders". *)
Definition collectFolders (elements : list Element) : Rec FolderInfo :=
  foldl (fun m e =>
           if isFolder e
           then rset (el_id e)
                  {| fi_id := el_id e; fi_name := folderName e;
                     fi_parentId := el_parentId e |} m
           else m) [] elements.

(** [getFolderPath]; the recursion follows [parentId] links. *)
Fixpoint getFolderPath (elements : list Element) (folderInfoMap : Rec FolderInfo)
  (fuel : nat) (elementId : string) : option (list string) :=
  match fuel with
  | 0 => None
  | S fuel' =>
      match list_find (fun e => el_id e = elementId) elements with
      | None => Some []
      | Some (_, element) =>
          if negb (isFolder element) then Some []
          else match rget elementId folderInfoMap with
               | None => Some []
               | Some folder =>
                   if truthy (fi_parentId folder) then
                     parentPath ← getFolderPath elements folderInfoMap fuel'
                                    (fi_parentId folder);
                     Some (parentPath ++ [fi_name folder])
                   else Some [fi_name folder]
               end
      end
  end.

(** [if (!m[k]) m[k] = []; if (!m[k].includes(v)) m[k].push(v)] on strings. *)
Definition pushUnique (k : Key) (v : string) (m : Rec (list string)) : Rec (list string) :=
  let l := default [] (rget k m) in
  rset k (if bool_decide (v ∈ l) then l else l ++ [v]) m.

(** The body of the loop "Map issues and epics to their folder paths". *)
Definition mapElement (elements : list Element) (folderInfoMap : Rec FolderInfo)
  (issueMap : Rec Issue) (allEpicKeysInMap : list Key)
  (element : Element) (ov : Overlay) : option Overlay :=
  if truthy (el_issueKey element)
     && (bool_decide (is_Some (rget (el_issueKey element) issueMap))
         || bool_decide (el_issueKey element ∈ allEpicKeysInMap))
     && truthy (el_parentId element)
  then
    folderPath ← getFolderPath elements folderInfoMap (S (length elements))
                   (el_parentId element);
    match last folderPath with
    | None => Some ov
    | Some name =>
        Some {| ov_issueToFolderMap :=
                  pushUnique (el_issueKey element) (join " → " folderPath)
                    (ov_issueToFolderMap ov);
                ov_folderMap := pushUnique name (el_parentId element) (ov_folderMap ov);
                ov_structureErrors := ov_structureErrors ov |}
    end
  else Some ov.

(** [is404] of the [catch] around the structure request. *)
Definition is404 (e : ApiError) : bool :=
  bool_decide (statusCode e = Some 404)
  || includes (message e) "404" || includes (message e) "Not Found".

(** The [try]/[catch] around [getStructureHierarchy('138', ...)]. *)
Definition folderOverlay (hierarchy : Result (list Element))
  (issueMap : Rec Issue) (allEpicKeysInMap : list Key) : option Overlay :=
  match hierarchy with
  | Ok elements =>
      forEachM (mapElement elements (collectFolders elements) issueMap allEpicKeysInMap)
        elements noOverlay
  | Err e =>
      if is404 e then Some noOverlay
      else Some {| ov_issueToFolderMap := []; ov_folderMap := [];
                   ov_structureErrors := ["Структура 138: " +:+ message e] |}
  end.

(** Top-level folders of an epic: of the epic itself, then of its issues. *)
Definition epicFolders (issueToFolderMap : Rec (list string)) (epicKey : Key)
  (issuesInEpic : list Key) : list string :=
  arrayFromSet
    (firstSegment " → " <$>
       (default [] (rget epicKey issueToFolderMap)
        ++ concat ((fun k => default [] (rget k issueToFolderMap)) <$> issuesInEpic))).

(** [if (!m[f]) m[f] = []; if (!m[f].some(e => e.epicKey === d.epicKey)) m[f].push(d)] *)
Definition pushEpicData (folder : string) (d : EpicData) (m : Rec (list EpicData))
  : Rec (list EpicData) :=
  let l := default [] (rget folder m) in
  rset folder
    (if bool_decide (ed_epicKey d ∈ ed_epicKey <$> l) then l else l ++ [d]) m.

(** "Group epics by folders": the folder dictionary and the epics that
    are in no folder. *)
Definition groupEpics (g : Graph) (issueToFolderMap : Rec (list string))
  (allEpicKeysInMap : list Key) : Rec (list EpicData) * list EpicData :=
  foldl (fun '(folderToEpicsMap, epicsWithoutFolders) epicKey =>
           let issuesInEpic := default [] (rget epicKey (g_epicMap g)) in
           let epicData := {| ed_epicKey := epicKey;
                              ed_epic := rget epicKey (g_issueMap g);
                              ed_issues := issuesInEpic |} in
           match epicFolders issueToFolderMap epicKey issuesInEpic with
           | [] => (folderToEpicsMap, epicsWithoutFolders ++ [epicData])
           | folders =>
               (foldl (fun m f => pushEpicData f epicData m) folderToEpicsMap folders,
                epicsWithoutFolders)
           end)
        ([], []) allEpicKeysInMap.

(** The loops that render the issues of one section.  All calls of one
    loop share the [visited] set created just before the loop. *)
Fixpoint forEachIssue (guard : Key -> bool)
  (render : Key -> bool -> gset Key -> option (list RenderedNode * gset Key))
  (isLastAt : nat -> bool) (rest : list Key) (i : nat)
  (lines : list RenderedNode) (visited : gset Key)
  : option (list RenderedNode * gset Key) :=
  match rest with
  | [] => Some (lines, visited)
  | issueKey :: rest' =>
      if guard issueKey then
        '(treeLines, visited') ← render issueKey (isLastAt i) visited;
        forEachIssue guard render isLastAt rest' (S i) (lines ++ treeLines) visited'
      else forEachIssue guard render isLastAt rest' (S i) lines visited
  end.

Section ForestRender.

Variable g : Graph.

Definition walkFrom (level : nat) (prefix : string)
  : Key -> bool -> gset Key -> option (list RenderedNode * gset Key) :=
  fun issueKey isLast visited =>
    buildTreeLines (g_issueMap g) (g_coversMap g) (g_parentMap g)
      (treeFuel (g_coversMap g) (g_parentMap g)) issueKey level prefix isLast visited.

Definition inIssueMap (k : Key) : bool := bool_decide (is_Some (rget k (g_issueMap g))).

(** [const visited = new Set(); for (i = 0; i < Math.min(issues.length, cap); i++) ...] *)
Definition renderIssues (guard : Key -> bool) (cap level : nat) (prefix : string)
  (isLastAt : nat -> bool) (issues : list Key) : option (list RenderedNode) :=
  fst <$> forEachIssue guard (walkFrom level prefix) isLastAt (take cap issues) 0 [] ∅.

(** One epic inside a folder section. *)
Definition folderEpicSection (isLastEpic : bool) (d : EpicData) : option EpicSection :=
  let n := length (ed_issues d) in
  match ed_epic d with
  | None =>
      Some {| es_epicKey := ed_epicKey d; es_epic := None; es_issueCount := n;
              es_lines := []; es_more := 0 |}
  | Some epic =>
      lines ← renderIssues inIssueMap 20 2 (if isLastEpic then "    " else "│   ")
                (fun i => (i =? n - 1)%nat || (i =? n `min` 20 - 1)%nat)
                (ed_issues d);
      Some {| es_epicKey := ed_epicKey d; es_epic := Some epic; es_issueCount := n;
              es_lines := lines; es_more := n - 20 |}
  end.

Fixpoint folderEpicSections (epicsInFolder : list EpicData) (epicIdx n : nat)
  : option (list EpicSection) :=
  match epicsInFolder with
  | [] => Some []
  | d :: rest =>
      s ← folderEpicSection (epicIdx =? n - 1)%nat d;
      ss ← folderEpicSections rest (S epicIdx) n;
      Some (s :: ss)
  end.

(** One epic of "Эпики без папок"; the tree is rendered whether or not
    the epic's own record is known. *)
Definition epicSection (d : EpicData) : option EpicSection :=
  let n := length (ed_issues d) in
  lines ← renderIssues inIssueMap 30 1 "   "
            (fun i => (i =? n `min` 30 - 1)%nat) (ed_issues d);
  Some {| es_epicKey := ed_epicKey d; es_epic := ed_epic d; es_issueCount := n;
          es_lines := lines; es_more := n - 30 |}.

(** [Object.keys(epicMap).filter(key => epicMap[key] && epicMap[key].length > 0)] *)
Definition allEpicKeysInMap : list Key :=
  filter (fun k => default [] (rget k (g_epicMap g)) ≠ []) (rkeys (g_epicMap g)).

Definition isEpicType (k : Key) : bool :=
  match rget k (g_issueMap g) with
  | Some issue => bool_decide (issuetype (fields issue) = Some "Эпик")
  | None => false
  end.

Definition hasEpicLink (k : Key) : bool :=
  match rget k (g_issueMap g) with
  | Some issue => epicLinkTruthy (customfield_10102 issue)
  | None => false
  end.

Definition tasksWithoutEpic : list Key :=
  filter (fun k => negb (bool_decide (k ∈ allEpicKeysInMap))
                   && negb (isEpicType k) && negb (hasEpicLink k))
    (rkeys (g_issueMap g)).

Definition rootTasks : list Key :=
  filter (fun k => (k ∉ concat (map_to_list (g_coversMap g)).*2)
                   ∧ (k ∉ concat (map_to_list (g_parentMap g)).*2))
    tasksWithoutEpic.

(** "Tasks without epics": present only when there is a root task. *)
Definition rootSection : option (option (list RenderedNode * nat)) :=
  match rootTasks with
  | [] => Some None
  | _ =>
      let n := length rootTasks in
      lines ← renderIssues (fun _ => true) 20 0 ""
                (fun i => (i =? n `min` 20 - 1)%nat) rootTasks;
      Some (Some (lines, n - 20))
  end.

(** "Build output", from the header to the statistics. *)
Definition buildOutput (total : nat) (ov : Overlay) : option ForestOutput :=
  let '(folderToEpicsMap, epicsWithoutFolders) :=
    groupEpics g (ov_issueToFolderMap ov) allEpicKeysInMap in
  let foldersCount := length (rkeys (ov_folderMap ov)) in
  let issuesWithFolders := length (rkeys (ov_issueToFolderMap ov)) in
  folders ← mapM (fun name =>
                    let epicsInFolder := default [] (rget name folderToEpicsMap) in
                    ss ← folderEpicSections epicsInFolder 0 (length epicsInFolder);
                    Some (name, ss))
               (sortStrings (rkeys folderToEpicsMap));
  epics ← mapM epicSection epicsWithoutFolders;
  roots ← rootSection;
  Some {| fo_total := total;
          fo_epicsCount := length allEpicKeysInMap;
          fo_foldersCount := foldersCount;
          fo_issuesWithFolders := issuesWithFolders;
          fo_structureErrors := ov_structureErrors ov;
          fo_noFoldersNote :=
            (foldersCount =? 0)%nat && (issuesWithFolders =? 0)%nat
            && (length (ov_structureErrors ov) =? 0)%nat;
          fo_folders := folders;
          fo_epicsWithoutFolders := epics;
          fo_rootTasks := roots;
          fo_withEpicLink := totalLength (g_epicMap g).*2;
          fo_withCovers := totalLength (map_to_list (g_coversMap g)).*2;
          fo_withParentChild := totalLength (map_to_list (g_parentMap g)).*2;
          fo_totalInHierarchy := length (rkeys (g_issueMap g)) |}.

End ForestRender.

Section ForestMode.

Variable toLowerCase : string -> string.

(** The API client: [searchIssues(jql, {maxResults, fields})],
    [getIssue(key, ...)] and [getStructureHierarchy(id, {maxResults})];
    the last answers with the elements of the hierarchy, [[]] when the
    response carries none. *)
Variable searchIssues : string -> nat -> list string -> Result SearchResponse.
Variable getIssue : Key -> Result Issue.
Variable getStructureHierarchy : string -> nat -> Result (list Element).

Variable params : ForestParams.

(** "Fetch epics that are referenced by tasks but not in assignee query". *)
Fixpoint fetchEpics (toFetch : list Key) (issueMap : Rec Issue) (lookups : list Key)
  : Rec Issue * list Key :=
  match toFetch with
  | [] => (issueMap, lookups)
  | epicKey :: rest =>
      match getIssue epicKey with
      | Ok epic =>
          fetchEpics rest (rsetIfAbsent (key epic) epic issueMap) (lookups ++ [epicKey])
      | Err _ => fetchEpics rest issueMap (lookups ++ [epicKey])
      end
  end.

(** The body of the loop over [fields.issuelinks || []]. *)
Definition forestLink (key : Key) (g : Graph) (link : IssueLink) : Graph :=
  let g :=
    if isRequirementLink toLowerCase (link_type link) then
      let g := match outwardIs toLowerCase "covers" link with
               | Some o => coversEdge key (li_key o) o g
               | None => g
               end in
      match inwardIs toLowerCase "covered by" link with
      | Some i => coversEdge (li_key i) key i g
      | None => g
      end
    else g in
  if isParentChildLink toLowerCase (link_type link) then
    let g := match outwardIs toLowerCase "is parent of" link with
             | Some o => parentEdge key (li_key o) o g
             | None => g
             end in
    match inwardIs toLowerCase "is child of" link with
    | Some i => parentEdge (li_key i) key i g
    | None => g
    end
  else g.

(** The body of the loop "Process hierarchical relationships". *)
Definition processIssue (g : Graph) (issue : Issue) : Graph :=
  let g := match groupLinkOf issue with
           | Some epicKey => withEpicMap (pushEpic epicKey (key issue)) g
           | None => g
           end in
  foldl (forestLink (key issue)) g (issuelinks issue).

Definition processRelationships (issues : list Issue) (issueMap : Rec Issue) : Graph :=
  foldl processIssue
    {| g_issueMap := issueMap; g_epicMap := []; g_coversMap := ∅; g_parentMap := ∅ |}
    issues.

(** The outer [catch]: the call throws a wrapped error. *)
Definition failed (e : ApiError) (lookups : list Key) : ForestRun :=
  {| fr_result := Err {| statusCode := None;
                         message := "Failed to build issue hierarchy: " +:+ message e |};
     fr_lookups := lookups |}.

(** The dictionaries at the start of the rendering phase and the lookups
    sent to build them, or the error thrown on the way (every [throw]
    precedes the first lookup). *)
Definition assembleGraph : Result (SearchResponse * Graph * list Key) :=
  match searchIssues (forestJql params)
          (if (fp_maxResults params =? 0)%nat then 200 else fp_maxResults params)
          hierarchyFields with
  | Err e => Err e
  | Ok response =>
      match fillIssueMap (sr_issues response) [] [] with
      | Err e => Err e
      | Ok (issueMap, epicKeysToFetch) =>
          match searchIssues (epicJql params) 100 epicFields with
          | Err e => Err e
          | Ok epicsResponse =>
              let '(issueMap, epicKeysToFetch) :=
                addSearchedEpics (sr_issues epicsResponse) issueMap epicKeysToFetch in
              let '(issueMap, lookups) :=
                fetchEpics (epicsToFetch epicKeysToFetch (sr_issues epicsResponse))
                  issueMap [] in
              Ok (response, processRelationships (sr_issues response) issueMap, lookups)
          end
      end
  end.

Definition getIssueHierarchy : option ForestRun :=
  match assembleGraph with
  | Err e => Some (failed e [])
  | Ok (response, g, lookups) =>
      ov ← folderOverlay (getStructureHierarchy "138" 1000) (g_issueMap g)
             (allEpicKeysInMap g);
      out ← buildOutput g (sr_total response) ov;
      Some {| fr_result := Ok out; fr_lookups := lookups |}
  end.

End ForestMode.

(** The header data of one epic, as [groupEpics] builds it. *)
Definition epicDataOf (g : Graph) (epicKey : Key) : EpicData :=
  {| ed_epicKey := epicKey; ed_epic := rget epicKey (g_issueMap g);
     ed_issues := default [] (rget epicKey (g_epicMap g)) |}.

(** Every key rendered anywhere in the output, section after section. *)
Definition sectionKeys (s : EpicSection) : list Key := renderedKeys (es_lines s).

Definition allRenderedKeys (out : ForestOutput) : list Key :=
  concat ((fun '(_, ss) => concat (sectionKeys <$> ss)) <$> fo_folders out)
  ++ concat (sectionKeys <$> fo_epicsWithoutFolders out)
  ++ match fo_rootTasks out with
     | Some (lines, _) => renderedKeys lines
     | None => []
     end.

(** No section of the output renders a key twice. *)
Definition sectionsDedup (out : ForestOutput) : Prop :=
  (∀ name ss s, (name, ss) ∈ fo_folders out → s ∈ ss → NoDup (sectionKeys s))
  ∧ (∀ s, s ∈ fo_epicsWithoutFolders out → NoDup (sectionKeys s))
  ∧ (∀ lines more, fo_rootTasks out = Some (lines, more) → NoDup (renderedKeys lines)).

(** ** Requests to the tracker *)

(** The requests of [transitionIssue] and [completeIssue] to the API
    client; only [CallTransitionIssue] changes an issue. *)
Inductive ApiCall :=
| CallGetIssue (issueKey : Key)
| CallGetIssueTransitions (issueKey : Key)
| CallTransitionIssue (issueKey : Key) (transitionId comment : string)
| CallAddComment (issueKey : Key) (comment : string).

(** A completed operation: what the caller gets and the requests sent. *)
Record Run (A : Type) := {
  run_result : Result A;
  run_calls : list ApiCall;
}.
Arguments run_result {A} r.
Arguments run_calls {A} r.

Definition isTransitionCall (c : ApiCall) : bool :=
  match c with
  | CallTransitionIssue _ _ _ => true
  | _ => false
  end.

(** ** [transitionIssue] *)

Record Transition := {
  tr_id : string;
  tr_name : string;
  tr_toName : string;
}.

Record TransitionRequest := {
  tq_issueKey : Key;
  tq_transitionName : string;
  tq_comment : string;          (* "" when omitted *)
}.

Record TransitionDone := {
  td_issueKey : Key;
  td_transition : string;
  td_newStatus : string;
  td_comment : string;
  td_otherTransitions : list (string * string);
}.

(** The double-quote character. *)
Definition dquote : string :=
  String (Ascii.Ascii false true false false false true false false) EmptyString.

Section TransitionIssue.

Variable toLowerCase : string -> string.

(** [getIssueTransitions] answers with [response.transitions || []]. *)
Variable getIssueTransitions : Key -> Result (list Transition).
Variable apiTransitionIssue : Key -> string -> string -> Result unit.

Variable params : TransitionRequest.

(** [transitions.find(t => t.name.toLowerCase() === params.transitionName.toLowerCase())] *)
Definition findTransition (transitions : list Transition) : option Transition :=
  snd <$> list_find
    (fun t => toLowerCase (tr_name t) = toLowerCase (tq_transitionName params))
    transitions.

Definition transitionNotFound (transitions : list Transition) : ApiError :=
  {| statusCode := None;
     message := "Transition " +:+ dquote +:+ tq_transitionName params +:+ dquote
                +:+ " not found. Available transitions: "
                +:+ join ", " (tr_name <$> transitions) |}.

(** The [catch]: every error is rethrown wrapped. *)
Definition transitionFailed (e : ApiError) : Result TransitionDone :=
  Err {| statusCode := None;
         message := "Failed to transition issue: " +:+ message e |}.

Definition transitionIssue : Run TransitionDone :=
  let k := tq_issueKey params in
  match getIssueTransitions k with
  | Err e =>
      {| run_result := transitionFailed e; run_calls := [CallGetIssueTransitions k] |}
  | Ok transitions =>
      match findTransition transitions with
      | None =>
          {| run_result := transitionFailed (transitionNotFound transitions);
             run_calls := [CallGetIssueTransitions k] |}
      | Some transition =>
          let calls := [CallGetIssueTransitions k;
                        CallTransitionIssue k (tr_id transition) (tq_comment params)] in
          match apiTransitionIssue k (tr_id transition) (tq_comment params) with
          | Err e => {| run_result := transitionFailed e; run_calls := calls |}
          | Ok _ =>
              {| run_result :=
                   Ok {| td_issueKey := k;
                         td_transition := tq_transitionName params;
                         td_newStatus := tr_toName transition;
                         td_comment := tq_comment params;
                         td_otherTransitions :=
                           (fun t => (tr_name t, tr_toName t)) <$>
                             filter (fun t => tr_id t ≠ tr_id transition) transitions |};
                 run_calls := calls |}
          end
      end
  end.

End TransitionIssue.

(** ** The last-viewed-issue tracker and [completeIssue] *)

(** The tracker file [~/.jira-mcp-last-issue.json]. *)
Inductive TrackerFile :=
| NoFile                         (* the file does not exist *)
| Unreadable                     (* reading or parsing it throws *)
| Tracked (issueKey : string).   (* its [issueKey] member, "" when absent *)

(** [IssueTracker.getLastIssue]: [data.issueKey || null], [null] on any error. *)
Definition getLastIssue (file : TrackerFile) : option Key :=
  match file with
  | NoFile => None
  | Unreadable => None
  | Tracked issueKey => if truthy issueKey then Some issueKey else None
  end.

(** [IssueTracker.trackIssue]; a failed write is logged and ignored. *)
Definition trackIssue (issueKey : Key) (writable : bool) (file : TrackerFile)
  : TrackerFile :=
  if writable then Tracked issueKey else file.

Record CompleteParams := {
  cp_issueKey : string;          (* "" when omitted *)
  cp_customResolution : string;
  cp_confirm : bool;
}.

Inductive CompleteOutcome (Done : Type) :=
| NoIssueToComplete
| ConfirmationRequested (issueKey : Key)
| Completed (done : Done).
Arguments NoIssueToComplete {Done}.
Arguments ConfirmationRequested {Done} issueKey.
Arguments Completed {Done} done.

Section CompleteIssue.

(** What the operation answers once the issue to complete is settled: the
    part of [completeIssue] from "Get issue details first" to its end, with
    the requests it sends. *)
Variable Done : Type.
Variable completeKnownIssue : Key -> CompleteParams -> Run Done.

Variable trackerFile : TrackerFile.

Definition completeIssue (params : CompleteParams) : Run (CompleteOutcome Done) :=
  let continue := fun issueKey =>
    let r := completeKnownIssue issueKey params in
    {| run_result := match run_result r with
                     | Ok d => Ok (Completed d)
                     | Err e =>
                         Err {| statusCode := None;
                                message := "Failed to complete issue: " +:+ message e |}
                     end;
       run_calls := run_calls r |} in
  if truthy (cp_issueKey params) then continue (cp_issueKey params)
  else
    match getLastIssue trackerFile with
    | None => {| run_result := Ok NoIssueToComplete; run_calls := [] |}
    | Some lastIssue =>
        if cp_confirm params then continue lastIssue
        else {| run_result := Ok (ConfirmationRequested lastIssue); run_calls := [] |}
    end.

End CompleteIssue.

(** ** Sample inputs *)

Definition display (text : string) : DisplayFields :=
  {| summary := Some text; status := None; priority := None; issuetype := None |}.

Definition parentChildType : LinkType :=
  {| lt_id := "10600"; lt_name := "Parent-Child";
     lt_inward := "is child of"; lt_outward := "is parent of" |}.

Definition requirementType : LinkType :=
  {| lt_id := "10703"; lt_name := "Requirement";
     lt_inward := "covered by"; lt_outward := "covers" |}.

(** "this issue is parent of [k]" *)
Definition isParentOf (k : Key) : IssueLink :=
  {| link_type := parentChildType; inwardIssue := None;
     outwardIssue := Some {| li_key := k; li_fields := Some (display k) |} |}.

(** "this issue covers [k]" *)
Definition coversIssue (k : Key) : IssueLink :=
  {| link_type := requirementType; inwardIssue := None;
     outwardIssue := Some {| li_key := k; li_fields := Some (display k) |} |}.

Definition task (k : Key) (epicLink : EpicLink) (links : list IssueLink) : Issue :=
  {| key := k; fields := display k; customfield_10102 := epicLink; issuelinks := links |}.

Definition notFound : ApiError := {| statusCode := Some 404; message := "Not Found" |}.

(** A working set with an epic G-1 grouping A-1 and B-1, and an issue K-1
    that is parent of Y-1 and covers X-1. *)
Definition groupedIssues : list Issue :=
  [ task "A-1" (ELString "G-1") [];
    task "B-1" (ELString "G-1") [];
    task "K-1" ELNone [isParentOf "Y-1"; coversIssue "X-1"] ].

Definition groupedGraph : Graph :=
  processRelationships asciiLower groupedIssues
    ((fun i => (key i, i)) <$> groupedIssues).

Definition epicRecord (k : Key) : Issue :=
  {| key := k;
     fields := {| summary := Some k; status := None; priority := None;
                  issuetype := Some "Эпик" |};
     customfield_10102 := ELNone; issuelinks := [] |}.

(** Two epics E-1 and E-2; T-1 belongs to E-1, T-2 to E-2, and T-1 is
    parent of T-2. *)
Definition twoEpicIssues : list Issue :=
  [ task "T-1" (ELString "E-1") [isParentOf "T-2"];
    task "T-2" (ELString "E-2") [] ].

Definition twoEpicSearch (jql : string) (maxResults : nat) (fieldNames : list string)
  : Result SearchResponse :=
  if String.prefix "issuetype = Epic" jql
  then Ok {| sr_issues := [epicRecord "E-1"; epicRecord "E-2"]; sr_total := 2 |}
  else Ok {| sr_issues := twoEpicIssues; sr_total := 2 |}.

Definition noSuchIssue (k : Key) : Result Issue := Err notFound.

Definition structureUnavailable (structureId : string) (maxResults : nat)
  : Result (list Element) :=
  Err {| statusCode := Some 403; message := "Forbidden" |}.

Definition defaultParams : ForestParams :=
  {| fp_jql := ""; fp_assignee := ""; fp_maxResults := 0 |}.

(** The graph assembled from [twoEpicSearch]. *)
Definition twoEpicGraph : Graph :=
  processRelationships asciiLower twoEpicIssues
    [("T-1", task "T-1" (ELString "E-1") [isParentOf "T-2"]);
     ("T-2", task "T-2" (ELString "E-2") []);
     ("E-1", epicRecord "E-1"); ("E-2", epicRecord "E-2")].

(** A root R-1 with the Containment children C-1 and C-2; C-1 has a child
    G-1 of its own, which can be fetched too. *)
Definition familyLookup (k : Key) : Result Issue :=
  if String.eqb k "R-1" then Ok (task "R-1" ELNone [isParentOf "C-1"; isParentOf "C-2"])
  else if String.eqb k "C-1" then Ok (task "C-1" ELNone [isParentOf "G-1"])
  else if String.eqb k "C-2" then Ok (task "C-2" ELNone [])
  else if String.eqb k "G-1" then Ok (task "G-1" ELNone [])
  else Err notFound.

Definition depthOne : RootParams :=
  {| rp_issueKey := "R-1"; rp_maxDepth := 1; rp_includeEpic := false |}.

(** The lookups of a forest build ([[]] when it throws before any). *)
Definition forestLookups (graph : Result (SearchResponse * Graph * list Key)) : list Key :=
  match graph with
  | Ok (_, _, lookups) => lookups
  | Err _ => []
  end.

(** The initial query returns the epic E-1 and its task T-1; the epics
    query returns nothing (it is capped at 100 results). *)
Definition epicInWorkingSet : list Issue :=
  [ epicRecord "E-1"; task "T-1" (ELString "E-1") [] ].

Definition workingSetSearch (jql : string) (maxResults : nat) (fieldNames : list string)
  : Result SearchResponse :=
  if String.prefix "issuetype = Epic" jql
  then Ok {| sr_issues := []; sr_total := 0 |}
  else Ok {| sr_issues := epicInWorkingSet; sr_total := 2 |}.

Definition epicLookup (k : Key) : Result Issue :=
  if String.eqb k "E-1" then Ok (epicRecord "E-1") else Err notFound.

(** An issue whose epic link is an object without [key] and [id] whose
    [toString] member is not a function. *)
Definition opaqueIssue : Issue :=
  task "T-9" (ELObject None None ToStringNotCallable) [].

Definition opaqueSearch (jql : string) (maxResults : nat) (fieldNames : list string)
  : Result SearchResponse :=
  if String.prefix "issuetype = Epic" jql
  then Ok {| sr_issues := []; sr_total := 0 |}
  else Ok {| sr_issues := [opaqueIssue]; sr_total := 1 |}.

(** Two transitions of an issue. *)
Definition sampleTransitions : list Transition :=
  [ {| tr_id := "11"; tr_name := "In Progress"; tr_toName := "In Progress" |};
    {| tr_id := "21"; tr_name := "Done"; tr_toName := "Done" |} ].

Definition sampleRequest (name : string) : TransitionRequest :=
  {| tq_issueKey := "RIVER-1"; tq_transitionName := name; tq_comment := "" |}.

(** The Containment cycle A-1 → B-1 → A-1. *)
Definition cycleIssueMap : Rec Issue :=
  [("A-1", task "A-1" ELNone []); ("B-1", task "B-1" ELNone [])].

Definition cycleParentMap : gmap Key (list Key) :=
  addEdge "B-1" "A-1" (addEdge "A-1" "B-1" ∅).

(** ** Predicates on the dictionaries of a forest build *)

(** The one shape of the epic link on which the first loop calls a
    [toString] member that is not a function. *)
Definition uncallableEpicLink (e : EpicLink) : bool :=
  match e with
  | ELObject o_key _ ToStringNotCallable => negb (truthy (default "" o_key))
  | _ => false
  end.

(** No adjacency list of the graph holds a key twice. *)
Definition duplicateFree (g : Graph) : Prop :=
  (∀ p, NoDup (lookupList (g_coversMap g) p))
  ∧ (∀ p, NoDup (lookupList (g_parentMap g) p)).

(** Both ends of every edge of the graph have a record. *)
Definition endpointsRecorded (g : Graph) : Prop :=
  ∀ p c, c ∈ lookupList (g_coversMap g) p ∨ c ∈ lookupList (g_parentMap g) p →
         is_Some (rget p (g_issueMap g)) ∧ is_Some (rget c (g_issueMap g)).

(** Every record of [m] is still the record of its key in [m']. *)
Definition recordsKept (m m' : Rec Issue) : Prop :=
  ∀ k v, rget k m = Some v → rget k m' = Some v.

(** What the processing of the issue [key] does to a graph: records are
    kept, and the two invariants above are preserved (the second when
    [key] has a record). *)
Definition edgeStep (key : Key) (g g' : Graph) : Prop :=
  recordsKept (g_issueMap g) (g_issueMap g')
  ∧ (duplicateFree g → duplicateFree g')
  ∧ (is_Some (rget key (g_issueMap g)) → endpointsRecorded g → endpointsRecorded g').

(** A request that was answered. *)
Definition isOk {A} (r : Result A) : bool :=
  match r with
  | Ok _ => true
  | Err _ => false
  end.

(** The records of a rooted build are answers of [getIssue], one for each
    lookup that succeeded, and every one of their keys is marked. *)
Definition recordsFetched (getIssue : Key -> Result Issue) (st : FetchState) : Prop :=
  (∀ k v, rget k (fs_issueMap st) = Some v → getIssue k = Ok v)
  ∧ length (rkeys (fs_issueMap st))
    = length (filter (fun k => isOk (getIssue k) = true) (fs_lookups st))
  ∧ recordsVisited st.

(** A second transition named like "Done" up to case. *)
Definition sameNameTransitions : list Transition :=
  [ {| tr_id := "31"; tr_name := "DONE"; tr_toName := "Resolved" |} ].

(** ** [getMyIssuesGroupedByStatus]

    The issues assigned to the user, one section for each status.  The
    names of statuses are used as property names; like issue keys they are
    neither canonical array indices nor names of members of
    [Object.prototype].  The unused parameter [showAll] is left out. *)

Record GroupedParams := {
  gp_jql : string;               (* "" when omitted *)
  gp_maxResults : nat;           (* 0 when omitted *)
}.

Definition myIssuesJql : string := "assignee = currentUser() AND statusCategory != Done".

Definition groupedFields : list string :=
  ["summary"; "status"; "priority"; "issuetype"; "updated"].

(** The property names of the literal [statusGroups], in its order. *)
Definition statusGroupNames : list string :=
  ["В работе"; "Сделать"; "Переоткрыт"; "Backlog"; "For test";
   "Тестирование в процессе"; "On hold"; "Blocked"; "Under Review"].

Definition emptyStatusGroups : Rec (list Issue) := (fun n => (n, [])) <$> statusGroupNames.

(** Reading [issue.fields.status.name] when there is no status. *)
Definition statusUndefined : ApiError :=
  {| statusCode := None;
     message := "Cannot read properties of undefined (reading 'name')" |}.

(** [issue.fields.status.name] as a property name; [undefined] reads and
    writes the property named "undefined". *)
Definition statusNameOf (s : Status) : string := default "undefined" (st_name s).

Definition statusNameOfIssue (issue : Issue) : option string :=
  statusNameOf <$> status (fields issue).

(** The body of the loop [for (const issue of issues)]. *)
Definition groupIssue (statusGroups otherStatuses : Rec (list Issue)) (issue : Issue)
  : Result (Rec (list Issue) * Rec (list Issue)) :=
  match status (fields issue) with
  | None => Err statusUndefined
  | Some s =>
      let statusName := statusNameOf s in
      match rget statusName statusGroups with
      | Some tasks => Ok (rset statusName (tasks ++ [issue]) statusGroups, otherStatuses)
      | None =>
          let otherStatuses := rsetIfAbsent statusName [] otherStatuses in
          Ok (statusGroups,
              rset statusName (default [] (rget statusName otherStatuses) ++ [issue])
                otherStatuses)
      end
  end.

Fixpoint groupByStatus (issues : list Issue) (statusGroups otherStatuses : Rec (list Issue))
  : Result (Rec (list Issue) * Rec (list Issue)) :=
  match issues with
  | [] => Ok (statusGroups, otherStatuses)
  | issue :: rest =>
      match groupIssue statusGroups otherStatuses issue with
      | Err e => Err e
      | Ok (statusGroups, otherStatuses) => groupByStatus rest statusGroups otherStatuses
      end
  end.

(** [task.fields.priority?.name || 'Medium'] *)
Definition priorityNameOf (task : Issue) : string :=
  let name := default "" (priority (fields task)) in
  if truthy name then name else "Medium".

Definition getPriorityEmoji (priorityName : string) : string :=
  if String.eqb priorityName "Блокер" then "🔴"
  else if String.eqb priorityName "Highest" then "🔴"
  else if String.eqb priorityName "High" then "🟠"
  else if String.eqb priorityName "Medium" then "🟡"
  else if String.eqb priorityName "Low" then "🔵"
  else if String.eqb priorityName "Lowest" then "⚪"
  else if String.eqb priorityName "Незначительный" then "⚪"
  else "🟡".

Definition getPriorityValue (priorityName : string) : nat :=
  if String.eqb priorityName "Блокер" then 0
  else if String.eqb priorityName "Highest" then 1
  else if String.eqb priorityName "High" then 2
  else if String.eqb priorityName "Medium" then 3
  else if String.eqb priorityName "Low" then 4
  else if String.eqb priorityName "Lowest" then 5
  else if String.eqb priorityName "Незначительный" then 6
  else 3.

Definition shouldShowPriorityEmoji (priorityName : string) : bool :=
  bool_decide (priorityName ∈ ["Блокер"; "Highest"; "High"]).

(** The sort of an array is stable: [[...l].sort((a, b) => f(a) - f(b))]
    is the insertion of each element, in the order of [l], behind the
    elements that do not come after it. *)
Fixpoint insertBy {A} (f : A -> nat) (x : A) (sorted : list A) : list A :=
  match sorted with
  | [] => [x]
  | y :: rest => if (f y <=? f x)%nat then y :: insertBy f x rest else x :: sorted
  end.

Definition sortBy {A} (f : A -> nat) (l : list A) : list A :=
  foldl (fun sorted x => insertBy f x sorted) [] l.

Definition taskPriority (task : Issue) : nat := getPriorityValue (priorityNameOf task).

(** [n === 1 ? 'задача' : n < 5 ? 'задачи' : 'задач'] *)
Definition taskWord (n : nat) : string :=
  if (n =? 1)%nat then "задача" else if (n <? 5)%nat then "задачи" else "задач".

(** One line of a section: the arguments of its template. *)
Record TaskLine := {
  tl_spacing : string;
  tl_key : Key;
  tl_summary : option string;
}.

Definition taskLine (task : Issue) : TaskLine :=
  let priorityName := priorityNameOf task in
  let priorityEmoji :=
    if shouldShowPriorityEmoji priorityName then getPriorityEmoji priorityName else "" in
  {| tl_spacing := if truthy priorityEmoji then priorityEmoji +:+ " " else "   ";
     tl_key := key task;
     tl_summary := summary (fields task) |}.

Record StatusSection := {
  ss_statusName : string;
  ss_count : nat;
  ss_taskWord : string;
  ss_tasks : list TaskLine;
  ss_more : option (nat * string);   (* the line "... и ещё n задач" *)
}.

(** [formatStatusGroup]; [None] is the empty string returned for an empty
    group. *)
Definition formatStatusGroup (statusName : string) (tasks : list Issue) (maxShow : nat)
  : option StatusSection :=
  if (length tasks =? 0)%nat then None
  else
    let sortedTasks := sortBy taskPriority tasks in
    Some {| ss_statusName := statusName;
            ss_count := length tasks;
            ss_taskWord := taskWord (length tasks);
            ss_tasks := taskLine <$> take maxShow sortedTasks;
            ss_more := if (maxShow <? length tasks)%nat
                       then Some (length tasks - maxShow, taskWord (length tasks - maxShow))
                       else None |}.

Record GroupedOutput := {
  go_total : nat;
  go_jql : string;
  go_shown : nat;
  go_sections : list StatusSection;
  go_links : list (string * nat);     (* "Быстрые ссылки на фильтры" *)
}.

(** The [catch]: every error is rethrown wrapped. *)
Definition groupedFailed (e : ApiError) : Result GroupedOutput :=
  Err {| statusCode := None; message := "Failed to get issues: " +:+ message e |}.

Definition statusFilterLinks (statusGroups : Rec (list Issue)) : list (string * nat) :=
  let count := fun name => length (default [] (rget name statusGroups)) in
  let always := fun name => [(name, count name)] in
  let whenAny := fun name => if (0 <? count name)%nat then [(name, count name)] else [] in
  always "В работе" ++ always "Сделать" ++ always "Переоткрыт" ++ always "Backlog"
  ++ whenAny "For test" ++ whenAny "Тестирование в процессе" ++ whenAny "Under Review".

Section GroupedByStatus.

(** [searchIssues(jql, {maxResults, startAt: 0, fields})] *)
Variable searchIssues : string -> nat -> list string -> Result SearchResponse.

Definition getMyIssuesGroupedByStatus (params : GroupedParams) : Result GroupedOutput :=
  let jql := if truthy (gp_jql params) then gp_jql params else myIssuesJql in
  let maxResults := if (gp_maxResults params =? 0)%nat then 500 else gp_maxResults params in
  match searchIssues jql maxResults groupedFields with
  | Err e => groupedFailed e
  | Ok response =>
      let issues := sr_issues response in
      match groupByStatus issues emptyStatusGroups [] with
      | Err e => groupedFailed e
      | Ok (statusGroups, otherStatuses) =>
          Ok {| go_total := sr_total response;
                go_jql := jql;
                go_shown := length issues;
                go_sections :=
                  omap (fun '(statusName, tasks) => formatStatusGroup statusName tasks 20)
                    (statusGroups ++ otherStatuses);
                go_links := statusFilterLinks statusGroups |}
      end
  end.

End GroupedByStatus.

(** The issues of [issues] whose status has the name [statusName]. *)
Definition withStatus (statusName : string) (issues : list Issue) : list Issue :=
  filter (fun issue => statusNameOfIssue issue = Some statusName) issues.

(** The status names of [issues] outside the literal [statusGroups], each
    at its first occurrence. *)
Definition otherStatusNames (issues : list Issue) : list string :=
  arrayFromSet (filter (fun n => n ∉ statusGroupNames) (omap statusNameOfIssue issues)).

(** The tasks of one priority value, in their order. *)
Definition ofPriority {A} (f : A -> nat) (v : nat) (l : list A) : list A :=
  filter (fun x => f x = v) l.

(** The elements with a value in [vs], value by value. *)
Definition bucketsOn {A} (f : A -> nat) (vs : list nat) (l : list A) : list A :=
  concat ((fun v => ofPriority f v l) <$> vs).

(** The groups of [issues] under the names [names]. *)
Definition groupsOf (names : list string) (issues : list Issue) : Rec (list Issue) :=
  (fun n => (n, withStatus n issues)) <$> names.

(** Three issues in progress, one to do and one in a status of its own. *)
Definition statusIssue (k : Key) (statusName priorityName : string) : Issue :=
  {| key := k;
     fields := {| summary := Some k;
                  status := Some {| st_name := Some statusName; st_category := None |};
                  priority := if truthy priorityName then Some priorityName else None;
                  issuetype := None |};
     customfield_10102 := ELNone; issuelinks := [] |}.

Definition myIssues : list Issue :=
  [ statusIssue "M-1" "В работе" "Low";
    statusIssue "M-2" "Waiting" "";
    statusIssue "M-3" "Сделать" "High";
    statusIssue "M-4" "В работе" "Блокер";
    statusIssue "M-5" "В работе" "" ].

Definition mySearch (jql : string) (maxResults : nat) (fieldNames : list string)
  : Result SearchResponse :=
  Ok {| sr_issues := myIssues; sr_total := 5 |}.

(** ** [getIssueLinks]

    The links of one issue, sorted into categories by the type of the
    link.  The summary of an embedded epic is display text and is left
    out. *)

Inductive Direction := Inward | Outward.

(** One entry of a category: [linkInfo]. *)
Record LinkInfo := {
  info_key : Key;
  info_type : string;
  info_direction : Direction;
  info_description : string;
  info_fields : option DisplayFields;
}.

Record LinkLists := {
  coversLinks : list LinkInfo;
  parentChildLinks : list LinkInfo;
  otherLinks : list LinkInfo;
}.

Record IssueLinksOutput := {
  il_summary : option string;
  il_status : Status;
  il_epicLinks : list (option Key);
  il_links : LinkLists;
  il_noLinks : bool;              (* the line "No links found" *)
}.

(** [typeof epicLink === 'string' ? epicLink : epicLink.key], possibly
    [undefined]. *)
Definition epicLinkKey (e : EpicLink) : option Key :=
  match e with
  | ELString s => Some s
  | ELObject o_key _ _ => o_key
  | _ => None
  end.

(** The [catch]: every error is rethrown wrapped. *)
Definition linksFailed (e : ApiError) : Result IssueLinksOutput :=
  Err {| statusCode := None;
         message := "Failed to retrieve issue links: " +:+ message e |}.

Section GetIssueLinks.

Variable toLowerCase : string -> string.
Variable getIssue : Key -> Result Issue.

Definition linkInfo (direction : Direction) (linkType : LinkType) (relatedIssue : LinkedIssue)
  : LinkInfo :=
  {| info_key := li_key relatedIssue;
     info_type := if truthy (lt_name linkType) then lt_name linkType else "Unknown";
     info_direction := direction;
     info_description :=
       toLowerCase (match direction with
                    | Inward => lt_inward linkType
                    | Outward => lt_outward linkType
                    end);
     info_fields := li_fields relatedIssue |}.

(** The [if / else if / else] that files one entry. *)
Definition pushLinkInfo (linkType : LinkType) (info : LinkInfo) (lists : LinkLists)
  : LinkLists :=
  if isRequirementLink toLowerCase linkType then
    {| coversLinks := coversLinks lists ++ [info];
       parentChildLinks := parentChildLinks lists;
       otherLinks := otherLinks lists |}
  else if isParentChildLink toLowerCase linkType then
    {| coversLinks := coversLinks lists;
       parentChildLinks := parentChildLinks lists ++ [info];
       otherLinks := otherLinks lists |}
  else
    {| coversLinks := coversLinks lists;
       parentChildLinks := parentChildLinks lists;
       otherLinks := otherLinks lists ++ [info] |}.

(** The body of the loop over the issue links. *)
Definition categorizeLink (lists : LinkLists) (link : IssueLink) : LinkLists :=
  let lists :=
    match inwardIssue link with
    | Some relatedIssue =>
        pushLinkInfo (link_type link) (linkInfo Inward (link_type link) relatedIssue) lists
    | None => lists
    end in
  match outwardIssue link with
  | Some relatedIssue =>
      pushLinkInfo (link_type link) (linkInfo Outward (link_type link) relatedIssue) lists
  | None => lists
  end.

Definition getIssueLinks (issueKey : Key) : Result IssueLinksOutput :=
  match getIssue issueKey with
  | Err e => linksFailed e
  | Ok issue =>
      let epicLink := customfield_10102 issue in
      let epicLinks := if epicLinkTruthy epicLink then [epicLinkKey epicLink] else [] in
      let lists :=
        foldl categorizeLink
          {| coversLinks := []; parentChildLinks := []; otherLinks := [] |}
          (issuelinks issue) in
      match status (fields issue) with
      | None => linksFailed statusUndefined       (* [issue.fields.status.name] *)
      | Some s =>
          Ok {| il_summary := summary (fields issue);
                il_status := s;
                il_epicLinks := epicLinks;
                il_links := lists;
                il_noLinks :=
                  (length epicLinks =? 0)%nat && (length (coversLinks lists) =? 0)%nat
                  && (length (parentChildLinks lists) =? 0)%nat
                  && (length (otherLinks lists) =? 0)%nat |}
      end
  end.

(** The entries that one link contributes: its inward end, then its
    outward end. *)
Definition linkEnds (link : IssueLink) : list LinkInfo :=
  match inwardIssue link with
  | Some relatedIssue => [linkInfo Inward (link_type link) relatedIssue]
  | None => []
  end
  ++ match outwardIssue link with
     | Some relatedIssue => [linkInfo Outward (link_type link) relatedIssue]
     | None => []
     end.

End GetIssueLinks.

(** ** [navigateHierarchy]

    The neighbours of one issue in one direction.  A record has an issue
    type exactly when [issuetype] is not [None]; an issue type has a
    name. *)

Inductive NavDirection :=
| NavEpic | NavParent | NavChildren | NavCovers | NavCoveredBy | NavSiblings.

(** One row of the table of related issues. *)
Record RelatedIssue := {
  rel_key : Key;
  rel_summary : option string;
  rel_status : option string;
  rel_priority : option string;
  rel_issuetype : option string;
}.

(** A row made from the issue embedded in a link; every member is read
    with [?.]. *)
Definition relatedOfLinked (linked : LinkedIssue) : RelatedIssue :=
  let f := default noFields (li_fields linked) in
  {| rel_key := li_key linked;
     rel_summary := summary f;
     rel_status := status f ≫= st_name;
     rel_priority := priority f;
     rel_issuetype := issuetype f |}.

(** A row made from a fetched record; [fields.status.name] and
    [fields.issuetype.name] are read without a guard, and the [TypeError]
    is caught by the [try] around the lookup: [None]. *)
Definition relatedOfFetched (issue : Issue) : option RelatedIssue :=
  match status (fields issue), issuetype (fields issue) with
  | Some s, Some t =>
      Some {| rel_key := key issue;
              rel_summary := summary (fields issue);
              rel_status := st_name s;
              rel_priority := priority (fields issue);
              rel_issuetype := Some t |}
  | _, _ => None
  end.

Record NavOutput := {
  nav_direction : NavDirection;    (* selects title and description *)
  nav_summary : option string;
  nav_related : list RelatedIssue;
}.

(** What the caller gets and the lookups sent, in their order. *)
Record NavRun := {
  nr_result : Result NavOutput;
  nr_lookups : list Key;
}.

Section NavigateHierarchy.

Variable toLowerCase : string -> string.
Variable getIssue : Key -> Result Issue.

(** The tests of the four loops over the links. *)
Definition parentOf (link : IssueLink) : option LinkedIssue :=
  if isParentChildLink toLowerCase (link_type link)
  then inwardIs toLowerCase "is child of" link else None.

Definition childOf (link : IssueLink) : option LinkedIssue :=
  if isParentChildLink toLowerCase (link_type link)
  then outwardIs toLowerCase "is parent of" link else None.

Definition coveredOf (link : IssueLink) : option LinkedIssue :=
  if isRequirementLink toLowerCase (link_type link)
  then outwardIs toLowerCase "covers" link else None.

Definition coveringOf (link : IssueLink) : option LinkedIssue :=
  if isRequirementLink toLowerCase (link_type link)
  then inwardIs toLowerCase "covered by" link else None.

(** [for (const link of issueLinks) if (...) relatedIssues.push({...})] *)
Definition relatedByLinks (test : IssueLink -> option LinkedIssue)
  (issueLinks : list IssueLink) : list RelatedIssue :=
  foldl (fun relatedIssues link =>
           match test link with
           | Some linked => relatedIssues ++ [relatedOfLinked linked]
           | None => relatedIssues
           end) [] issueLinks.

(** A lookup inside [try { ... } catch { warn }] followed by the push of
    the row. *)
Definition fetchRelatedIssue (k : Key) (acc : list RelatedIssue * list Key)
  : list RelatedIssue * list Key :=
  let '(relatedIssues, lookups) := acc in
  match getIssue k with
  | Ok fetched =>
      (match relatedOfFetched fetched with
       | Some row => relatedIssues ++ [row]
       | None => relatedIssues
       end, lookups ++ [k])
  | Err _ => (relatedIssues, lookups ++ [k])
  end.

(** The first link to a parent: [parentKey = link.inwardIssue.key; break]. *)
Definition firstParentKey (issueLinks : list IssueLink) : option Key :=
  match omap parentOf issueLinks with
  | linked :: _ => Some (li_key linked)
  | [] => None
  end.

(** The loop over the links of the parent. *)
Definition fetchSiblings (issueKey : Key) (parentLinks : list IssueLink)
  (acc : list RelatedIssue * list Key) : list RelatedIssue * list Key :=
  foldl (fun acc link =>
           match childOf link with
           | Some linked =>
               let siblingKey := li_key linked in
               if bool_decide (siblingKey ≠ issueKey)
               then fetchRelatedIssue siblingKey acc else acc
           | None => acc
           end) acc parentLinks.

Definition navigateFailed (e : ApiError) : Result NavOutput :=
  Err {| statusCode := None;
         message := "Failed to navigate hierarchy: " +:+ message e |}.

Definition navigateHierarchy (issueKey : Key) (direction : NavDirection) : NavRun :=
  match getIssue issueKey with
  | Err e => {| nr_result := navigateFailed e; nr_lookups := [issueKey] |}
  | Ok issue =>
      let epicLink := customfield_10102 issue in
      let issueLinks := issuelinks issue in
      let '(relatedIssues, lookups) :=
        match direction with
        | NavEpic =>
            match rootedEpicKey epicLink with
            | Some epicKey => fetchRelatedIssue epicKey ([], [issueKey])
            | None => ([], [issueKey])
            end
        | NavParent => (relatedByLinks parentOf issueLinks, [issueKey])
        | NavChildren => (relatedByLinks childOf issueLinks, [issueKey])
        | NavCovers => (relatedByLinks coveredOf issueLinks, [issueKey])
        | NavCoveredBy => (relatedByLinks coveringOf issueLinks, [issueKey])
        | NavSiblings =>
            match firstParentKey issueLinks with
            | Some parentKey =>
                if truthy parentKey then
                  match getIssue parentKey with
                  | Ok parentIssue =>
                      fetchSiblings issueKey (issuelinks parentIssue)
                        ([], [issueKey; parentKey])
                  | Err _ => ([], [issueKey; parentKey])
                  end
                else ([], [issueKey])
            | None => ([], [issueKey])
            end
        end in
      {| nr_result := Ok {| nav_direction := direction;
                            nav_summary := summary (fields issue);
                            nav_related := relatedIssues |};
         nr_lookups := lookups |}
  end.

End NavigateHierarchy.

(** The entries of the links whose type satisfies [p], link by link. *)
Definition endsWhere (toLowerCase : string -> string) (p : LinkType -> bool)
  (links : list IssueLink) : list LinkInfo :=
  concat ((fun link => if p (link_type link) then linkEnds toLowerCase link else [])
            <$> links).

(** A link of requirement type to R-1, a parent-child link from P-1 and
    to C-1, and a link of another type to O-1. *)
Definition relatesType : LinkType :=
  {| lt_id := "10000"; lt_name := "Relates";
     lt_inward := "relates to"; lt_outward := "relates to" |}.

Definition linked (k : Key) : LinkedIssue := {| li_key := k; li_fields := None |}.

Definition mixedLinks : list IssueLink :=
  [ {| link_type := relatesType; inwardIssue := None; outwardIssue := Some (linked "O-1") |};
    {| link_type := parentChildType; inwardIssue := Some (linked "P-1");
       outwardIssue := None |};
    {| link_type := requirementType; inwardIssue := None;
       outwardIssue := Some (linked "R-1") |};
    {| link_type := parentChildType; inwardIssue := None;
       outwardIssue := Some (linked "C-1") |} ].

Definition linkedIssue : Issue :=
  {| key := "L-1";
     fields := {| summary := Some "L-1";
                  status := Some {| st_name := Some "Backlog"; st_category := None |};
                  priority := None; issuetype := Some "Task" |};
     customfield_10102 := ELNone; issuelinks := mixedLinks |}.

Definition linkedLookup (k : Key) : Result Issue :=
  if String.eqb k "L-1" then Ok linkedIssue else Err notFound.

(** The keys looked up as siblings: the children named by the links of
    the parent, without the issue itself. *)
Definition siblingKeys (toLowerCase : string -> string) (issueKey : Key)
  (parentLinks : list IssueLink) : list Key :=
  filter (fun k => k ≠ issueKey) (li_key <$> omap (childOf toLowerCase) parentLinks).

(** The row that the lookup of [k] contributes, if any. *)
Definition fetchedRow (getIssue : Key -> Result Issue) (k : Key) : option RelatedIssue :=
  match getIssue k with
  | Ok fetched => relatedOfFetched fetched
  | Err _ => None
  end.

(** No Coverage and no Containment edge of [st] is missing in [st']. *)
Definition edgesKept (st st' : FetchState) : Prop :=
  (∀ p c, c ∈ lookupList (fs_parentMap st) p → c ∈ lookupList (fs_parentMap st') p)
  ∧ (∀ p c, c ∈ lookupList (fs_coversMap st) p → c ∈ lookupList (fs_coversMap st') p).

(** P-1 is parent of S-1, S-2, S-3 and S-4; S-3 cannot be fetched and the
    record of S-4 has no status. *)
Definition isChildOf (k : Key) : IssueLink :=
  {| link_type := parentChildType; inwardIssue := Some (linked k); outwardIssue := None |}.

Definition siblingLookup (k : Key) : Result Issue :=
  if String.eqb k "S-1" then
    Ok {| key := "S-1"; fields := fields linkedIssue; customfield_10102 := ELNone;
          issuelinks := [isChildOf "P-1"; isChildOf "P-2"] |}
  else if String.eqb k "P-1" then
    Ok {| key := "P-1"; fields := fields linkedIssue; customfield_10102 := ELNone;
          issuelinks := [isParentOf "S-1"; isParentOf "S-2"; isParentOf "S-3";
                         isParentOf "S-4"] |}
  else if String.eqb k "S-2" then
    Ok {| key := "S-2"; fields := fields linkedIssue; customfield_10102 := ELNone;
          issuelinks := [] |}
  else if String.eqb k "S-4" then Ok (task "S-4" ELNone [])
  else Err notFound.

(** The answer of a navigation that did not fail. *)
Definition nr_result_ok (run : NavRun) : option NavOutput :=
  match nr_result run with
  | Ok out => Some out
  | Err _ => None
  end.

(** ** The body of [completeIssue]

    The part of [completeIssue] from "Get issue details first" to its
    end.  The tracker answers may differ from one request to the next, so
    the API client is a state machine: every request takes the state of
    the server and returns the next one.  The pauses between the requests
    are part of that state.  The resolution generator is the collaborator
    [this.resolutionGenerator]. *)

(** [fields.status]: its [name] and [statusCategory?.key]. *)
Record StatusInfo := { sn_name : option string; sn_categoryKey : option string }.

(** The record that [completeIssue] fetches; everything but the status is
    read by the resolution generator and the answer text only. *)
Record CompletionIssue := {
  ci_summary : option string;
  ci_description : option string;
  ci_issuetype : option string;
  ci_status : option StatusInfo;
  ci_assignee : option string;
  ci_components : option (list string);
  ci_labels : option (list string);
}.

(** [transition.fields?.resolution], with the names of its allowed values. *)
Record ResolutionField := {
  rf_required : bool;
  rf_allowedValues : option (list string);
}.

Record CTransition := {
  ct_id : string;
  ct_name : string;
  ct_toName : string;
  ct_toCategoryKey : option string;
  ct_resolution : option ResolutionField;
}.

(** The answer of [getIssueTransitions]: its member [transitions]. *)
Definition TransitionsResponse := option (list CTransition).

Record CompleteDone := {
  cd_issueKey : Key;
  cd_previousStatus : option string;
  cd_updatedStatus : option string;
  cd_newStatus : string;
  cd_resolution : option string;
  cd_comment : string;
  cd_throughClosed : bool;        (* the answer with "Workflow Path" *)
}.

Definition ALLOWED_STATUSES_FOR_COMPLETION : list string :=
  ["Сделать"; "Переоткрыт"; "Backlog"; "В работе"; "For test";
   "Тестирование в процессе"; "Under Review"].

Definition closingComment : string := "Перевожу в Закрыт для правильного workflow".

Definition findUndefined : ApiError :=
  {| statusCode := None;
     message := "Cannot read properties of undefined (reading 'find')" |}.

(** ["Cannot complete issue from status ..."] *)
Definition cannotComplete (updatedStatus : option string) : ApiError :=
  {| statusCode := None;
     message := "Cannot complete issue from status " +:+ dquote
                +:+ default "undefined" updatedStatus +:+ dquote
                +:+ ". Allowed statuses: " +:+ join ", " ALLOWED_STATUSES_FOR_COMPLETION
                +:+ ", or Закрыт" |}.

Definition noDoneTransition (transitions : list CTransition) : ApiError :=
  {| statusCode := None;
     message := "No transition to " +:+ dquote +:+ "Готово" +:+ dquote
                +:+ " status found. Available transitions: "
                +:+ join ", " ((fun t => ct_name t +:+ " → " +:+ ct_toName t)
                                 <$> transitions) |}.

(** [transitions.find(t => t.to.name === name)] *)
Definition findTo (name : string) (transitions : list CTransition) : option CTransition :=
  snd <$> list_find (fun t => ct_toName t = name) transitions.

(** [transitions.find(t => t.to.statusCategory?.key === 'done')] *)
Definition findDoneCategory (transitions : list CTransition) : option CTransition :=
  snd <$> list_find (fun t => ct_toCategoryKey t = Some "done") transitions.

(** The resolution sent with the transition to "Закрыт": the first
    allowed value, if there is one. *)
Definition closeResolutionOf (t : CTransition) : option string :=
  match ct_resolution t ≫= rf_allowedValues with
  | Some (first :: _) => Some first
  | _ => None
  end.

Section CompleteBody.

Variable toLowerCase : string -> string.

Variable Server : Type.
Variable apiGetIssue : Key -> Server -> Result CompletionIssue * Server.
Variable apiGetIssueTransitions : Key -> Server -> Result TransitionsResponse * Server.
Variable apiTransitionIssue :
  Key -> string -> string -> option string -> Server -> Result unit * Server.
Variable generateResolution : CompletionIssue -> Result string.

(** A computation of the service: it may throw, changes the state of the
    server and appends to the trace of requests. *)
Definition Client (A : Type) : Type :=
  Server -> list ApiCall -> Result A * Server * list ApiCall.

Definition ret {A} (a : A) : Client A := fun s calls => (Ok a, s, calls).

Definition throw {A} (e : ApiError) : Client A := fun s calls => (Err e, s, calls).

Definition bind {A B} (m : Client A) (k : A -> Client B) : Client B :=
  fun s calls =>
    match m s calls with
    | (Ok a, s', calls') => k a s' calls'
    | (Err e, s', calls') => (Err e, s', calls')
    end.

Definition request {A} (call : ApiCall) (answer : Server -> Result A * Server) : Client A :=
  fun s calls => let '(r, s') := answer s in (r, s', calls ++ [call]).

Definition getIssueC (k : Key) : Client CompletionIssue :=
  request (CallGetIssue k) (apiGetIssue k).

Definition getIssueTransitionsC (k : Key) : Client TransitionsResponse :=
  request (CallGetIssueTransitions k) (apiGetIssueTransitions k).

Definition transitionIssueC (k : Key) (transitionId comment : string)
  (resolution : option string) : Client unit :=
  request (CallTransitionIssue k transitionId comment)
    (apiTransitionIssue k transitionId comment resolution).

(** [issue.fields.status]: reading a member of it throws when it is
    undefined. *)
Definition statusOf (issue : CompletionIssue) : Client StatusInfo :=
  match ci_status issue with
  | Some s => ret s
  | None => throw statusUndefined
  end.

(** [response.transitions.find(...)], without [|| []]. *)
Definition transitionsOf (response : TransitionsResponse) : Client (list CTransition) :=
  match response with
  | Some transitions => ret transitions
  | None => throw findUndefined
  end.

(** [allowedValues.find(r => r.name === 'Готово' || r.name.toLowerCase() === 'готово')] *)
Definition findReady (allowedValues : list string) : option string :=
  snd <$> list_find (fun name => name = "Готово" ∨ toLowerCase name = "готово")
            allowedValues.

(** The resolution sent with a transition to "Готово": only when the
    field is required or has allowed values. *)
Definition readyResolutionOf (t : CTransition) : option string :=
  match ct_resolution t with
  | Some field =>
      let allowedValues := default [] (rf_allowedValues field) in
      if rf_required field || (0 <? length allowedValues)%nat then
        match findReady allowedValues with
        | Some name => Some name
        | None =>
            match allowedValues with
            | first :: _ => Some (if truthy first then first else "Готово")
            | [] => Some "Готово"
            end
        end
      else None
  | None => None
  end.

(** The resolution sent with a transition into the Done category. *)
Definition doneCategoryResolutionOf (t : CTransition) : option string :=
  match ct_resolution t ≫= rf_allowedValues with
  | Some (first :: rest) =>
      match findReady (first :: rest) with
      | Some name => Some name
      | None => Some first
      end
  | _ => Some "Готово"
  end.

(** [params.customResolution || await generateResolution(issue)] *)
Definition resolutionTextOf (params : CompleteParams) (issue : CompletionIssue)
  : Client string :=
  if truthy (cp_customResolution params) then ret (cp_customResolution params)
  else match generateResolution issue with
       | Ok text => ret text
       | Err e => throw e
       end.

(** "Handle special case": an issue in "Canceled" goes through "Закрыт". *)
Definition leaveCanceled (issueKey : Key) (status : StatusInfo) : Client unit :=
  if bool_decide (sn_name status = Some "Canceled")
     && bool_decide (sn_categoryKey status = Some "done")
  then
    bind (getIssueTransitionsC issueKey) (fun transitions1 =>
    bind (transitionsOf transitions1) (fun transitions =>
    match findTo "Закрыт" transitions with
    | Some closeTransition =>
        transitionIssueC issueKey (ct_id closeTransition) closingComment
          (closeResolutionOf closeTransition)
    | None => ret tt
    end))
  else ret tt.

(** "If we transitioned to Canceled": on to "Закрыт" and then to
    "Готово"; [None] when one of the two transitions is not offered. *)
Definition throughClosed (issueKey : Key) (resolutionText : string)
  : Client (option (option string)) :=
  bind (getIssueTransitionsC issueKey) (fun transitionsAfterCanceled =>
  bind (transitionsOf transitionsAfterCanceled) (fun transitions =>
  match findTo "Закрыт" transitions with
  | Some closeTransition =>
      bind (transitionIssueC issueKey (ct_id closeTransition) closingComment
              (closeResolutionOf closeTransition)) (fun _ =>
      bind (getIssueTransitionsC issueKey) (fun transitionsAfterClosed =>
      bind (transitionsOf transitionsAfterClosed) (fun transitions =>
      match findTo "Готово" transitions with
      | Some readyTransition =>
          let readyResolution := readyResolutionOf readyTransition in
          bind (transitionIssueC issueKey (ct_id readyTransition) resolutionText
                  readyResolution) (fun _ =>
          ret (Some readyResolution))
      | None => ret None
      end)))
  | None => ret None
  end)).

(** What follows the first lookup. *)
Definition completeFetchedC (issueKey : Key) (params : CompleteParams)
  (issue : CompletionIssue) : Client CompleteDone :=
  bind (statusOf issue) (fun status =>
  let currentStatus := sn_name status in
  bind (leaveCanceled issueKey status) (fun _ =>
  bind (getIssueC issueKey) (fun updatedIssue =>
  bind (statusOf updatedIssue) (fun updated =>
  let updatedStatus := sn_name updated in
  let allowed :=
    match updatedStatus with
    | Some name =>
        bool_decide (name ∈ ALLOWED_STATUSES_FOR_COMPLETION) || String.eqb name "Закрыт"
    | None => false
    end in
  if negb allowed then throw (cannotComplete updatedStatus)
  else
    bind (getIssueTransitionsC issueKey) (fun transitionsResponse =>
    let transitions := default [] transitionsResponse in
    match findTo "Готово" transitions with
    | None =>
        match findDoneCategory transitions with
        | None => throw (noDoneTransition transitions)
        | Some doneCategoryTransition =>
            bind (resolutionTextOf params issue) (fun resolutionText =>
            let resolution := doneCategoryResolutionOf doneCategoryTransition in
            bind (transitionIssueC issueKey (ct_id doneCategoryTransition) resolutionText
                    resolution) (fun _ =>
            bind (if String.eqb (ct_toName doneCategoryTransition) "Canceled"
                  then throughClosed issueKey resolutionText
                  else ret None) (fun finished =>
            match finished with
            | Some readyResolution =>
                ret {| cd_issueKey := issueKey;
                       cd_previousStatus := currentStatus;
                       cd_updatedStatus := updatedStatus;
                       cd_newStatus := "Готово";
                       cd_resolution := readyResolution;
                       cd_comment := resolutionText;
                       cd_throughClosed := true |}
            | None =>
                ret {| cd_issueKey := issueKey;
                       cd_previousStatus := currentStatus;
                       cd_updatedStatus := updatedStatus;
                       cd_newStatus := ct_toName doneCategoryTransition;
                       cd_resolution := resolution;
                       cd_comment := resolutionText;
                       cd_throughClosed := false |}
            end)))
        end
    | Some doneTransition =>
        bind (resolutionTextOf params issue) (fun resolutionText =>
        let resolution := readyResolutionOf doneTransition in
        bind (transitionIssueC issueKey (ct_id doneTransition) resolutionText resolution)
          (fun _ =>
        ret {| cd_issueKey := issueKey;
               cd_previousStatus := currentStatus;
               cd_updatedStatus := updatedStatus;
               cd_newStatus := ct_toName doneTransition;
               cd_resolution := resolution;
               cd_comment := resolutionText;
               cd_throughClosed := false |}))
    end))))).

Definition completeKnownIssueC (issueKey : Key) (params : CompleteParams)
  : Client CompleteDone :=
  bind (getIssueC issueKey) (completeFetchedC issueKey params).

(** The body run against a server in the state [server]. *)
Definition completeKnownIssue (server : Server) (issueKey : Key) (params : CompleteParams)
  : Run CompleteDone :=
  let '(result, _, calls) := completeKnownIssueC issueKey params server [] in
  {| run_result := result; run_calls := calls |}.

End CompleteBody.

(** The issue that a request concerns. *)
Definition callKey (c : ApiCall) : Key :=
  match c with
  | CallGetIssue k | CallGetIssueTransitions k
  | CallTransitionIssue k _ _ | CallAddComment k _ => k
  end.

(** [clientSpec m Φ]: from every state of the server and every trace, [m]
    only appends requests to the trace, and the appended requests and the
    result satisfy [Φ]. *)
Definition clientSpec {Server A} (m : Client Server A)
  (Φ : list ApiCall -> Result A -> Prop) : Prop :=
  ∀ s calls, ∃ new, (m s calls).2 = calls ++ new ∧ Φ new (m s calls).1.1.

(** A tracker in which RIVER-7 is in review; it offers a transition into
    the Done category and one to "Готово", and accepts every transition.
    The state of the server is the number of requests it has answered. *)
Definition reviewedIssue (statusName : string) : CompletionIssue :=
  {| ci_summary := Some "RIVER-7"; ci_description := None; ci_issuetype := Some "Task";
     ci_status := Some {| sn_name := Some statusName; sn_categoryKey := Some "indeterminate" |};
     ci_assignee := None; ci_components := Some []; ci_labels := Some [] |}.

Definition offeredTransitions : list CTransition :=
  [ {| ct_id := "41"; ct_name := "Reject"; ct_toName := "Rejected";
       ct_toCategoryKey := Some "done"; ct_resolution := None |};
    {| ct_id := "51"; ct_name := "Finish"; ct_toName := "Готово";
       ct_toCategoryKey := Some "done";
       ct_resolution := Some {| rf_required := true;
                                rf_allowedValues := Some ["Fixed"; "Готово"] |} |} ].

Definition trackerGetIssue (statusName : string) (k : Key) (served : nat)
  : Result CompletionIssue * nat :=
  (Ok (reviewedIssue statusName), S served).

Definition trackerGetTransitions (k : Key) (served : nat) : Result TransitionsResponse * nat :=
  (Ok (Some offeredTransitions), S served).

Definition trackerTransition (k : Key) (transitionId comment : string)
  (resolution : option string) (served : nat) : Result unit * nat :=
  (Ok tt, S served).

Definition templateResolution (issue : CompletionIssue) : Result string :=
  Ok ("Задача выполнена: " +:+ default "" (ci_summary issue)).

Definition completeRiver7 (customResolution : string) : CompleteParams :=
  {| cp_issueKey := "RIVER-7"; cp_customResolution := customResolution; cp_confirm := false |}.

(** The requests [new] concern the issue [k] only; at most [transitions]
    of them are transition requests and there are at most [total]. *)
Definition requestsWithin (k : Key) (transitions total : nat) (new : list ApiCall) : Prop :=
  Forall (fun c => callKey c = k) new
  ∧ length (filter (fun c => isTransitionCall c = true) new) ≤ transitions
  ∧ length new ≤ total.

(** What a successful completion of [k] reports: the issue, a status
    before the final transitions from which completion is allowed, a
    comment that is the custom resolution when there is one and a text of
    the generator otherwise. *)
Definition completionReport (generateResolution : CompletionIssue -> Result string)
  (k : Key) (params : CompleteParams) (done : CompleteDone) : Prop :=
  cd_issueKey done = k
  ∧ (∃ name, cd_updatedStatus done = Some name
             ∧ (name ∈ ALLOWED_STATUSES_FOR_COMPLETION ∨ name = "Закрыт"))
  ∧ (if truthy (cp_customResolution params)
     then cd_comment done = cp_customResolution params
     else ∃ issue, generateResolution issue = Ok (cd_comment done)).

(** The top-level folders of an epic of the graph. *)
Definition epicFoldersOf (g : Graph) (issueToFolderMap : Rec (list string)) (epicKey : Key)
  : list string :=
  epicFolders issueToFolderMap epicKey (default [] (rget epicKey (g_epicMap g))).

(** T-1 lies in the folder "Release 1" and E-2 in "Release 2 → Backend". *)
Definition releaseFolders : Rec (list string) :=
  [("T-1", ["Release 1"]); ("E-2", ["Release 2 → Backend"])].

(** [m], rendered after the nodes [front], is a child of the nearest node
    before it that lies one level higher. *)
Definition childOfNearest (coversMap parentMap : gmap Key (list Key))
  (front : list RenderedNode) (m : RenderedNode) : Prop :=
  ∃ f1 p f2,
    front = f1 ++ p :: f2
    ∧ rn_level m = S (rn_level p)
    ∧ rn_key m ∈ allChildren coversMap parentMap (rn_key p)
    ∧ Forall (fun x => rn_level p < rn_level x) f2.

(** Every node but the first hangs under the nearest node one level
    higher. *)
Definition treeShaped (coversMap parentMap : gmap Key (list Key))
  (lines : list RenderedNode) : Prop :=
  ∀ front m back, lines = front ++ m :: back → front ≠ [] →
                  childOfNearest coversMap parentMap front m.

(** An issue that the folder overlay may mention: an element of the
    structure with a parent names it, and the build knows it as an issue
    with a record or as an epic of the dictionary. *)
Definition folderedKey (elements : list Element) (issueMap : Rec Issue)
  (allEpicKeysInMap : list Key) (k : Key) : Prop :=
  truthy k = true
  ∧ (is_Some (rget k issueMap) ∨ k ∈ allEpicKeysInMap)
  ∧ ∃ e, e ∈ elements ∧ el_issueKey e = k ∧ truthy (el_parentId e) = true.

Definition overlayInv (elements : list Element) (issueMap : Rec Issue)
  (allEpicKeysInMap : list Key) (ov : Overlay) : Prop :=
  ov_structureErrors ov = []
  ∧ (∀ k, k ∈ rkeys (ov_issueToFolderMap ov) →
          folderedKey elements issueMap allEpicKeysInMap k)
  ∧ (∀ k paths, rget k (ov_issueToFolderMap ov) = Some paths → NoDup paths ∧ paths ≠ []).

(** The folder "Release 1" with the issue T-1 in it, and an issue that the
    build does not know. *)
Definition releaseElements : list Element :=
  [ {| el_id := "10"; el_name := "Release 1"; el_summary := ""; el_parentId := "";
       el_issueKey := ""; el_type := "folder"; el_folder := true; el_elementType := "" |};
    {| el_id := "11"; el_name := ""; el_summary := ""; el_parentId := "10";
       el_issueKey := "T-1"; el_type := "issue"; el_folder := false; el_elementType := "" |};
    {| el_id := "12"; el_name := ""; el_summary := ""; el_parentId := "10";
       el_issueKey := "Z-9"; el_type := "issue"; el_folder := false; el_elementType := "" |} ].
(** * Properties *)

(** ** Strings *)

Example includes_phrase : includes "is covered by" "covered by" = true.
Proof. reflexivity. Qed.

Example includes_absent : includes "relates to" "covers" = false.
Proof. reflexivity. Qed.

Example firstSegment_path : firstSegment " → " "Platform → Billing" = "Platform".
Proof. reflexivity. Qed.

Example sortStrings_names : sortStrings ["beta"; "alpha"; "gamma"] = ["alpha"; "beta"; "gamma"].
Proof. reflexivity. Qed.

Example arrayFromSet_order : arrayFromSet ["b"; "a"; "b"; "c"; "a"] = ["b"; "a"; "c"].
Proof. reflexivity. Qed.

(** ** Enumerable sets *)

Lemma elem_of_setAdd x y s : x ∈ setAdd y s ↔ x = y ∨ x ∈ s.
Proof.
  unfold setAdd. case_bool_decide as Hy.
  - split; [by right | intros [->|]; done].
  - rewrite elem_of_app, list_elem_of_singleton. tauto.
Qed.

Lemma NoDup_setAdd y s : NoDup s → NoDup (setAdd y s).
Proof.
  intros Hs. unfold setAdd. case_bool_decide as Hy; [done|].
  apply NoDup_app. split_and!; [done | | apply NoDup_singleton].
  intros x Hx ->%list_elem_of_singleton. done.
Qed.

Lemma foldl_setAdd acc xs :
  foldl (fun s x => setAdd x s) acc xs = acc ++ firstOccurrences acc xs.
Proof.
  revert acc. induction xs as [|x xs IH]; intros acc; simpl.
  - by rewrite app_nil_r.
  - rewrite IH. unfold setAdd. case_bool_decide; [done|].
    by rewrite <- app_assoc.
Qed.

Lemma elem_of_foldl_setAdd acc xs x :
  x ∈ foldl (fun s x => setAdd x s) acc xs ↔ x ∈ acc ∨ x ∈ xs.
Proof.
  revert acc. induction xs as [|y xs IH]; intros acc; simpl.
  - rewrite elem_of_nil. tauto.
  - rewrite IH, elem_of_setAdd, elem_of_cons. tauto.
Qed.

Lemma NoDup_foldl_setAdd acc xs :
  NoDup acc → NoDup (foldl (fun s x => setAdd x s) acc xs).
Proof.
  revert acc. induction xs as [|y xs IH]; intros acc Hacc; simpl; [done|].
  by apply IH, NoDup_setAdd.
Qed.

Lemma elem_of_arrayFromSet xs x : x ∈ arrayFromSet xs ↔ x ∈ xs.
Proof.
  unfold arrayFromSet. rewrite elem_of_foldl_setAdd, elem_of_nil. tauto.
Qed.

Lemma NoDup_arrayFromSet xs : NoDup (arrayFromSet xs).
Proof. apply NoDup_foldl_setAdd, NoDup_nil_2. Qed.

Lemma firstOccurrences_NoDup_disjoint seen xs :
  NoDup xs → (∀ x, x ∈ xs → x ∉ seen) → firstOccurrences seen xs = xs.
Proof.
  revert seen. induction xs as [|x xs IH]; intros seen Hnd Hdisj; simpl; [done|].
  apply NoDup_cons in Hnd as [Hx Hnd].
  rewrite bool_decide_eq_false_2 by (apply Hdisj; left).
  f_equal. apply IH; [done|].
  intros y Hy [Hin| ->%list_elem_of_singleton]%elem_of_app; [|done].
  eapply Hdisj; [right|]; done.
Qed.

Lemma firstOccurrences_filter seen xs :
  firstOccurrences seen xs
  = firstOccurrences [] (filter (fun x => x ∉ seen) xs).
Proof.
  assert (∀ pre, firstOccurrences (seen ++ pre) xs
    = firstOccurrences pre (filter (fun x => x ∉ seen) xs)) as H.
  { induction xs as [|x xs IH]; intros pre; simpl; [done|].
    rewrite filter_cons. destruct (decide (x ∉ seen)) as [Hn|Hn]; simpl.
    - case_bool_decide as H1; case_bool_decide as H2.
      + apply IH.
      + exfalso. apply elem_of_app in H1 as [|]; done.
      + exfalso. apply H1, elem_of_app. by right.
      + f_equal. rewrite <- app_assoc. apply IH.
    - rewrite bool_decide_eq_true_2; [apply IH|].
      apply elem_of_app. left. by apply dec_stable. }
  specialize (H []). by rewrite app_nil_r in H.
Qed.

(** ** The tree walk *)

Section TreeRendererFacts.

Variable issueMap : Rec Issue.
Variables coversMap parentMap : gmap Key (list Key).

#[local] Abbreviation walk := (buildTreeLines issueMap coversMap parentMap).
#[local] Abbreviation Inv := (walkInv issueMap).

Lemma walkInv_refl v : Inv v [] v.
Proof.
  split_and!; [done | apply NoDup_nil_2 |].
  intros k. unfold renderedKeys. simpl. rewrite elem_of_nil. tauto.
Qed.

Lemma walkInv_trans v1 l1 v2 l2 v3 :
  Inv v1 l1 v2 → Inv v2 l2 v3 → Inv v1 (l1 ++ l2) v3.
Proof.
  intros (Hs1 & Hn1 & Hk1) (Hs2 & Hn2 & Hk2).
  split_and!; [set_solver | |].
  - unfold renderedKeys. rewrite fmap_app. apply NoDup_app. split_and!; [done| |done].
    intros k H1%Hk1 H2%Hk2. set_solver.
  - intros k. unfold renderedKeys in *. rewrite fmap_app, elem_of_app, Hk1, Hk2.
    split; [intros [?|?]; set_solver|].
    intros (H3 & Hn & Hs). destruct (decide (k ∈ v2)); [left|right]; done.
Qed.

(** The loop over the children, for any recursive call that keeps the
    invariant and marks the key it is given. *)
Lemma forEachChild_inv rec cs :
  ∀ i n lines v lines' v',
  (∀ c l w r, c ∈ cs → rec c l w = Some r → Inv w r.1 r.2 ∧ c ∈ r.2) →
  forEachChild rec cs i n lines v = Some (lines', v') →
  ∃ new, lines' = lines ++ new ∧ Inv v new v' ∧ ∀ c, c ∈ cs → c ∈ v'.
Proof.
  induction cs as [|c cs IH]; intros i n lines v lines' v' Hrec Hrun; simpl in Hrun.
  - injection Hrun as <- <-. exists []. rewrite app_nil_r.
    split_and!; [done | apply walkInv_refl | by intros c ?%elem_of_nil].
  - destruct (rec c (i =? n - 1)%nat v) as [[childLines w]|] eqn:Hc; [|done].
    destruct (Hrec _ _ _ _ ltac:(left) Hc) as [Hinv Hmark]. simpl in *.
    apply IH in Hrun as (new & -> & Hinv' & Hall).
    2: { intros ? ? ? ? ?. apply Hrec. by right. }
    exists (childLines ++ new). rewrite app_assoc.
    split_and!; [done | by eapply walkInv_trans |].
    intros c' [->|?]%elem_of_cons; [|by apply Hall].
    destruct Hinv' as [Hsub _]. set_solver.
Qed.

Lemma buildTreeLines_inv fuel :
  ∀ issueKey level prefix isLast visited lines visited',
  walk fuel issueKey level prefix isLast visited = Some (lines, visited') →
  Inv visited lines visited' ∧ issueKey ∈ visited'.
Proof.
  induction fuel as [|fuel IH]; intros issueKey level prefix isLast visited
    lines visited' Hrun; simpl in Hrun; [done|].
  case_bool_decide as Hvis.
  { injection Hrun as <- <-. split; [apply walkInv_refl | done]. }
  destruct (rget issueKey issueMap) as [issue|] eqn:Hissue.
  2: { injection Hrun as <- <-. split; [|set_solver].
       split_and!; [set_solver | apply NoDup_nil_2 |].
       intros k. unfold renderedKeys. simpl. rewrite elem_of_nil.
       split; [done|]. intros (Hin & Hout & Hsome).
       assert (k = issueKey) as -> by set_solver.
       rewrite Hissue in Hsome. by destruct Hsome. }
  apply forEachChild_inv in Hrun as (new & -> & (Hsub & Hnd & Hkeys) & Hall).
  2: { intros c l w [r1 r2] _ Hr. by apply IH in Hr. }
  split; [|set_solver].
  split_and!; [set_solver | |].
  - unfold renderedKeys in *. simpl. apply NoDup_cons. split; [|done].
    intros Hin%Hkeys. set_solver.
  - intros k. unfold renderedKeys in *. simpl. rewrite elem_of_cons, Hkeys.
    split.
    + intros [->|(? & ? & ?)]; [|set_solver].
      split_and!; [set_solver | done | by rewrite Hissue].
    + intros (Hin & Hout & Hsome). destruct (decide (k = issueKey)); [by left|].
      right. set_solver.
Qed.

Lemma elem_of_lookupList (m : gmap Key (list Key)) k c :
  c ∈ lookupList m k → ∃ l, m !! k = Some l ∧ c ∈ l.
Proof.
  unfold lookupList. destruct (m !! k) as [l|]; simpl; [eauto|].
  by intros ?%elem_of_nil.
Qed.

Lemma elem_of_valueKeys (m : gmap Key (list Key)) k l c :
  m !! k = Some l → c ∈ l →
  c ∈ ⋃ ((fun kv : Key * list Key => list_to_set kv.2) <$> map_to_list m : list (gset Key)).
Proof.
  intros Hm Hc. apply elem_of_union_list. exists (list_to_set l). split.
  - apply list_elem_of_fmap. exists (k, l). split; [done|].
    by apply elem_of_map_to_list.
  - by apply elem_of_list_to_set.
Qed.

Lemma allChildren_childKeys k c :
  c ∈ allChildren coversMap parentMap k → c ∈ childKeys coversMap parentMap.
Proof.
  unfold allChildren, childKeys. rewrite elem_of_arrayFromSet, elem_of_app.
  intros [(l & Hl & Hc)%elem_of_lookupList | (l & Hl & Hc)%elem_of_lookupList];
    apply elem_of_union; [left|right]; by eapply elem_of_valueKeys.
Qed.

Lemma forEachChild_total rec cs (P : gset Key → Prop) :
  (∀ v v', P v → v ⊆ v' → P v') →
  (∀ c l w, c ∈ cs → P w → ∃ r, rec c l w = Some r ∧ w ⊆ r.2) →
  ∀ i n lines v, P v → is_Some (forEachChild rec cs i n lines v).
Proof.
  intros Hmono. induction cs as [|c cs IH]; intros Hrec i n lines v Hv; simpl; [done|].
  destruct (Hrec c (i =? n - 1)%nat v ltac:(left) Hv) as ([childLines w] & -> & Hsub).
  simpl in Hsub. apply IH; [|by eapply Hmono].
  intros ? ? ? ?. apply Hrec. by right.
Qed.

Lemma buildTreeLines_total (U : gset Key) fuel :
  childKeys coversMap parentMap ⊆ U →
  ∀ issueKey level prefix isLast visited,
  issueKey ∈ U → size (U ∖ visited) < fuel →
  is_Some (walk fuel issueKey level prefix isLast visited).
Proof.
  intros HU. induction fuel as [|fuel IH];
    intros issueKey level prefix isLast visited Hin Hsize; simpl; [lia|].
  case_bool_decide as Hvis; [done|].
  destruct (rget issueKey issueMap) as [issue|]; [|done].
  apply forEachChild_total with (P := fun v => size (U ∖ v) < fuel).
  - intros v v' Hv Hsub. eapply Nat.le_lt_trans; [|exact Hv].
    apply subseteq_size. set_solver.
  - intros c l w Hc Hw.
    destruct (IH c (S level) (prefix +:+ (if isLast then "    " else "│   ")) l w)
      as [[ls w'] Hrun]; [|done|].
    { apply HU. by eapply allChildren_childKeys. }
    exists (ls, w'). split; [done|].
    apply buildTreeLines_inv in Hrun as [(Hsub & _) _]. done.
  - assert (size (U ∖ ({[issueKey]} ∪ visited)) < size (U ∖ visited)); [|lia].
    apply subset_size. set_solver.
Qed.

(** The fuel supplied by the callers suffices, whatever was visited before. *)
Lemma buildTreeLines_treeFuel issueKey level prefix isLast visited :
  ∃ lines visited',
    walk (treeFuel coversMap parentMap) issueKey level prefix isLast visited
    = Some (lines, visited').
Proof.
  destruct (buildTreeLines_total ({[issueKey]} ∪ childKeys coversMap parentMap)
    (treeFuel coversMap parentMap) ltac:(set_solver)
    issueKey level prefix isLast visited) as [[lines v'] H]; [set_solver| |by eauto].
  unfold treeFuel.
  eapply Nat.le_lt_trans; [apply subseteq_size, subseteq_difference_l; reflexivity|].
  rewrite size_union_alt, size_singleton.
  assert (size (childKeys coversMap parentMap ∖ {[issueKey]})
          ≤ size (childKeys coversMap parentMap)); [|lia].
  apply subseteq_size. set_solver.
Qed.

End TreeRendererFacts.

(** ** Children of a node *)

Lemma firstOccurrences_ext s1 s2 xs :
  (∀ x, x ∈ s1 ↔ x ∈ s2) → firstOccurrences s1 xs = firstOccurrences s2 xs.
Proof.
  revert s1 s2. induction xs as [|x xs IH]; intros s1 s2 Hext; simpl; [done|].
  rewrite (bool_decide_ext (x ∈ s1) (x ∈ s2)) by apply Hext.
  case_bool_decide; [by apply IH|]. f_equal. apply IH.
  intros y. rewrite !elem_of_app, Hext. tauto.
Qed.

Lemma elem_of_firstOccurrences seen xs x :
  x ∈ firstOccurrences seen xs ↔ x ∈ xs ∧ x ∉ seen.
Proof.
  revert seen. induction xs as [|y xs IH]; intros seen; simpl.
  - rewrite elem_of_nil. tauto.
  - case_bool_decide as Hy.
    + rewrite IH, elem_of_cons. split; [tauto|]. intros [[->|?] ?]; tauto.
    + rewrite elem_of_cons, IH, elem_of_cons, elem_of_app, list_elem_of_singleton.
      split.
      * intros [->|[? ?]]; [tauto|]. split; [tauto|]. tauto.
      * intros [[->|?] ?]; [tauto|]. destruct (decide (x = y)); tauto.
Qed.

Lemma firstOccurrences_app seen xs ys :
  firstOccurrences seen (xs ++ ys)
  = firstOccurrences seen xs ++ firstOccurrences (seen ++ xs) ys.
Proof.
  revert seen. induction xs as [|x xs IH]; intros seen; simpl.
  - by rewrite app_nil_r.
  - case_bool_decide as Hx.
    + rewrite IH. f_equal. apply firstOccurrences_ext.
      intros y. rewrite !elem_of_app, elem_of_cons.
      split; [tauto|]. intros [?|[->|?]]; tauto.
    + simpl. f_equal. rewrite IH. f_equal. by rewrite <- app_assoc.
Qed.

Lemma allChildren_firstOccurrences (coversMap parentMap : gmap Key (list Key)) k :
  allChildren coversMap parentMap k
  = firstOccurrences [] (lookupList coversMap k)
    ++ firstOccurrences (lookupList coversMap k) (lookupList parentMap k).
Proof.
  unfold allChildren, arrayFromSet. by rewrite foldl_setAdd, firstOccurrences_app.
Qed.

Lemma elem_of_allChildren (coversMap parentMap : gmap Key (list Key)) k c :
  c ∈ allChildren coversMap parentMap k
  ↔ c ∈ lookupList coversMap k ∨ c ∈ lookupList parentMap k.
Proof. unfold allChildren. by rewrite elem_of_arrayFromSet, elem_of_app. Qed.

(** C2 (as the code has it): the children of a node are the Coverage
    entries of its key followed by the Containment entries, each key kept
    at its first occurrence only; the list has no duplicates and holds
    exactly the keys of the two dictionaries.  GroupLink entries (the epic
    dictionary) are no input of the enumeration. *)
Theorem allChildren_coverage_then_containment
  (coversMap parentMap : gmap Key (list Key)) (issueKey : Key) :
  allChildren coversMap parentMap issueKey
  = firstOccurrences [] (lookupList coversMap issueKey)
    ++ firstOccurrences (lookupList coversMap issueKey) (lookupList parentMap issueKey)
  ∧ NoDup (allChildren coversMap parentMap issueKey)
  ∧ ∀ c, c ∈ allChildren coversMap parentMap issueKey
         ↔ c ∈ lookupList coversMap issueKey ∨ c ∈ lookupList parentMap issueKey.
Proof.
  split_and!.
  - apply allChildren_firstOccurrences.
  - apply NoDup_arrayFromSet.
  - apply elem_of_allChildren.
Qed.

(** C2 (counterexample): for the epic G-1, which has GroupLink edges to
    A-1 and B-1, the renderer enumerates no children at all, and for K-1
    it lists the covered issue before the contained one. *)
Lemma children_counterexample :
  rget "G-1" (g_epicMap groupedGraph) = Some ["A-1"; "B-1"]
  ∧ allChildren (g_coversMap groupedGraph) (g_parentMap groupedGraph) "G-1" = []
  ∧ specChildren (g_coversMap groupedGraph) (g_parentMap groupedGraph)
      (g_epicMap groupedGraph) "G-1" = ["A-1"; "B-1"]
  ∧ allChildren (g_coversMap groupedGraph) (g_parentMap groupedGraph) "K-1"
    = ["X-1"; "Y-1"]
  ∧ specChildren (g_coversMap groupedGraph) (g_parentMap groupedGraph)
      (g_epicMap groupedGraph) "K-1" = ["Y-1"; "X-1"].
Proof. vm_compute. done. Qed.

(** ** Cycles *)

Lemma not_rendered (lines : list RenderedNode) (k : Key) :
  k ∉ renderedKeys lines → filter (fun n => rn_key n = k) lines = [].
Proof.
  unfold renderedKeys. induction lines as [|n lines IH]; simpl; [done|].
  intros Hk. apply not_elem_of_cons in Hk as [Hne Hk].
  rewrite filter_cons. destruct (decide (rn_key n = k)); [congruence|]. by apply IH.
Qed.

Lemma rendered_exactly_once (lines : list RenderedNode) (k : Key) :
  NoDup (renderedKeys lines) → k ∈ renderedKeys lines →
  length (filter (fun n => rn_key n = k) lines) = 1.
Proof.
  unfold renderedKeys. induction lines as [|n lines IH]; simpl.
  - by intros _ ?%elem_of_nil.
  - intros [Hn Hnd]%NoDup_cons Hk. rewrite filter_cons.
    destruct (decide (rn_key n = k)) as [<-|Hne]; simpl.
    + by rewrite not_rendered.
    + apply IH; [done|]. by apply elem_of_cons in Hk as [?|?].
Qed.

Section Cycle.

Variable issueMap : Rec Issue.
Variables coversMap parentMap : gmap Key (list Key).

(** The first call on an unvisited key that has a record renders it and
    leaves every one of its children marked. *)
Lemma buildTreeLines_expands fuel issueKey level prefix isLast visited lines visited' :
  issueKey ∉ visited → is_Some (rget issueKey issueMap) →
  buildTreeLines issueMap coversMap parentMap fuel issueKey level prefix isLast visited
  = Some (lines, visited') →
  (∃ rest, renderedKeys lines = issueKey :: rest)
  ∧ ∀ c, c ∈ allChildren coversMap parentMap issueKey → c ∈ visited'.
Proof.
  intros Hvis [issue Hissue] Hrun. destruct fuel as [|fuel]; simpl in Hrun; [done|].
  rewrite bool_decide_eq_false_2, Hissue in Hrun by done.
  apply forEachChild_inv with (issueMap := issueMap) in Hrun
    as (new & -> & _ & Hall).
  - split; [by eexists|done].
  - intros c l w [r1 r2] _ Hr. by apply buildTreeLines_inv in Hr.
Qed.

(** C3: in any adjacency with the Containment cycle A → B, B → A the walk
    that starts at A (which has a record) on a fresh visited-set
    terminates; it marks A and B, renders no key twice, renders A exactly
    once and, when B has a record, B exactly once. *)
Theorem containment_cycle_walk (A B : Key) (level : nat) (prefix : string)
  (isLast : bool) :
  B ∈ lookupList parentMap A → A ∈ lookupList parentMap B →
  is_Some (rget A issueMap) →
  ∃ lines visited',
    buildTreeLines issueMap coversMap parentMap (treeFuel coversMap parentMap)
      A level prefix isLast ∅ = Some (lines, visited')
    ∧ A ∈ visited' ∧ B ∈ visited'
    ∧ NoDup (renderedKeys lines)
    ∧ length (filter (fun n => rn_key n = A) lines) = 1
    ∧ (is_Some (rget B issueMap) →
       length (filter (fun n => rn_key n = B) lines) = 1).
Proof.
  intros HAB HBA HA.
  destruct (buildTreeLines_treeFuel issueMap coversMap parentMap A level prefix isLast ∅)
    as (lines & visited' & Hrun).
  exists lines, visited'. split; [exact Hrun|].
  generalize dependent (treeFuel coversMap parentMap). intros fuel Hrun.
  destruct (buildTreeLines_inv _ _ _ _ _ _ _ _ _ _ _ Hrun) as [(_ & Hnd & Hkeys) HAin].
  destruct (buildTreeLines_expands _ _ _ _ _ _ _ _ (not_elem_of_empty A) HA Hrun)
    as [_ Hchildren].
  assert (B ∈ visited') as HBin.
  { apply Hchildren.
    apply elem_of_allChildren. by right. }
  split_and!; [done..| |].
  - apply rendered_exactly_once; [done|]. apply Hkeys. split_and!; [done|set_solver|done].
  - intros HB. apply rendered_exactly_once; [done|].
    apply Hkeys. split_and!; [done|set_solver|done].
Qed.

End Cycle.

Lemma containment_cycle_walk_witness :
  ∃ lines visited',
    buildTreeLines cycleIssueMap ∅ cycleParentMap (treeFuel ∅ cycleParentMap)
      "A-1" 0 "" true ∅ = Some (lines, visited')
    ∧ "A-1" ∈ visited' ∧ "B-1" ∈ visited'
    ∧ NoDup (renderedKeys lines)
    ∧ length (filter (fun n => rn_key n = "A-1") lines) = 1
    ∧ (is_Some (rget "B-1" cycleIssueMap) →
       length (filter (fun n => rn_key n = "B-1") lines) = 1).
Proof.
  apply (containment_cycle_walk cycleIssueMap ∅ cycleParentMap "A-1" "B-1" 0 "" true).
  - vm_compute. left.
  - vm_compute. left.
  - vm_compute. by eexists.
Defined.

(** ** Rendering of the sections *)

Lemma mapM_total {A B} (f : A → option B) (R : A → B → Prop) (l : list A) :
  (∀ x, x ∈ l → ∃ y, f x = Some y ∧ R x y) →
  ∃ k, mapM f l = Some k ∧ Forall2 R l k.
Proof.
  induction l as [|x l IH]; intros Hf; simpl.
  - exists []. by split.
  - destruct (Hf x ltac:(left)) as (y & Hy & HR).
    destruct IH as (k & Hk & HF); [intros ? ?; apply Hf; by right|].
    exists (y :: k). rewrite Hy, Hk. simpl. split; [done|by constructor].
Qed.

Section SectionFacts.

Variable g : Graph.

Lemma walkFrom_total level prefix issueKey isLast visited :
  ∃ lines visited',
    walkFrom g level prefix issueKey isLast visited = Some (lines, visited')
    ∧ walkInv (g_issueMap g) visited lines visited'.
Proof.
  destruct (buildTreeLines_treeFuel (g_issueMap g) (g_coversMap g) (g_parentMap g)
    issueKey level prefix isLast visited) as (lines & visited' & Hrun).
  exists lines, visited'. split; [exact Hrun|].
  by apply buildTreeLines_inv in Hrun as [? _].
Qed.

Lemma forEachIssue_total guard level prefix isLastAt rest :
  ∀ i lines visited,
  ∃ new visited',
    forEachIssue guard (walkFrom g level prefix) isLastAt rest i lines visited
    = Some (lines ++ new, visited')
    ∧ walkInv (g_issueMap g) visited new visited'.
Proof.
  induction rest as [|k rest IH]; intros i lines visited; simpl.
  - exists [], visited. rewrite app_nil_r. split; [done|apply walkInv_refl].
  - destruct (guard k); [|apply IH].
    destruct (walkFrom_total level prefix k (isLastAt i) visited)
      as (treeLines & v1 & -> & Hinv1). simpl.
    destruct (IH (S i) (lines ++ treeLines) v1) as (new & v2 & -> & Hinv2).
    exists (treeLines ++ new), v2. rewrite app_assoc.
    split; [done|]. by eapply walkInv_trans.
Qed.

Lemma renderIssues_total guard cap level prefix isLastAt issues :
  ∃ lines,
    renderIssues g guard cap level prefix isLastAt issues = Some lines
    ∧ NoDup (renderedKeys lines).
Proof.
  unfold renderIssues.
  destruct (forEachIssue_total guard level prefix isLastAt (take cap issues) 0 [] ∅)
    as (new & v' & -> & (_ & Hnd & _)).
  exists new. by split.
Qed.

Lemma folderEpicSection_total isLastEpic d :
  ∃ s, folderEpicSection g isLastEpic d = Some s
       ∧ es_epicKey s = ed_epicKey d ∧ NoDup (sectionKeys s).
Proof.
  unfold folderEpicSection. destruct (ed_epic d) as [epic|].
  - match goal with |- context [renderIssues g ?a ?b ?c ?p ?f ?l] =>
      destruct (renderIssues_total a b c p f l) as (lines & -> & Hnd) end.
    simpl. eexists. split_and!; [done..|]. exact Hnd.
  - eexists. split_and!; [done..|]. apply NoDup_nil_2.
Qed.

Lemma folderEpicSections_total ds :
  ∀ i n, ∃ ss, folderEpicSections g ds i n = Some ss
               ∧ Forall (fun s => NoDup (sectionKeys s)) ss.
Proof.
  induction ds as [|d ds IH]; intros i n; simpl.
  - by exists [].
  - destruct (folderEpicSection_total (i =? n - 1)%nat d) as (s & -> & _ & Hs).
    destruct (IH (S i) n) as (ss & -> & Hss). simpl.
    exists (s :: ss). split; [done|by constructor].
Qed.

Lemma epicSection_total d :
  ∃ s, epicSection g d = Some s
       ∧ es_epicKey s = ed_epicKey d ∧ es_epic s = ed_epic d
       ∧ es_issueCount s = length (ed_issues d) ∧ NoDup (sectionKeys s).
Proof.
  unfold epicSection.
  match goal with |- context [renderIssues g ?a ?b ?c ?p ?f ?l] =>
    destruct (renderIssues_total a b c p f l) as (lines & -> & Hnd) end.
  simpl. eexists. split_and!; [done..|]. exact Hnd.
Qed.

Lemma rootSection_total :
  ∃ r, rootSection g = Some r
       ∧ ∀ lines more, r = Some (lines, more) → NoDup (renderedKeys lines).
Proof.
  unfold rootSection. destruct (rootTasks g) as [|k ks] eqn:Hroots.
  - exists None. by split.
  - match goal with |- context [renderIssues g ?a ?b ?c ?p ?f ?l] =>
      destruct (renderIssues_total a b c p f l) as (lines & -> & Hnd) end.
    simpl. eexists. split; [done|]. by intros ? ? [= <- <-].
Qed.

(** The rendering phase always completes, and no section of its output
    renders a key twice. *)
Lemma buildOutput_total total ov :
  ∃ out, buildOutput g total ov = Some out ∧ sectionsDedup out
         ∧ fo_foldersCount out = length (rkeys (ov_folderMap ov))
         ∧ fo_issuesWithFolders out = length (rkeys (ov_issueToFolderMap ov))
         ∧ fo_epicsCount out = length (allEpicKeysInMap g)
         ∧ fo_structureErrors out = ov_structureErrors ov.
Proof.
  unfold buildOutput.
  destruct (groupEpics g (ov_issueToFolderMap ov) (allEpicKeysInMap g))
    as [folderToEpicsMap epicsWithoutFolders].
  match goal with |- context [mapM ?f (sortStrings ?l)] =>
    destruct (mapM_total f
      (fun _ y => Forall (fun s => NoDup (sectionKeys s)) y.2) (sortStrings l))
      as (folders & -> & Hfolders) end.
  { intros name _.
    destruct (folderEpicSections_total (default [] (rget name folderToEpicsMap)) 0
      (length (default [] (rget name folderToEpicsMap)))) as (ss & -> & Hss).
    simpl. by eexists. }
  destruct (mapM_total (epicSection g) (fun _ s => NoDup (sectionKeys s))
    epicsWithoutFolders) as (epics & -> & Hepics).
  { intros d _. destruct (epicSection_total d) as (s & -> & _ & _ & _ & Hs). by eexists. }
  destruct rootSection_total as (roots & -> & Hroots). simpl.
  eexists. split; [done|]. split; [|done].
  split_and!; simpl.
  - intros name ss s Hin Hs.
    apply Forall2_Forall_r with (Q := fun y => Forall (fun s => NoDup (sectionKeys s)) y.2)
      in Hfolders.
    + rewrite Forall_forall in Hfolders. specialize (Hfolders _ Hin). simpl in Hfolders.
      rewrite Forall_forall in Hfolders. by apply Hfolders.
    + apply Forall_true. done.
  - intros s Hs.
    apply Forall2_Forall_r with (Q := fun s => NoDup (sectionKeys s)) in Hepics.
    + rewrite Forall_forall in Hepics. by apply Hepics.
    + apply Forall_true. done.
  - done.
Qed.

End SectionFacts.

(** ** Forest mode: deduplication *)

(** C1 (counterexample): T-2 is rendered under its parent T-1 in the
    section of epic E-1 and again in the section of its own epic E-2. *)
Lemma forest_key_rendered_twice :
  ∃ out,
    fr_result <$> getIssueHierarchy asciiLower twoEpicSearch noSuchIssue
                    structureUnavailable defaultParams = Some (Ok out)
    ∧ allRenderedKeys out = ["T-1"; "T-2"; "T-2"]
    ∧ ¬ NoDup (allRenderedKeys out).
Proof.
  eexists. split; [vm_compute; reflexivity|].
  split; [vm_compute; reflexivity|].
  intros Hnd. vm_compute in Hnd.
  apply NoDup_cons in Hnd as [_ Hnd]. apply NoDup_cons in Hnd as [Hin _].
  apply Hin. left.
Qed.

(** C1 (as the code has it): a forest build that reaches the rendering
    phase returns an output in which no section (an epic's tree inside a
    folder, an epic's tree outside folders, the tree of the tasks without
    epic) renders a key twice; each section starts from a visited-set of
    its own. *)
Theorem forest_sections_dedup (toLowerCase : string → string)
  (searchIssues : string → nat → list string → Result SearchResponse)
  (getIssue : Key → Result Issue)
  (getStructureHierarchy : string → nat → Result (list Element))
  (params : ForestParams) response g lookups ov :
  assembleGraph toLowerCase searchIssues getIssue params = Ok (response, g, lookups) →
  folderOverlay (getStructureHierarchy "138" 1000) (g_issueMap g) (allEpicKeysInMap g)
  = Some ov →
  ∃ out,
    getIssueHierarchy toLowerCase searchIssues getIssue getStructureHierarchy params
    = Some {| fr_result := Ok out; fr_lookups := lookups |}
    ∧ sectionsDedup out.
Proof.
  intros Hgraph Hov. unfold getIssueHierarchy. rewrite Hgraph, Hov. simpl.
  destruct (buildOutput_total g (sr_total response) ov) as (out & -> & Hdedup & _).
  exists out. by split.
Qed.

Lemma forest_sections_dedup_witness :
  ∃ out,
    getIssueHierarchy asciiLower twoEpicSearch noSuchIssue structureUnavailable
      defaultParams = Some {| fr_result := Ok out; fr_lookups := [] |}
    ∧ sectionsDedup out.
Proof.
  eapply (forest_sections_dedup asciiLower twoEpicSearch noSuchIssue
            structureUnavailable defaultParams).
  - vm_compute. reflexivity.
  - vm_compute. reflexivity.
Defined.

(** ** Forest mode without the folder topology *)

Lemma epicFolders_noFolders epicKey issues : epicFolders [] epicKey issues = [].
Proof.
  unfold epicFolders. simpl.
  replace (concat ((fun _ : Key => @nil string) <$> issues)) with (@nil string); [done|].
  induction issues as [|k issues IH]; simpl; done.
Qed.

Lemma groupEpics_noFolders g epicKeys :
  groupEpics g [] epicKeys = ([], epicDataOf g <$> epicKeys).
Proof.
  unfold groupEpics.
  assert (∀ acc, foldl
    (fun '(folderToEpicsMap, epicsWithoutFolders) epicKey =>
       let issuesInEpic := default [] (rget epicKey (g_epicMap g)) in
       let epicData := {| ed_epicKey := epicKey;
                          ed_epic := rget epicKey (g_issueMap g);
                          ed_issues := issuesInEpic |} in
       match epicFolders [] epicKey issuesInEpic with
       | [] => (folderToEpicsMap, epicsWithoutFolders ++ [epicData])
       | folders =>
           (foldl (fun m f => pushEpicData f epicData m) folderToEpicsMap folders,
            epicsWithoutFolders)
       end) ([], acc) epicKeys = ([], acc ++ (epicDataOf g <$> epicKeys))) as H.
  { induction epicKeys as [|k ks IH]; intros acc; simpl.
    - by rewrite app_nil_r.
    - rewrite epicFolders_noFolders, IH, <- app_assoc. done. }
  apply H.
Qed.

Lemma buildOutput_noFolders g total ov :
  ov_issueToFolderMap ov = [] → ov_folderMap ov = [] →
  ∃ out, buildOutput g total ov = Some out
    ∧ fo_foldersCount out = 0 ∧ fo_issuesWithFolders out = 0
    ∧ fo_folders out = []
    ∧ fo_structureErrors out = ov_structureErrors ov
    ∧ fo_epicsCount out = length (allEpicKeysInMap g)
    ∧ Forall2 (fun epicKey s =>
                 es_epicKey s = epicKey
                 ∧ es_epic s = rget epicKey (g_issueMap g)
                 ∧ es_issueCount s = length (default [] (rget epicKey (g_epicMap g))))
        (allEpicKeysInMap g) (fo_epicsWithoutFolders out).
Proof.
  intros Hpaths Hfolders. unfold buildOutput.
  rewrite Hpaths, Hfolders, groupEpics_noFolders. simpl.
  destruct (mapM_total (epicSection g)
    (fun d s => es_epicKey s = ed_epicKey d ∧ es_epic s = ed_epic d
                ∧ es_issueCount s = length (ed_issues d))
    (epicDataOf g <$> allEpicKeysInMap g)) as (epics & -> & Hepics).
  { intros d _. destruct (epicSection_total g d) as (s & -> & ? & ? & ? & _). by eexists. }
  destruct (rootSection_total g) as (roots & -> & _). simpl.
  eexists. split; [done|]. simpl. split_and!; [done..|].
  apply Forall2_fmap_l in Hepics. done.
Qed.



(** ** Dictionaries *)

Lemma rget_rset_eq {V} (k : Key) (v : V) (r : Rec V) : rget k (rset k v r) = Some v.
Proof.
  induction r as [|[k' v'] r IH]; simpl.
  - by rewrite bool_decide_eq_true_2.
  - case_bool_decide as Hk; simpl.
    + by rewrite bool_decide_eq_true_2.
    + by rewrite bool_decide_eq_false_2.
Qed.

Lemma rget_rset_ne {V} (k k' : Key) (v : V) (r : Rec V) :
  k ≠ k' → rget k' (rset k v r) = rget k' r.
Proof.
  intros Hne. induction r as [|[k0 v0] r IH]; simpl.
  - by rewrite bool_decide_eq_false_2.
  - case_bool_decide as Hk; simpl.
    + subst k0. by rewrite !bool_decide_eq_false_2.
    + by rewrite IH.
Qed.

Lemma lookupList_addEdge_mono (m : gmap Key (list Key)) p c p' c' :
  c' ∈ lookupList m p' → c' ∈ lookupList (addEdge p c m) p'.
Proof.
  unfold addEdge, lookupList. destruct (decide (p = p')) as [<-|Hne].
  - rewrite lookup_insert_eq. simpl. case_bool_decide; [done|].
    intros ?. apply elem_of_app. by left.
  - by rewrite lookup_insert_ne.
Qed.

Lemma lookupList_addEdge_new (m : gmap Key (list Key)) p c :
  c ∈ lookupList (addEdge p c m) p.
Proof.
  unfold addEdge, lookupList. rewrite lookup_insert_eq. simpl.
  case_bool_decide; [done|]. apply elem_of_app. right. by left.
Qed.

(** ** Rooted mode: the fetch phase *)

Lemma fetchInv_refl st : fetchInv st st.
Proof.
  split_and!; [done| |done|by left|done].
  exists []. rewrite app_nil_r. split_and!; [done|apply NoDup_nil_2|].
  by intros k ?%elem_of_nil.
Qed.

Lemma fetchInv_trans st1 st2 st3 : fetchInv st1 st2 → fetchInv st2 st3 → fetchInv st1 st3.
Proof.
  intros (Hv1 & (n1 & Hl1 & Hnd1 & Hn1) & Hr1 & Hd1 & Hp1)
         (Hv2 & (n2 & Hl2 & Hnd2 & Hn2) & Hr2 & Hd2 & Hp2).
  split_and!.
  - set_solver.
  - exists (n1 ++ n2). rewrite Hl2, Hl1, app_assoc. split_and!; [done| |].
    + apply NoDup_app. split_and!; [done| |done].
      intros k [_ H1]%Hn1 [H2 _]%Hn2. done.
    + intros k [[? ?]%Hn1|[? ?]%Hn2]%elem_of_app; set_solver.
  - auto.
  - intros k [H|(? & ? & Hin)]%Hd2.
    + apply Hd1 in H as [?|(? & ? & ?)]; [by left|right].
      split_and!; [set_solver|done|]. rewrite Hl2. apply elem_of_app. by left.
    + right. split_and!; [done|set_solver|done].
  - auto.
Qed.

Lemma fetchStep_refl st : fetchStep st st.
Proof. intros ?. split; [done|apply fetchInv_refl]. Qed.

Lemma fetchStep_trans st1 st2 st3 : fetchStep st1 st2 → fetchStep st2 st3 → fetchStep st1 st3.
Proof.
  intros H1 H2 Hwf. destruct (H1 Hwf) as [Hwf2 Hi1]. destruct (H2 Hwf2) as [Hwf3 Hi2].
  split; [done|]. by eapply fetchInv_trans.
Qed.

(** An update that leaves the records, the visited-set and the lookups
    alone and only adds Containment edges. *)
Lemma fetchStep_edges st st' :
  fs_issueMap st' = fs_issueMap st → fs_visited st' = fs_visited st →
  fs_lookups st' = fs_lookups st →
  (∀ p c, c ∈ lookupList (fs_parentMap st) p → c ∈ lookupList (fs_parentMap st') p) →
  fetchStep st st'.
Proof.
  intros Hm Hv Hl Hp Hwf. split.
  - intros k. rewrite Hm, Hv. apply Hwf.
  - split_and!; [by rewrite Hv| |by rewrite Hm|rewrite Hm; by left|done].
    exists []. rewrite app_nil_r. split_and!; [done|apply NoDup_nil_2|].
    by intros k ?%elem_of_nil.
Qed.

Lemma addParent_step p c st : fetchStep st (addParent p c st).
Proof. apply fetchStep_edges; try done. intros. by apply lookupList_addEdge_mono. Qed.

Lemma addCovers_step p c st : fetchStep st (addCovers p c st).
Proof. by apply fetchStep_edges. Qed.

Lemma addEpicUnique_step e k st : fetchStep st (addEpicUnique e k st).
Proof. by apply fetchStep_edges. Qed.

Section FetchFacts.

Variable toLowerCase : string → string.
Variable getIssue : Key → Result Issue.
Variable params : RootParams.

#[local] Abbreviation fetch := (fetchIssueHierarchy toLowerCase getIssue params).

Lemma forEachM_step {A} (f : A → FetchState → option FetchState) xs :
  (∀ x s s', f x s = Some s' → fetchStep s s') →
  ∀ st st', forEachM f xs st = Some st' → fetchStep st st'.
Proof.
  intros Hf. induction xs as [|x xs IH]; intros st st' Hrun; simpl in Hrun.
  - injection Hrun as <-. apply fetchStep_refl.
  - destruct (f x st) as [s1|] eqn:H1; [|done]. simpl in Hrun.
    eapply fetchStep_trans; [by eapply Hf|by apply IH].
Qed.

Lemma followEdge_step add recur parent child next st st' :
  (∀ p c s, fetchStep s (add p c s)) →
  (∀ k s s', recur k s = Some s' → fetchStep s s') →
  followEdge add recur parent child next st = Some st' → fetchStep st st'.
Proof.
  intros Hadd Hrec. unfold followEdge.
  destruct (truthy parent && truthy child); [|intros [= <-]; apply fetchStep_refl].
  case_bool_decide.
  - intros [= <-]. apply Hadd.
  - intros Hrun. eapply fetchStep_trans; [apply Hadd|by eapply Hrec].
Qed.

Lemma fetchLink_step recur key link st st' :
  (∀ k s s', recur k s = Some s' → fetchStep s s') →
  fetchLink toLowerCase recur key link st = Some st' → fetchStep st st'.
Proof.
  intros Hrec. unfold fetchLink. intros Hrun.
  apply bind_Some in Hrun as (s2 & H1 & H2).
  eapply fetchStep_trans with (st2 := s2).
  - clear H2. destruct (isRequirementLink _ _); [|injection H1 as <-; apply fetchStep_refl].
    apply bind_Some in H1 as (s1 & H0 & H1).
    eapply fetchStep_trans with (st2 := s1).
    + clear H1. destruct (outwardIs _ _ _); [|injection H0 as <-; apply fetchStep_refl].
      eapply followEdge_step; [apply addCovers_step|done..].
    + clear H0. destruct (inwardIs _ _ _); [|injection H1 as <-; apply fetchStep_refl].
      eapply followEdge_step; [apply addCovers_step|done..].
  - clear H1. destruct (isParentChildLink _ _); [|injection H2 as <-; apply fetchStep_refl].
    apply bind_Some in H2 as (s3 & H2 & H3).
    eapply fetchStep_trans with (st2 := s3).
    + clear H3. destruct (outwardIs _ _ _); [|injection H2 as <-; apply fetchStep_refl].
      eapply followEdge_step; [apply addParent_step|done..].
    + clear H2. destruct (inwardIs _ _ _); [|injection H3 as <-; apply fetchStep_refl].
      eapply followEdge_step; [apply addParent_step|done..].
Qed.

Lemma fetchRelated_step recur key issue st st' :
  (∀ k s s', recur k s = Some s' → fetchStep s s') →
  fetchRelated toLowerCase params recur key issue st = Some st' → fetchStep st st'.
Proof.
  intros Hrec. unfold fetchRelated. intros Hrun.
  apply bind_Some in Hrun as (s1 & H1 & H2).
  eapply fetchStep_trans with (st2 := s1).
  - destruct (rootedEpicKey _) as [epicKey|]; [|injection H1 as <-; apply fetchStep_refl].
    destruct (rp_includeEpic params && _).
    + eapply fetchStep_trans; [apply addEpicUnique_step|by eapply Hrec].
    + injection H1 as <-. apply addEpicUnique_step.
  - eapply forEachM_step; [|done]. intros ? ? ?. by apply fetchLink_step.
Qed.

(** Marking a fresh key and sending its lookup. *)
Lemma beginLookup_step key st :
  key ∉ fs_visited st → fetchStep st (beginLookup key st).
Proof.
  intros Hfresh Hwf. split.
  - intros k Hk. simpl. apply Hwf in Hk. set_solver.
  - split_and!; simpl; [set_solver| |done|by left|done].
    exists [key]. split_and!; [done|apply NoDup_singleton|].
    intros k ->%list_elem_of_singleton. set_solver.
Qed.

(** ... and storing the record that came back. *)
Lemma setIssue_step key issue st :
  key ∉ fs_visited st → fetchStep st (setIssue key issue (beginLookup key st)).
Proof.
  intros Hfresh Hwf. split.
  - intros k. simpl. destruct (decide (key = k)) as [<-|Hne]; [set_solver|].
    rewrite rget_rset_ne by done. intros Hk%Hwf. set_solver.
  - split_and!; simpl; [set_solver| | | |done].
    + exists [key]. split_and!; [done|apply NoDup_singleton|].
      intros k ->%list_elem_of_singleton. set_solver.
    + intros k v Hk. destruct (decide (key = k)) as [<-|Hne]; [|by rewrite rget_rset_ne].
      exfalso. apply Hfresh, Hwf. by rewrite Hk.
    + intros k. destruct (decide (key = k)) as [<-|Hne].
      * intros _. right. split_and!; [set_solver|done|].
        apply elem_of_app. right. by left.
      * rewrite rget_rset_ne by done. by left.
Qed.

Lemma fetchIssueHierarchy_step fuel :
  ∀ key depth st st', fetch fuel key depth st = Some st' → fetchStep st st'.
Proof.
  induction fuel as [|fuel IH]; intros key depth st st'; simpl.
  - destruct (_ || _); [|done]. intros [= <-]. apply fetchStep_refl.
  - destruct (effectiveMaxDepth params <? depth)%nat; simpl.
    { intros [= <-]. apply fetchStep_refl. }
    case_bool_decide as Hvis. { intros [= <-]. apply fetchStep_refl. }
    destruct (getIssue key) as [issue|e].
    + intros Hrun. eapply fetchStep_trans; [by apply (setIssue_step key issue)|].
      eapply fetchRelated_step; [|done]. intros k s s'. apply IH.
    + intros [= <-]. by apply beginLookup_step.
Qed.

(** The fetch phase never runs out of fuel. *)
Lemma forEachM_total {A} (f : A → FetchState → option FetchState) xs :
  (∀ x s, is_Some (f x s)) → ∀ st, is_Some (forEachM f xs st).
Proof.
  intros Hf. induction xs as [|x xs IH]; intros st; simpl; [done|].
  destruct (Hf x st) as [s1 ->]. simpl. apply IH.
Qed.

Lemma followEdge_total add recur parent child next st :
  (∀ k s, is_Some (recur k s)) →
  is_Some (followEdge add recur parent child next st).
Proof.
  intros Hrec. unfold followEdge.
  destruct (truthy parent && truthy child); [|done]. by case_bool_decide.
Qed.

Lemma bind_total {A B} (m : option A) (f : A → option B) :
  is_Some m → (∀ x, is_Some (f x)) → is_Some (m ≫= f).
Proof. intros [x ->] Hf. apply Hf. Qed.

Lemma fetchLink_total recur key link st :
  (∀ k s, is_Some (recur k s)) → is_Some (fetchLink toLowerCase recur key link st).
Proof.
  intros Hrec. unfold fetchLink.
  assert (∀ add p c n s, is_Some (followEdge add recur p c n s)) as Hfollow
    by (intros; by apply followEdge_total).
  apply bind_total.
  - destruct (isRequirementLink _ _); [|done]. apply bind_total.
    + destruct (outwardIs _ _ _); [apply Hfollow|done].
    + intros s1. destruct (inwardIs _ _ _); [apply Hfollow|done].
  - intros s2. destruct (isParentChildLink _ _); [|done]. apply bind_total.
    + destruct (outwardIs _ _ _); [apply Hfollow|done].
    + intros s3. destruct (inwardIs _ _ _); [apply Hfollow|done].
Qed.

Lemma fetchRelated_total recur key issue st :
  (∀ k s, is_Some (recur k s)) →
  is_Some (fetchRelated toLowerCase params recur key issue st).
Proof.
  intros Hrec. unfold fetchRelated. apply bind_total.
  - destruct (rootedEpicKey _) as [epicKey|]; [|done]. simpl.
    destruct (rp_includeEpic params && _); [apply Hrec|done].
  - intros s1. apply forEachM_total. intros. by apply fetchLink_total.
Qed.

Lemma fetchIssueHierarchy_total fuel :
  ∀ key depth st, effectiveMaxDepth params < fuel + depth →
  is_Some (fetch fuel key depth st).
Proof.
  induction fuel as [|fuel IH]; intros key depth st Hfuel; simpl.
  - rewrite (proj2 (Nat.ltb_lt _ _)) by lia. done.
  - destruct (_ || _); [done|]. destruct (getIssue key); [|done].
    apply fetchRelated_total. intros k s. apply IH. lia.
Qed.

Lemma fetchFromRoot_total :
  ∃ st, fetchFromRoot toLowerCase getIssue params = Some st
        ∧ fetchInv emptyFetchState st.
Proof.
  unfold fetchFromRoot.
  destruct (fetchIssueHierarchy_total (S (effectiveMaxDepth params))
    (rp_issueKey params) 0 emptyFetchState ltac:(lia)) as [st Hst].
  exists st. split; [done|].
  apply fetchIssueHierarchy_step in Hst. apply Hst.
  by intros k [? ?].
Qed.

(** *** At the depth bound *)

Lemma edgesOnly_refl st : edgesOnly st st.
Proof. by split_and!. Qed.

Lemma edgesOnly_trans st1 st2 st3 : edgesOnly st1 st2 → edgesOnly st2 st3 → edgesOnly st1 st3.
Proof.
  intros (Hm1 & Hv1 & Hl1 & Hp1) (Hm2 & Hv2 & Hl2 & Hp2).
  split_and!; [congruence..|auto].
Qed.

Lemma forEachM_edgesOnly {A} (f : A → FetchState → option FetchState) xs :
  (∀ x s, ∃ s', f x s = Some s' ∧ edgesOnly s s') →
  ∀ st, ∃ st', forEachM f xs st = Some st' ∧ edgesOnly st st'.
Proof.
  intros Hf. induction xs as [|x xs IH]; intros st; simpl.
  - exists st. split; [done|apply edgesOnly_refl].
  - destruct (Hf x st) as (s1 & -> & H1). simpl.
    destruct (IH s1) as (s2 & -> & H2). exists s2. split; [done|].
    by eapply edgesOnly_trans.
Qed.

Lemma followEdge_edgesOnly add recur parent child next st :
  (∀ p c s, edgesOnly s (add p c s)) → (∀ k s, recur k s = Some s) →
  ∃ st', followEdge add recur parent child next st = Some st' ∧ edgesOnly st st'.
Proof.
  intros Hadd Hrec. unfold followEdge.
  destruct (truthy parent && truthy child).
  - exists (add parent child st). split; [|apply Hadd]. by case_bool_decide.
  - exists st. split; [done|apply edgesOnly_refl].
Qed.

Lemma addParent_edgesOnly p c st : edgesOnly st (addParent p c st).
Proof. split_and!; try done. intros. by apply lookupList_addEdge_mono. Qed.

Lemma addCovers_edgesOnly p c st : edgesOnly st (addCovers p c st).
Proof. by split_and!. Qed.

Lemma bind_edgesOnly (m : option FetchState) (f : FetchState → option FetchState) st :
  (∃ s1, m = Some s1 ∧ edgesOnly st s1) →
  (∀ s1, ∃ s2, f s1 = Some s2 ∧ edgesOnly s1 s2) →
  ∃ s2, m ≫= f = Some s2 ∧ edgesOnly st s2.
Proof.
  intros (s1 & -> & H1) Hf. destruct (Hf s1) as (s2 & H2 & H3).
  exists s2. split; [done|]. by eapply edgesOnly_trans.
Qed.

Lemma fetchLink_edgesOnly recur key link st :
  (∀ k s, recur k s = Some s) →
  ∃ st', fetchLink toLowerCase recur key link st = Some st' ∧ edgesOnly st st'.
Proof.
  intros Hrec. unfold fetchLink.
  assert (∀ s : FetchState, ∃ s', Some s = Some s' ∧ edgesOnly s s') as Hid.
  { intros s. exists s. split; [done|apply edgesOnly_refl]. }
  apply bind_edgesOnly.
  - destruct (isRequirementLink _ _); [|apply Hid]. apply bind_edgesOnly.
    + destruct (outwardIs _ _ _); [|apply Hid].
      apply followEdge_edgesOnly; [apply addCovers_edgesOnly|done].
    + intros s1. destruct (inwardIs _ _ _); [|apply Hid].
      apply followEdge_edgesOnly; [apply addCovers_edgesOnly|done].
  - intros s2. destruct (isParentChildLink _ _); [|apply Hid]. apply bind_edgesOnly.
    + destruct (outwardIs _ _ _); [|apply Hid].
      apply followEdge_edgesOnly; [apply addParent_edgesOnly|done].
    + intros s3. destruct (inwardIs _ _ _); [|apply Hid].
      apply followEdge_edgesOnly; [apply addParent_edgesOnly|done].
Qed.

Lemma fetchRelated_edgesOnly recur key issue st :
  (∀ k s, recur k s = Some s) →
  ∃ st', fetchRelated toLowerCase params recur key issue st = Some st'
         ∧ edgesOnly st st'.
Proof.
  intros Hrec. unfold fetchRelated. apply bind_edgesOnly.
  - destruct (rootedEpicKey _) as [epicKey|].
    + exists (addEpicUnique epicKey key st). split; [|by split_and!].
      simpl. destruct (rp_includeEpic params && _); [apply Hrec|done].
    + exists st. split; [done|apply edgesOnly_refl].
  - intros s1. apply forEachM_edgesOnly. intros. by apply fetchLink_edgesOnly.
Qed.

Lemma fetchIssueHierarchy_unfold fuel key depth st :
  fetch (S fuel) key depth st
  = if (effectiveMaxDepth params <? depth)%nat || bool_decide (key ∈ fs_visited st)
    then Some st
    else match getIssue key with
         | Err _ => Some (beginLookup key st)
         | Ok issue =>
             fetchRelated toLowerCase params
               (fun k s => fetch fuel k (S depth) s) key issue
               (setIssue key issue (beginLookup key st))
         end.
Proof. reflexivity. Qed.

(** A key fetched at the depth bound gets its record, and its own
    relations are recorded as edges without any further lookup. *)
Lemma fetchIssueHierarchy_at_bound fuel key issue st :
  key ∉ fs_visited st → getIssue key = Ok issue →
  ∃ st', fetch (S fuel) key (effectiveMaxDepth params) st = Some st'
         ∧ edgesOnly (setIssue key issue (beginLookup key st)) st'.
Proof.
  intros Hfresh Hkey. simpl.
  rewrite Nat.ltb_irrefl, bool_decide_eq_false_2, Hkey by done. simpl.
  apply fetchRelated_edgesOnly. intros k s.
  destruct fuel; simpl; by rewrite (proj2 (Nat.ltb_lt _ _)) by lia.
Qed.

(** The state after the fetch phase when the root can be fetched: the
    root's record is the one that came back. *)
Lemma fetchFromRoot_root root :
  getIssue (rp_issueKey params) = Ok root →
  ∃ st, fetchFromRoot toLowerCase getIssue params = Some st
        ∧ rget (rp_issueKey params) (fs_issueMap st) = Some root.
Proof.
  intros Hroot. destruct fetchFromRoot_total as (st & Hst & _).
  exists st. split; [done|].
  unfold fetchFromRoot in Hst. simpl in Hst.
  rewrite bool_decide_eq_false_2, Hroot in Hst by set_solver.
  apply fetchRelated_step in Hst.
  2: { intros k s s'. apply fetchIssueHierarchy_step. }
  destruct Hst as [_ (_ & _ & Hkeep & _)].
  - intros k. simpl. destruct (decide (rp_issueKey params = k)) as [<-|Hne]; [set_solver|].
    rewrite bool_decide_eq_false_2 by done. by intros [? ?].
  - apply Hkeep. simpl. by rewrite bool_decide_eq_true_2.
Qed.

End FetchFacts.

(** C5: in rooted mode the call always returns.  It answers "Issue Not
    Found" when the lookup of the starting key fails; when that lookup
    succeeds it answers with a hierarchy whose root record is the one
    fetched and whose first rendered node is the starting key, whatever
    the lookups of the other keys do.  A failed lookup of any key only
    marks the key and records the request: the dictionaries are left as
    they were. *)
Theorem rooted_not_found_only_for_root (toLowerCase : string → string)
  (getIssue : Key → Result Issue) (params : RootParams) :
  match getIssue (rp_issueKey params) with
  | Err _ =>
      getIssueHierarchyFromRoot toLowerCase getIssue params
      = Some (IssueNotFound (rp_issueKey params))
  | Ok root =>
      ∃ out rest,
        getIssueHierarchyFromRoot toLowerCase getIssue params
        = Some (RootedHierarchy out)
        ∧ ro_rootIssue out = root
        ∧ renderedKeys (ro_treeLines out) = rp_issueKey params :: rest
  end
  ∧ ∀ fuel key depth st,
      match getIssue key with
      | Err _ =>
          fetchIssueHierarchy toLowerCase getIssue params (S fuel) key depth st
          = Some (if (effectiveMaxDepth params <? depth)%nat
                     || bool_decide (key ∈ fs_visited st)
                  then st else beginLookup key st)
      | Ok _ => True
      end.
Proof.
  split.
  - destruct (getIssue (rp_issueKey params)) as [root|e] eqn:Hroot.
    + destruct (fetchFromRoot_root toLowerCase getIssue params root Hroot)
        as (st & Hst & Hrec).
      unfold getIssueHierarchyFromRoot. rewrite Hst. cbn -[buildTreeLines]. rewrite Hrec.
      destruct (buildTreeLines_treeFuel (fs_issueMap st) (fs_coversMap st)
        (fs_parentMap st) (rp_issueKey params) 0 "" true ∅) as (lines & v' & Hrun).
      rewrite Hrun. cbn -[buildTreeLines].
      apply buildTreeLines_expands in Hrun as [[rest Hkeys] _];
        [|apply not_elem_of_empty|by rewrite Hrec].
      eexists _, rest. split_and!; done.
    + unfold getIssueHierarchyFromRoot, fetchFromRoot. simpl.
      rewrite bool_decide_eq_false_2, Hroot by set_solver. done.
  - intros fuel key depth st. destruct (getIssue key) as [issue|e] eqn:Hkey; [done|].
    simpl. destruct (_ || _); [done|]. by rewrite Hkey.
Qed.

(** ** Rooted mode with depth 1 *)

(** Rendering from a root whose two children have records, when no other
    key has one. *)
Lemma depth_one_render (R1 C1 C2 : Key) (r1 c1 c2 : Issue) (st : FetchState) :
  R1 ≠ C1 → R1 ≠ C2 → C1 ≠ C2 →
  fs_issueMap st = [(R1, r1); (C1, c1); (C2, c2)] →
  C1 ∈ lookupList (fs_parentMap st) R1 → C2 ∈ lookupList (fs_parentMap st) R1 →
  ∃ lines visited' rest,
    buildTreeLines (fs_issueMap st) (fs_coversMap st) (fs_parentMap st)
      (treeFuel (fs_coversMap st) (fs_parentMap st)) R1 0 "" true ∅
    = Some (lines, visited')
    ∧ renderedKeys lines = R1 :: rest ∧ rest ≡ₚ [C1; C2].
Proof.
  intros R1_C1 R1_C2 C1_C2 Hmap HC1 HC2.
  destruct (buildTreeLines_treeFuel (fs_issueMap st) (fs_coversMap st)
    (fs_parentMap st) R1 0 "" true ∅) as (lines & v' & Hrun).
  exists lines, v'. generalize dependent (treeFuel (fs_coversMap st) (fs_parentMap st)).
  intros fuel Hrun.
  assert (∀ k, is_Some (rget k (fs_issueMap st)) ↔ k = R1 ∨ k = C1 ∨ k = C2) as Hdom.
  { intros k. rewrite Hmap. simpl.
    destruct (decide (k = R1)) as [->|?].
    { rewrite bool_decide_eq_true_2 by done. split; [by left|by eexists]. }
    rewrite bool_decide_eq_false_2 by done.
    destruct (decide (k = C1)) as [->|?].
    { rewrite bool_decide_eq_true_2 by done. split; [by right; left|by eexists]. }
    rewrite bool_decide_eq_false_2 by done.
    destruct (decide (k = C2)) as [->|?].
    { rewrite bool_decide_eq_true_2 by done. split; [by right; right|by eexists]. }
    rewrite bool_decide_eq_false_2 by done.
    split; [by intros [? ?]|by intros [?|[?|?]]]. }
  destruct (buildTreeLines_inv _ _ _ _ _ _ _ _ _ _ _ Hrun) as [(_ & Hnd & Hkeys) _].
  destruct (buildTreeLines_expands _ _ _ _ _ _ _ _ _ _ _ (not_elem_of_empty R1)
    (proj2 (Hdom R1) (or_introl eq_refl)) Hrun) as [[rest Hrest] Hchildren].
  exists rest. split_and!; [done..|].
  rewrite Hrest in Hnd, Hkeys. apply NoDup_cons in Hnd as [HR1 Hnd].
  apply NoDup_Permutation; [done| |].
  { apply NoDup_cons. split; [by intros ?%list_elem_of_singleton|apply NoDup_singleton]. }
  intros k. split.
  - intros Hk. assert (k ≠ R1) by (by intros ->).
    destruct (Hkeys k) as [Hk' _]. destruct (Hk' ltac:(by right)) as (_ & _ & Hsome).
    apply Hdom in Hsome as [?|[?|?]]; [done|subst k; by left|subst k; right; by left].
  - intros Hk. assert (k ∈ R1 :: rest) as Hin.
    { apply Hkeys. split_and!; [|set_solver|].
      - apply Hchildren, elem_of_allChildren. right.
        apply elem_of_cons in Hk as [->|Hk]; [done|].
        by apply list_elem_of_singleton in Hk as ->.
      - apply Hdom. apply elem_of_cons in Hk as [->|Hk]; [tauto|].
        apply list_elem_of_singleton in Hk as ->. tauto. }
    apply elem_of_cons in Hin as [->|?]; [|done].
    apply elem_of_cons in Hk as [?|Hk]; [done|].
    by apply list_elem_of_singleton in Hk.
Qed.

Section DepthOne.

Variable toLowerCase : string → string.
Variable getIssue : Key → Result Issue.
Variable includeEpic : bool.
Variables R1 C1 C2 : Key.
Variables r1 c1 c2 : Issue.
Variables l1 l2 : IssueLink.

Hypothesis R1_truthy : truthy R1 = true.
Hypothesis C1_truthy : truthy C1 = true.
Hypothesis C2_truthy : truthy C2 = true.
Hypothesis R1_C1 : R1 ≠ C1.
Hypothesis R1_C2 : R1 ≠ C2.
Hypothesis C1_C2 : C1 ≠ C2.
Hypothesis get_R1 : getIssue R1 = Ok r1.
Hypothesis get_C1 : getIssue C1 = Ok c1.
Hypothesis get_C2 : getIssue C2 = Ok c2.
Hypothesis r1_no_epic : rootedEpicKey (customfield_10102 r1) = None.
Hypothesis r1_links : issuelinks r1 = [l1; l2].
Hypothesis l1_to_C1 : containmentLinkTo toLowerCase C1 l1.
Hypothesis l2_to_C2 : containmentLinkTo toLowerCase C2 l2.

#[local] Abbreviation params1 :=
  {| rp_issueKey := R1; rp_maxDepth := 1; rp_includeEpic := includeEpic |}.

Lemma fetchLink_containment recur parent child link st :
  containmentLinkTo toLowerCase child link →
  fetchLink toLowerCase recur parent link st
  = followEdge addParent recur parent child child st.
Proof.
  intros (Hreq & Hpc & (o & Ho & <-) & Hin). unfold fetchLink.
  rewrite Hreq, Hpc, Ho, Hin. simpl.
  by destruct (followEdge addParent recur parent (li_key o) (li_key o) st).
Qed.

(** Following a Containment link of the root to a child that has not been
    visited yet: the edge is recorded and the child is fetched at the bound. *)
Lemma fetch_child child c link st :
  truthy child = true → child ∉ fs_visited st → getIssue child = Ok c →
  containmentLinkTo toLowerCase child link →
  ∃ st', fetchLink toLowerCase
           (fun k s => fetchIssueHierarchy toLowerCase getIssue params1 1 k 1 s)
           R1 link st = Some st'
         ∧ edgesOnly (setIssue child c (beginLookup child (addParent R1 child st))) st'.
Proof.
  intros Htruthy Hfresh Hget Hlink.
  rewrite (fetchLink_containment _ R1 child link st Hlink). unfold followEdge.
  rewrite R1_truthy, Htruthy. cbn [andb]. rewrite bool_decide_eq_false_2 by exact Hfresh.
  by apply (fetchIssueHierarchy_at_bound toLowerCase getIssue params1 0 child c).
Qed.

Lemma depth_one_fetch :
  ∃ st, fetchFromRoot toLowerCase getIssue params1 = Some st
        ∧ fs_issueMap st = [(R1, r1); (C1, c1); (C2, c2)]
        ∧ fs_lookups st = [R1; C1; C2]
        ∧ C1 ∈ lookupList (fs_parentMap st) R1
        ∧ C2 ∈ lookupList (fs_parentMap st) R1.
Proof.
  unfold fetchFromRoot. change (effectiveMaxDepth params1) with 1.
  rewrite fetchIssueHierarchy_unfold. change (effectiveMaxDepth params1) with 1.
  cbn [Nat.ltb Nat.leb orb rp_issueKey].
  rewrite bool_decide_eq_false_2, get_R1 by set_solver.
  unfold fetchRelated. rewrite r1_no_epic, r1_links. cbn [forEachM mbind option_bind].
  set (st1 := setIssue R1 r1 (beginLookup R1 emptyFetchState)).
  destruct (fetch_child C1 c1 l1 st1 C1_truthy ltac:(simpl; set_solver) get_C1 l1_to_C1)
    as (sA & -> & HmA & HvA & HlA & HpA). cbn [forEachM mbind option_bind].
  destruct (fetch_child C2 c2 l2 sA C2_truthy
    ltac:(rewrite HvA; simpl; set_solver) get_C2 l2_to_C2)
    as (sB & -> & HmB & HvB & HlB & HpB). cbn [forEachM mbind option_bind].
  exists sB. split; [done|].
  split_and!.
  - rewrite HmB. cbn [setIssue beginLookup addParent fs_issueMap]. rewrite HmA.
    cbn [setIssue beginLookup addParent fs_issueMap emptyFetchState st1 rset].
    unfold st1. cbn [setIssue beginLookup addParent fs_issueMap emptyFetchState rset].
    rewrite (bool_decide_eq_false_2 (C1 = R1)) by done.
    cbn [rset]. rewrite (bool_decide_eq_false_2 (C2 = R1)) by done.
    rewrite (bool_decide_eq_false_2 (C2 = C1)) by done. done.
  - rewrite HlB. cbn [setIssue beginLookup addParent fs_lookups]. rewrite HlA. done.
  - apply HpB, lookupList_addEdge_mono, HpA, lookupList_addEdge_new.
  - apply HpB, lookupList_addEdge_new.
Qed.

End DepthOne.

(** C6: in rooted mode with [maxDepth = 1] on a key R1 whose record has no
    epic link and exactly two Containment links, to C1 and to C2 (three
    distinct keys, all of which can be fetched), the call succeeds; the
    rendered nodes are R1 first and then C1 and C2 in some order, each
    once, and nothing else, whatever relations the records of C1 and C2
    carry; three records are counted, and only R1, C1 and C2 are looked
    up. *)
Theorem rooted_depth_one_three_nodes (toLowerCase : string → string)
  (getIssue : Key → Result Issue) (includeEpic : bool)
  (R1 C1 C2 : Key) (r1 c1 c2 : Issue) (l1 l2 : IssueLink) :
  truthy R1 = true → truthy C1 = true → truthy C2 = true →
  R1 ≠ C1 → R1 ≠ C2 → C1 ≠ C2 →
  getIssue R1 = Ok r1 → getIssue C1 = Ok c1 → getIssue C2 = Ok c2 →
  rootedEpicKey (customfield_10102 r1) = None →
  issuelinks r1 = [l1; l2] →
  containmentLinkTo toLowerCase C1 l1 → containmentLinkTo toLowerCase C2 l2 →
  ∃ out rest,
    getIssueHierarchyFromRoot toLowerCase getIssue
      {| rp_issueKey := R1; rp_maxDepth := 1; rp_includeEpic := includeEpic |}
    = Some (RootedHierarchy out)
    ∧ renderedKeys (ro_treeLines out) = R1 :: rest ∧ rest ≡ₚ [C1; C2]
    ∧ ro_totalIssues out = 3 ∧ ro_maxDepth out = 1
    ∧ fs_lookups <$> fetchFromRoot toLowerCase getIssue
        {| rp_issueKey := R1; rp_maxDepth := 1; rp_includeEpic := includeEpic |}
      = Some [R1; C1; C2].
Proof.
  intros HR1 HC1 HC2 Hne1 Hne2 Hne3 Hg1 Hg2 Hg3 Hepic Hlinks Hl1 Hl2.
  destruct (depth_one_fetch toLowerCase getIssue includeEpic R1 C1 C2 r1 c1 c2 l1 l2)
    as (st & Hst & Hmap & Hlookups & Hp1 & Hp2); try done.
  destruct (depth_one_render R1 C1 C2 r1 c1 c2 st Hne1 Hne2 Hne3 Hmap Hp1 Hp2)
    as (lines & v' & rest & Hrun & Hkeys & Hperm).
  unfold getIssueHierarchyFromRoot. rewrite Hst. cbn -[buildTreeLines].
  rewrite Hrun. cbn -[buildTreeLines].
  assert (rget R1 (fs_issueMap st) = Some r1) as ->.
  { rewrite Hmap. simpl. by rewrite bool_decide_eq_true_2. }
  eexists _, rest. split; [done|]. simpl. rewrite Hmap, Hlookups. done.
Qed.

Lemma rooted_depth_one_three_nodes_witness :
  ∃ out rest,
    getIssueHierarchyFromRoot asciiLower familyLookup depthOne
    = Some (RootedHierarchy out)
    ∧ renderedKeys (ro_treeLines out) = "R-1" :: rest ∧ rest ≡ₚ ["C-1"; "C-2"]
    ∧ ro_totalIssues out = 3 ∧ ro_maxDepth out = 1
    ∧ fs_lookups <$> fetchFromRoot asciiLower familyLookup depthOne
      = Some ["R-1"; "C-1"; "C-2"].
Proof.
  apply (rooted_depth_one_three_nodes asciiLower familyLookup false
           "R-1" "C-1" "C-2"
           (task "R-1" ELNone [isParentOf "C-1"; isParentOf "C-2"])
           (task "C-1" ELNone [isParentOf "G-1"]) (task "C-2" ELNone [])
           (isParentOf "C-1") (isParentOf "C-2"));
    try reflexivity; try discriminate;
    (split_and!; [reflexivity | reflexivity | eexists; split; reflexivity | reflexivity]).
Defined.

(** ** Single-key lookups *)

Lemma fetchEpics_lookups getIssue toFetch :
  ∀ issueMap lookups,
  (fetchEpics getIssue toFetch issueMap lookups).2 = lookups ++ toFetch.
Proof.
  induction toFetch as [|k ks IH]; intros issueMap lookups; simpl.
  - by rewrite app_nil_r.
  - destruct (getIssue k); rewrite IH, <- app_assoc; done.
Qed.

Lemma fillIssueMap_NoDup issues :
  ∀ issueMap keys issueMap' keys',
  NoDup keys → fillIssueMap issues issueMap keys = Ok (issueMap', keys') → NoDup keys'.
Proof.
  induction issues as [|i issues IH]; intros issueMap keys issueMap' keys' Hnd; simpl.
  - by intros [= _ <-].
  - destruct (epicLinkTruthy _); [|by apply IH].
    destruct (collectEpicKey _) as [[epicKey|]|e]; [| |done].
    + apply IH. destruct (truthy epicKey); [by apply NoDup_setAdd|done].
    + by apply IH.
Qed.

Lemma addSearchedEpics_NoDup epics :
  ∀ issueMap keys, NoDup keys → NoDup (addSearchedEpics epics issueMap keys).2.
Proof.
  induction epics as [|e epics IH]; intros issueMap keys Hnd; simpl; [done|].
  by apply IH, NoDup_setAdd.
Qed.

Section ForestLookups.

Variable toLowerCase : string → string.
Variable searchIssues : string → nat → list string → Result SearchResponse.
Variable getIssue : Key → Result Issue.
Variable params : ForestParams.

(** The keys looked up by a forest build are distinct, and none of them
    was returned by the epics query. *)
Lemma forestLookups_spec :
  NoDup (forestLookups (assembleGraph toLowerCase searchIssues getIssue params))
  ∧ match searchIssues (epicJql params) 100 epicFields with
    | Ok epicsResponse =>
        Forall (fun k => k ∉ key <$> sr_issues epicsResponse)
          (forestLookups (assembleGraph toLowerCase searchIssues getIssue params))
    | Err _ =>
        forestLookups (assembleGraph toLowerCase searchIssues getIssue params) = []
    end.
Proof.
  unfold assembleGraph.
  destruct (searchIssues (forestJql params) _ hierarchyFields) as [response|e].
  2: { split; [apply NoDup_nil_2|]. by destruct (searchIssues (epicJql params) _ _). }
  destruct (fillIssueMap (sr_issues response) [] []) as [[issueMap keys]|e] eqn:Hfill.
  2: { split; [apply NoDup_nil_2|]. by destruct (searchIssues (epicJql params) _ _). }
  apply fillIssueMap_NoDup in Hfill; [|apply NoDup_nil_2].
  destruct (searchIssues (epicJql params) 100 epicFields) as [epicsResponse|e].
  2: { split; [apply NoDup_nil_2|done]. }
  pose proof (addSearchedEpics_NoDup (sr_issues epicsResponse) issueMap keys Hfill) as Hnd.
  destruct (addSearchedEpics _ issueMap keys) as [issueMap1 keys1]. simpl in Hnd.
  pose proof (fetchEpics_lookups getIssue
    (epicsToFetch keys1 (sr_issues epicsResponse)) issueMap1 []) as Hlog.
  destruct (fetchEpics _ _ issueMap1 []) as [issueMap2 lookups]. simpl in *. subst lookups.
  unfold epicsToFetch. split.
  - by apply NoDup_filter.
  - apply Forall_forall. by intros k [? _]%list_elem_of_filter.
Qed.

End ForestLookups.

(** C8 (counterexample): the forest build looks up E-1 although the
    initial query already returned its record, and the rooted build looks
    up C-1 although the link of R-1 carries its stub. *)
Lemma working_set_key_looked_up :
  (∃ run,
     getIssueHierarchy asciiLower workingSetSearch epicLookup structureUnavailable
       defaultParams = Some run
     ∧ fr_lookups run = ["E-1"])
  ∧ "E-1" ∈ key <$> epicInWorkingSet
  ∧ fs_lookups <$> fetchFromRoot asciiLower familyLookup depthOne
    = Some ["R-1"; "C-1"; "C-2"]
  ∧ (∃ root link stub,
       familyLookup "R-1" = Ok root ∧ link ∈ issuelinks root
       ∧ outwardIssue link = Some stub ∧ li_key stub = "C-1"
       ∧ is_Some (li_fields stub)).
Proof.
  split_and!.
  - eexists. split; vm_compute; reflexivity.
  - vm_compute. left.
  - vm_compute. reflexivity.
  - eexists _, (isParentOf "C-1"), _. vm_compute. split_and!; try reflexivity.
    + left.
    + by eexists.
Qed.

(** C8 (as the code has it): within one hierarchy-build call no key is
    the subject of two single-key lookups.  In forest mode the lookups are
    those of the assembly phase: distinct keys, none of which the epics
    query returned (a build that throws has looked up nothing).  In rooted
    mode the fetch phase always completes and its lookups are distinct. *)
Theorem single_key_lookups_unique (toLowerCase : string → string)
  (searchIssues : string → nat → list string → Result SearchResponse)
  (getIssue : Key → Result Issue)
  (getStructureHierarchy : string → nat → Result (list Element))
  (forest : ForestParams) (rooted : RootParams) :
  match getIssueHierarchy toLowerCase searchIssues getIssue getStructureHierarchy
          forest with
  | Some run =>
      fr_lookups run
      = forestLookups (assembleGraph toLowerCase searchIssues getIssue forest)
  | None => True
  end
  ∧ NoDup (forestLookups (assembleGraph toLowerCase searchIssues getIssue forest))
  ∧ match searchIssues (epicJql forest) 100 epicFields with
    | Ok epicsResponse =>
        Forall (fun k => k ∉ key <$> sr_issues epicsResponse)
          (forestLookups (assembleGraph toLowerCase searchIssues getIssue forest))
    | Err _ =>
        forestLookups (assembleGraph toLowerCase searchIssues getIssue forest) = []
    end
  ∧ ∃ st, fetchFromRoot toLowerCase getIssue rooted = Some st
          ∧ NoDup (fs_lookups st).
Proof.
  destruct (forestLookups_spec toLowerCase searchIssues getIssue forest) as [Hnd Hnew].
  split_and!; [|done..|].
  - unfold getIssueHierarchy.
    destruct (assembleGraph _ _ _ _) as [[[response g] lookups]|e]; [|done].
    destruct (folderOverlay _ _ _) as [ov|]; [|done]. simpl.
    by destruct (buildOutput _ _ _).
  - destruct (fetchFromRoot_total toLowerCase getIssue rooted)
      as (st & Hst & _ & (new & Hl & Hn & _) & _).
    exists st. split; [done|]. by rewrite Hl.
Qed.

(** ** The epic link of a raw record *)

(** The second loop never fails, and it records the GroupLink edge of an
    issue exactly when [groupLinkOf] yields a key. *)
Lemma forestLink_epicMap toLowerCase k g link :
  g_epicMap (forestLink toLowerCase k g link) = g_epicMap g.
Proof.
  unfold forestLink, coversEdge, parentEdge.
  repeat match goal with
         | |- context [if ?b then _ else _] => destruct b
         | |- context [match ?o with Some _ => _ | None => _ end] => destruct o
         end; done.
Qed.

Lemma processIssue_epicMap toLowerCase g issue :
  g_epicMap (processIssue toLowerCase g issue)
  = match groupLinkOf issue with
    | Some epicKey => pushEpic epicKey (key issue) (g_epicMap g)
    | None => g_epicMap g
    end.
Proof.
  unfold processIssue.
  assert (∀ links g0, g_epicMap (foldl (forestLink toLowerCase (key issue)) g0 links)
                      = g_epicMap g0) as Hlinks.
  { induction links as [|l links IH]; intros g0; simpl; [done|].
    by rewrite IH, forestLink_epicMap. }
  rewrite Hlinks. by destruct (groupLinkOf issue).
Qed.

(** The first loop throws for exactly one shape of the field. *)
Lemma collectEpicKey_throws e :
  (∃ err, collectEpicKey e = Err err)
  ↔ ∃ o_key o_id, e = ELObject o_key o_id ToStringNotCallable
                  ∧ truthy (default "" o_key) = false.
Proof.
  split.
  - intros [err Herr]. destruct e as [|s| |o_key o_id ts]; simpl in Herr; try done.
    destruct (truthy (default "" o_key)) eqn:Hk; [done|].
    destruct ts; try done. by exists o_key, o_id.
  - intros (o_key & o_id & -> & Hk). simpl. rewrite Hk. by eexists.
Qed.

(** C7 (failing input): for a record whose epic link is an object without
    [key] and [id] and with a [toString] member that is not a function,
    the second loop finds no key and would omit the edge, but the first
    loop has already thrown: the whole call fails. *)
Theorem epic_link_uncallable_toString_throws :
  groupLinkOf opaqueIssue = None
  ∧ getIssueHierarchy asciiLower opaqueSearch noSuchIssue structureUnavailable
      defaultParams
    = Some {| fr_result :=
                Err {| statusCode := None;
                       message := "Failed to build issue hierarchy: "
                                  +:+ "epicLink.toString is not a function" |};
              fr_lookups := [] |}.
Proof. split; vm_compute; reflexivity. Qed.

(** ** [transitionIssue] *)

Section TransitionFacts.

Variable toLowerCase : string → string.
Variable getIssueTransitions : Key → Result (list Transition).
Variable apiTransitionIssue : Key → string → string → Result unit.
Variable params : TransitionRequest.

Lemma findTransition_None transitions :
  findTransition toLowerCase params transitions = None
  ↔ ∀ t, t ∈ transitions →
         toLowerCase (tr_name t) ≠ toLowerCase (tq_transitionName params).
Proof.
  unfold findTransition. rewrite fmap_None, list_find_None, Forall_forall. done.
Qed.

Lemma findTransition_Some transitions t :
  findTransition toLowerCase params transitions = Some t →
  t ∈ transitions ∧ toLowerCase (tr_name t) = toLowerCase (tq_transitionName params).
Proof.
  unfold findTransition. intros ([i t'] & Hfind & ->)%fmap_Some.
  apply list_find_Some in Hfind as (Hi & Hp & _). simpl.
  split; [by eapply list_elem_of_lookup_2|done].
Qed.

End TransitionFacts.

(** C9: [transitionIssue] compares the requested name with the names of
    the available transitions after lower-casing both.  When none is
    equal, the call fails with an error that lists the available names,
    and the only request sent is the one that read the transitions.  When
    some transition is equal up to case, the transition request is sent
    for one that is. *)
Theorem transition_name_case_insensitive (toLowerCase : string → string)
  (getIssueTransitions : Key → Result (list Transition))
  (apiTransitionIssue : Key → string → string → Result unit)
  (params : TransitionRequest) (transitions : list Transition) :
  getIssueTransitions (tq_issueKey params) = Ok transitions →
  ((∀ t, t ∈ transitions →
         toLowerCase (tr_name t) ≠ toLowerCase (tq_transitionName params)) →
   transitionIssue toLowerCase getIssueTransitions apiTransitionIssue params
   = {| run_result :=
          Err {| statusCode := None;
                 message := "Failed to transition issue: "
                   +:+ ("Transition " +:+ dquote +:+ tq_transitionName params +:+ dquote
                        +:+ " not found. Available transitions: "
                        +:+ join ", " (tr_name <$> transitions)) |};
        run_calls := [CallGetIssueTransitions (tq_issueKey params)] |})
  ∧ (∀ t, t ∈ transitions →
          toLowerCase (tr_name t) = toLowerCase (tq_transitionName params) →
          ∃ t', t' ∈ transitions
                ∧ toLowerCase (tr_name t') = toLowerCase (tq_transitionName params)
                ∧ run_calls (transitionIssue toLowerCase getIssueTransitions
                               apiTransitionIssue params)
                  = [CallGetIssueTransitions (tq_issueKey params);
                     CallTransitionIssue (tq_issueKey params) (tr_id t')
                       (tq_comment params)]).
Proof.
  intros Hget. split.
  - intros Hnone. unfold transitionIssue. rewrite Hget.
    by rewrite (proj2 (findTransition_None toLowerCase params transitions) Hnone).
  - intros t Hin Hmatch. unfold transitionIssue. rewrite Hget.
    destruct (findTransition toLowerCase params transitions) as [t'|] eqn:Hfind.
    + apply findTransition_Some in Hfind as [Hin' Hmatch'].
      exists t'. split_and!; [done..|]. by destruct (apiTransitionIssue _ _ _).
    + exfalso. by eapply findTransition_None.
Qed.

Lemma transition_name_case_insensitive_witness :
  ((∀ t, t ∈ sampleTransitions →
         asciiLower (tr_name t) ≠ asciiLower (tq_transitionName (sampleRequest "DONE"))) →
   transitionIssue asciiLower (fun _ => Ok sampleTransitions) (fun _ _ _ => Ok tt)
     (sampleRequest "DONE")
   = {| run_result :=
          Err {| statusCode := None;
                 message := "Failed to transition issue: "
                   +:+ ("Transition " +:+ dquote
                        +:+ tq_transitionName (sampleRequest "DONE") +:+ dquote
                        +:+ " not found. Available transitions: "
                        +:+ join ", " (tr_name <$> sampleTransitions)) |};
        run_calls := [CallGetIssueTransitions (tq_issueKey (sampleRequest "DONE"))] |})
  ∧ (∀ t, t ∈ sampleTransitions →
          asciiLower (tr_name t) = asciiLower (tq_transitionName (sampleRequest "DONE")) →
          ∃ t', t' ∈ sampleTransitions
                ∧ asciiLower (tr_name t')
                  = asciiLower (tq_transitionName (sampleRequest "DONE"))
                ∧ run_calls (transitionIssue asciiLower (fun _ => Ok sampleTransitions)
                               (fun _ _ _ => Ok tt) (sampleRequest "DONE"))
                  = [CallGetIssueTransitions (tq_issueKey (sampleRequest "DONE"));
                     CallTransitionIssue (tq_issueKey (sampleRequest "DONE")) (tr_id t')
                       (tq_comment (sampleRequest "DONE"))]).
Proof.
  apply (transition_name_case_insensitive asciiLower (fun _ => Ok sampleTransitions)
           (fun _ _ _ => Ok tt) (sampleRequest "DONE") sampleTransitions).
  reflexivity.
Defined.

(** The two outcomes on the sample transitions. *)
Example transition_unknown_name :
  transitionIssue asciiLower (fun _ => Ok sampleTransitions) (fun _ _ _ => Ok tt)
    (sampleRequest "Reopen")
  = {| run_result :=
         Err {| statusCode := None;
                message := "Failed to transition issue: Transition " +:+ dquote
                           +:+ "Reopen" +:+ dquote
                           +:+ " not found. Available transitions: In Progress, Done" |};
       run_calls := [CallGetIssueTransitions "RIVER-1"] |}.
Proof. reflexivity. Qed.

Example transition_other_case :
  run_calls (transitionIssue asciiLower (fun _ => Ok sampleTransitions)
               (fun _ _ _ => Ok tt) (sampleRequest "DONE"))
  = [CallGetIssueTransitions "RIVER-1"; CallTransitionIssue "RIVER-1" "21" ""].
Proof. reflexivity. Qed.

(** ** [completeIssue] *)

(** What [trackIssue] stores is what [getLastIssue] reads back. *)
Lemma getLastIssue_trackIssue issueKey file :
  truthy issueKey = true → getLastIssue (trackIssue issueKey true file) = Some issueKey.
Proof. intros H. simpl. by rewrite H. Qed.

(** C10: when [completeIssue] is called without an issue key it consults
    the tracker.  With no last-viewed issue it returns the explanatory
    message; with one and without confirmation it returns the
    confirmation request for that issue.  In both cases it returns
    normally and sends no request at all. *)
Theorem complete_without_key (Done : Type)
  (completeKnownIssue : Key → CompleteParams → Run Done)
  (trackerFile : TrackerFile) (params : CompleteParams) :
  truthy (cp_issueKey params) = false →
  match getLastIssue trackerFile with
  | None =>
      completeIssue Done completeKnownIssue trackerFile params
      = {| run_result := Ok NoIssueToComplete; run_calls := [] |}
  | Some lastIssue =>
      if cp_confirm params
      then run_calls (completeIssue Done completeKnownIssue trackerFile params)
           = run_calls (completeKnownIssue lastIssue params)
      else completeIssue Done completeKnownIssue trackerFile params
           = {| run_result := Ok (ConfirmationRequested lastIssue); run_calls := [] |}
  end.
Proof.
  intros Hkey. unfold completeIssue. rewrite Hkey.
  destruct (getLastIssue trackerFile) as [lastIssue|]; [|done].
  by destruct (cp_confirm params).
Qed.

Lemma complete_without_key_witness :
  completeIssue unit (fun k _ => {| run_result := Ok tt; run_calls := [CallGetIssue k] |})
    (Tracked "RIVER-123")
    {| cp_issueKey := ""; cp_customResolution := ""; cp_confirm := false |}
  = {| run_result := Ok (ConfirmationRequested "RIVER-123"); run_calls := [] |}.
Proof.
  apply (complete_without_key unit
           (fun k _ => {| run_result := Ok tt; run_calls := [CallGetIssue k] |})
           (Tracked "RIVER-123")
           {| cp_issueKey := ""; cp_customResolution := ""; cp_confirm := false |}).
  reflexivity.
Defined.

(** * Further properties of the hierarchy builders *)

(** ** The epic dictionary of a forest build *)

Lemma filter_all {A} (P : A → Prop) `{∀ x, Decision (P x)} (l : list A) :
  (∀ x, x ∈ l → P x) → filter P l = l.
Proof.
  induction l as [|x l IH]; intros Hall; [done|].
  rewrite filter_cons_True by (apply Hall; left).
  f_equal. apply IH. intros y Hy. apply Hall. by right.
Qed.

Lemma rkeys_rset {V} (k : Key) (v : V) (r : Rec V) :
  rkeys (rset k v r) = setAdd k (rkeys r).
Proof.
  unfold setAdd, rkeys. induction r as [|[k' v'] r IH].
  - done.
  - cbn [rset]. destruct (decide (k = k')) as [<-|Hk].
    + rewrite (bool_decide_eq_true_2 (k = k)) by done. cbn [fmap list_fmap fst].
      rewrite bool_decide_eq_true_2; [done|left].
    + rewrite (bool_decide_eq_false_2 (k = k')) by done.
      cbn [fmap list_fmap fst] in *. rewrite IH.
      destruct (decide (k ∈ r.*1)) as [Hin|Hin].
      * rewrite bool_decide_eq_true_2 by done.
        rewrite bool_decide_eq_true_2; [done|by right].
      * rewrite bool_decide_eq_false_2 by done.
        rewrite bool_decide_eq_false_2; [done|].
        intros [?|?]%elem_of_cons; done.
Qed.

Lemma rget_is_Some_rkeys {V} (k : Key) (r : Rec V) : is_Some (rget k r) ↔ k ∈ rkeys r.
Proof.
  unfold rkeys. induction r as [|[k' v'] r IH]; simpl.
  - split; [by intros [? ?]|by intros ?%elem_of_nil].
  - case_bool_decide as Hk.
    + subst. split; [intros _; left|by eexists].
    + rewrite IH, elem_of_cons. split; [by right|by intros [?|?]].
Qed.

Lemma NoDup_rkeys_rset {V} (k : Key) (v : V) (r : Rec V) :
  NoDup (rkeys r) → NoDup (rkeys (rset k v r)).
Proof. rewrite rkeys_rset. apply NoDup_setAdd. Qed.

Lemma pushEpic_members e k m E :
  default [] (rget E (pushEpic e k m))
  = default [] (rget E m) ++ (if bool_decide (e = E) then [k] else []).
Proof.
  unfold pushEpic. case_bool_decide as He.
  - subst. by rewrite rget_rset_eq.
  - rewrite rget_rset_ne by done. by rewrite app_nil_r.
Qed.

Section EpicDictionary.

Variable toLowerCase : string → string.

Lemma processRelationships_fold issues :
  ∀ g E,
  default [] (rget E (g_epicMap (foldl (processIssue toLowerCase) g issues)))
  = default [] (rget E (g_epicMap g))
    ++ (key <$> filter (fun i => groupLinkOf i = Some E) issues).
Proof.
  induction issues as [|i issues IH]; intros g E; simpl.
  - by rewrite app_nil_r.
  - rewrite IH, processIssue_epicMap, filter_cons.
    destruct (groupLinkOf i) as [e|] eqn:Hi.
    + rewrite pushEpic_members. destruct (decide (Some e = Some E)) as [[= ->]|Hne].
      * rewrite bool_decide_eq_true_2 by done. by rewrite <- app_assoc.
      * rewrite bool_decide_eq_false_2 by congruence. by rewrite app_nil_r.
    + destruct (decide (None = Some E)); done.
Qed.

Lemma processRelationships_keys issues :
  ∀ g,
  rkeys (g_epicMap (foldl (processIssue toLowerCase) g issues))
  = foldl (fun s x => setAdd x s) (rkeys (g_epicMap g)) (omap groupLinkOf issues).
Proof.
  induction issues as [|i issues IH]; intros g; simpl; [done|].
  rewrite IH, processIssue_epicMap.
  destruct (groupLinkOf i) as [e|]; [|done]. simpl.
  unfold pushEpic. by rewrite rkeys_rset.
Qed.

Lemma processRelationships_members_nonempty issues :
  ∀ g, (∀ E l, rget E (g_epicMap g) = Some l → l ≠ []) →
  ∀ E l, rget E (g_epicMap (foldl (processIssue toLowerCase) g issues)) = Some l → l ≠ [].
Proof.
  induction issues as [|i issues IH]; intros g Hg; simpl; [done|].
  apply IH. intros E l. rewrite processIssue_epicMap.
  destruct (groupLinkOf i) as [e|]; [|apply Hg].
  unfold pushEpic. destruct (decide (e = E)) as [->|Hne].
  - rewrite rget_rset_eq. intros [= <-]. by destruct (default [] (rget E (g_epicMap g))).
  - rewrite rget_rset_ne by done. apply Hg.
Qed.

End EpicDictionary.

Lemma epicKeys_arrayFromSet (toLowerCase : string → string) (issues : list Issue)
  (issueMap : Rec Issue) :
  allEpicKeysInMap (processRelationships toLowerCase issues issueMap)
  = arrayFromSet (omap groupLinkOf issues).
Proof.
  unfold allEpicKeysInMap, processRelationships, arrayFromSet.
  rewrite <- (processRelationships_keys toLowerCase issues
    {| g_issueMap := issueMap; g_epicMap := []; g_coversMap := ∅; g_parentMap := ∅ |}).
  apply filter_all. intros E [l Hl]%rget_is_Some_rkeys. rewrite Hl. simpl.
  eapply processRelationships_members_nonempty; [|exact Hl]. done.
Qed.


(** ** The adjacency dictionaries of a forest build *)

Lemma elem_of_lookupList_addEdge (m : gmap Key (list Key)) p c p' c' :
  c' ∈ lookupList (addEdge p c m) p' ↔ c' ∈ lookupList m p' ∨ (p' = p ∧ c' = c).
Proof.
  unfold addEdge, lookupList. destruct (decide (p = p')) as [<-|Hne].
  - rewrite lookup_insert_eq. simpl. case_bool_decide as Hc.
    + split; [by left|]. intros [?|[_ ->]]; done.
    + rewrite elem_of_app, list_elem_of_singleton. split.
      * intros [?| ->]; [by left|by right].
      * intros [?|[_ ->]]; [by left|by right].
  - rewrite lookup_insert_ne by done. split; [by left|]. intros [?|[? _]]; done.
Qed.

Lemma NoDup_lookupList_addEdge (m : gmap Key (list Key)) p c p' :
  NoDup (lookupList m p') → NoDup (lookupList (addEdge p c m) p').
Proof.
  unfold addEdge, lookupList. destruct (decide (p = p')) as [<-|Hne].
  - rewrite lookup_insert_eq. simpl. case_bool_decide as Hc; [done|].
    intros Hnd. apply NoDup_app. split_and!; [done| |apply NoDup_singleton].
    by intros x Hx ->%list_elem_of_singleton.
  - by rewrite lookup_insert_ne.
Qed.

Lemma recordsKept_refl m : recordsKept m m.
Proof. by intros k v. Qed.

Lemma recordsKept_trans m1 m2 m3 : recordsKept m1 m2 → recordsKept m2 m3 → recordsKept m1 m3.
Proof. intros H1 H2 k v Hk. by apply H2, H1. Qed.

Lemma recordsKept_rsetIfAbsent k v m : recordsKept m (rsetIfAbsent k v m).
Proof.
  unfold rsetIfAbsent. destruct (rget k m) eqn:Hk; [apply recordsKept_refl|].
  intros k' v' Hk'. rewrite rget_rset_ne; [done|]. intros ->. congruence.
Qed.

Lemma rsetIfAbsent_is_Some {V} (k : Key) (v : V) (m : Rec V) :
  is_Some (rget k (rsetIfAbsent k v m)).
Proof.
  unfold rsetIfAbsent. destruct (rget k m) eqn:Hk; [by rewrite Hk|].
  by rewrite rget_rset_eq.
Qed.

Lemma recordsKept_is_Some m m' k : recordsKept m m' → is_Some (rget k m) → is_Some (rget k m').
Proof. intros Hkept [v Hv]. exists v. by apply Hkept. Qed.


Lemma edgeStep_refl key g : edgeStep key g g.
Proof. split_and!; [apply recordsKept_refl|done..]. Qed.

Lemma edgeStep_trans key g1 g2 g3 : edgeStep key g1 g2 → edgeStep key g2 g3 → edgeStep key g1 g3.
Proof.
  intros (Hk1 & Hd1 & Hr1) (Hk2 & Hd2 & Hr2).
  split_and!; [by eapply recordsKept_trans|auto|].
  intros Hkey Hend. apply Hr2; [by eapply recordsKept_is_Some|by apply Hr1].
Qed.

(** An edge between the issue [key] and the issue embedded in the link:
    the embedded issue gets a stub unless it has a record already. *)
Lemma coversEdge_step key parent child other g :
  (parent = key ∧ child = li_key other) ∨ (parent = li_key other ∧ child = key) →
  edgeStep key g (coversEdge parent child other g).
Proof.
  intros Hends. unfold coversEdge.
  destruct (truthy parent && truthy child); [|apply edgeStep_refl].
  split_and!; simpl.
  - apply recordsKept_rsetIfAbsent.
  - intros [Hc Hp]. split; simpl; [|done].
    intros p. by apply NoDup_lookupList_addEdge.
  - intros Hkey Hend p c. simpl.
    assert (is_Some (rget key (rsetIfAbsent (li_key other)
              (stubIssue (li_key other) other) (g_issueMap g)))) as Hkey'.
    { eapply recordsKept_is_Some; [apply recordsKept_rsetIfAbsent|done]. }
    pose proof (rsetIfAbsent_is_Some (li_key other) (stubIssue (li_key other) other)
                  (g_issueMap g)) as Hother.
    rewrite elem_of_lookupList_addEdge.
    intros [[Hold|[-> ->]]|Hold].
    + destruct (Hend p c (or_introl Hold)) as [H1 H2].
      split; (eapply recordsKept_is_Some; [apply recordsKept_rsetIfAbsent|done]).
    + destruct Hends as [[-> ->]|[-> ->]]; done.
    + destruct (Hend p c (or_intror Hold)) as [H1 H2].
      split; (eapply recordsKept_is_Some; [apply recordsKept_rsetIfAbsent|done]).
Qed.

Lemma parentEdge_step key parent child other g :
  (parent = key ∧ child = li_key other) ∨ (parent = li_key other ∧ child = key) →
  edgeStep key g (parentEdge parent child other g).
Proof.
  intros Hends. unfold parentEdge.
  destruct (truthy parent && truthy child); [|apply edgeStep_refl].
  split_and!; simpl.
  - apply recordsKept_rsetIfAbsent.
  - intros [Hc Hp]. split; simpl; [done|].
    intros p. by apply NoDup_lookupList_addEdge.
  - intros Hkey Hend p c. simpl.
    assert (is_Some (rget key (rsetIfAbsent (li_key other)
              (stubIssue (li_key other) other) (g_issueMap g)))) as Hkey'.
    { eapply recordsKept_is_Some; [apply recordsKept_rsetIfAbsent|done]. }
    pose proof (rsetIfAbsent_is_Some (li_key other) (stubIssue (li_key other) other)
                  (g_issueMap g)) as Hother.
    rewrite elem_of_lookupList_addEdge.
    intros [Hold|[Hold|[-> ->]]].
    + destruct (Hend p c (or_introl Hold)) as [H1 H2].
      split; (eapply recordsKept_is_Some; [apply recordsKept_rsetIfAbsent|done]).
    + destruct (Hend p c (or_intror Hold)) as [H1 H2].
      split; (eapply recordsKept_is_Some; [apply recordsKept_rsetIfAbsent|done]).
    + destruct Hends as [[-> ->]|[-> ->]]; done.
Qed.

Lemma forestLink_step toLowerCase key g link :
  edgeStep key g (forestLink toLowerCase key g link).
Proof.
  unfold forestLink. cbv zeta.
  match goal with |- edgeStep _ _ (if _ then _ else ?g1) =>
    apply edgeStep_trans with (g2 := g1) end.
  - destruct (isRequirementLink _ _); [|apply edgeStep_refl].
    match goal with |- edgeStep _ _ (match _ with Some _ => _ | None => ?g1 end) =>
      apply edgeStep_trans with (g2 := g1) end.
    + destruct (outwardIs toLowerCase "covers" link) as [o|];
        [apply coversEdge_step; by left|apply edgeStep_refl].
    + destruct (inwardIs toLowerCase "covered by" link) as [i|];
        [apply coversEdge_step; by right|apply edgeStep_refl].
  - destruct (isParentChildLink _ _); [|apply edgeStep_refl].
    match goal with |- edgeStep _ _ (match _ with Some _ => _ | None => ?g1 end) =>
      apply edgeStep_trans with (g2 := g1) end.
    + destruct (outwardIs toLowerCase "is parent of" link) as [o|];
        [apply parentEdge_step; by left|apply edgeStep_refl].
    + destruct (inwardIs toLowerCase "is child of" link) as [i|];
        [apply parentEdge_step; by right|apply edgeStep_refl].
Qed.

Lemma forestLinks_step toLowerCase key links :
  ∀ g, edgeStep key g (foldl (forestLink toLowerCase key) g links).
Proof.
  induction links as [|l links IH]; intros g; simpl; [apply edgeStep_refl|].
  eapply edgeStep_trans; [apply forestLink_step|apply IH].
Qed.

Lemma processIssue_step toLowerCase g issue :
  edgeStep (key issue) g (processIssue toLowerCase g issue).
Proof.
  unfold processIssue.
  eapply edgeStep_trans; [|apply forestLinks_step].
  destruct (groupLinkOf issue); [|apply edgeStep_refl].
  split_and!; simpl; try done. apply recordsKept_refl.
Qed.

Lemma processRelationships_step toLowerCase issues :
  ∀ g,
  recordsKept (g_issueMap g) (g_issueMap (foldl (processIssue toLowerCase) g issues))
  ∧ (duplicateFree g → duplicateFree (foldl (processIssue toLowerCase) g issues))
  ∧ ((∀ i, i ∈ issues → is_Some (rget (key i) (g_issueMap g))) →
     endpointsRecorded g →
     endpointsRecorded (foldl (processIssue toLowerCase) g issues)).
Proof.
  induction issues as [|i issues IH]; intros g; simpl.
  - split_and!; [apply recordsKept_refl|done..].
  - destruct (processIssue_step toLowerCase g i) as (Hk & Hd & He).
    destruct (IH (processIssue toLowerCase g i)) as (Hk' & Hd' & He').
    split_and!; [by eapply recordsKept_trans|auto|].
    intros Hrec Hend. apply He'.
    + intros j Hj. eapply recordsKept_is_Some; [done|]. apply Hrec. by right.
    + apply He; [|done]. apply Hrec. by left.
Qed.

(** The records after the first loop are issues of the query result,
    each under its own key, and every issue's key has one. *)
Lemma fillIssueMap_records (all : list Issue) issues :
  ∀ issueMap keys issueMap' keys',
  (∀ i, i ∈ issues → i ∈ all) →
  (∀ k r, rget k issueMap = Some r → r ∈ all ∧ key r = k) →
  fillIssueMap issues issueMap keys = Ok (issueMap', keys') →
  (∀ k r, rget k issueMap' = Some r → r ∈ all ∧ key r = k)
  ∧ (∀ i, i ∈ issues → is_Some (rget (key i) issueMap'))
  ∧ (∀ k, is_Some (rget k issueMap) → is_Some (rget k issueMap')).
Proof.
  induction issues as [|i issues IH]; intros issueMap keys issueMap' keys' Hall Hm; simpl.
  - intros [= <- <-]. split_and!; [done| |done]. by intros i ?%elem_of_nil.
  - assert (∀ k r, rget k (rset (key i) i issueMap) = Some r → r ∈ all ∧ key r = k) as Hm1.
    { intros k r. destruct (decide (key i = k)) as [<-|Hne].
      - rewrite rget_rset_eq. intros [= <-]. split; [apply Hall; left|done].
      - rewrite rget_rset_ne by done. apply Hm. }
    assert (∀ keys1, fillIssueMap issues (rset (key i) i issueMap) keys1
                     = Ok (issueMap', keys') →
            (∀ k r, rget k issueMap' = Some r → r ∈ all ∧ key r = k)
            ∧ (∀ j, j ∈ i :: issues → is_Some (rget (key j) issueMap'))
            ∧ (∀ k, is_Some (rget k issueMap) → is_Some (rget k issueMap'))) as Hrest.
    { intros keys1 Hrun.
      apply IH in Hrun as (H1 & H2 & H3); [|intros; apply Hall; by right|done].
      split_and!; [done| |].
      - intros j [->|Hj]%elem_of_cons; [|by apply H2].
        apply H3. by rewrite rget_rset_eq.
      - intros k Hk. apply H3. destruct (decide (key i = k)) as [<-|Hne].
        + by rewrite rget_rset_eq.
        + by rewrite rget_rset_ne. }
    destruct (epicLinkTruthy _); [|apply Hrest].
    destruct (collectEpicKey _) as [[epicKey|]|e]; [apply Hrest|apply Hrest|done].
Qed.

Lemma recordsKept_addSearchedEpics epics :
  ∀ issueMap keys, recordsKept issueMap (addSearchedEpics epics issueMap keys).1.
Proof.
  induction epics as [|e epics IH]; intros issueMap keys; simpl; [apply recordsKept_refl|].
  eapply recordsKept_trans; [apply recordsKept_rsetIfAbsent|apply IH].
Qed.

Lemma recordsKept_fetchEpics getIssue toFetch :
  ∀ issueMap lookups, recordsKept issueMap (fetchEpics getIssue toFetch issueMap lookups).1.
Proof.
  induction toFetch as [|k ks IH]; intros issueMap lookups; simpl; [apply recordsKept_refl|].
  destruct (getIssue k) as [epic|e]; [|apply IH].
  eapply recordsKept_trans; [apply recordsKept_rsetIfAbsent|apply IH].
Qed.

Section AssembledGraph.

Variable toLowerCase : string → string.
Variable searchIssues : string → nat → list string → Result SearchResponse.
Variable getIssue : Key → Result Issue.
Variable params : ForestParams.

(** What is known of an assembled graph. *)
Lemma assembleGraph_inv response g lookups :
  assembleGraph toLowerCase searchIssues getIssue params = Ok (response, g, lookups) →
  duplicateFree g ∧ endpointsRecorded g
  ∧ (∀ i, i ∈ sr_issues response →
          ∃ r, rget (key i) (g_issueMap g) = Some r
               ∧ r ∈ sr_issues response ∧ key r = key i)
  ∧ g_epicMap g
    = g_epicMap (processRelationships toLowerCase (sr_issues response) []).
Proof.
  unfold assembleGraph.
  destruct (searchIssues (forestJql params) _ hierarchyFields) as [response0|e]; [|done].
  destruct (fillIssueMap (sr_issues response0) [] []) as [[im0 keys0]|e] eqn:Hfill; [|done].
  destruct (searchIssues (epicJql params) 100 epicFields) as [epicsResponse|e]; [|done].
  pose proof (recordsKept_addSearchedEpics (sr_issues epicsResponse) im0 keys0) as Hk1.
  destruct (addSearchedEpics _ im0 keys0) as [im1 keys1]. simpl in Hk1.
  pose proof (recordsKept_fetchEpics getIssue
    (epicsToFetch keys1 (sr_issues epicsResponse)) im1 []) as Hk2.
  destruct (fetchEpics _ _ im1 []) as [im2 lookups2]. simpl in Hk2.
  intros [= <- <- <-].
  apply (fillIssueMap_records (sr_issues response0)) in Hfill
    as (Hrecs & Hhas & _); [|done|by intros k r [=]].
  unfold processRelationships.
  match goal with |- context [foldl _ ?g0 _] =>
    destruct (processRelationships_step toLowerCase (sr_issues response0) g0)
      as (Hk3 & Hd & He) end.
  simpl in *. split_and!.
  - apply Hd. split; intros p; apply NoDup_nil_2.
  - apply He.
    + intros i Hi. eapply recordsKept_is_Some; [|by apply Hhas].
      by eapply recordsKept_trans.
    + intros p c [H|H]; by apply elem_of_nil in H.
  - intros i Hi. destruct (Hhas i Hi) as [r Hr]. exists r.
    split; [by apply Hk3, Hk2, Hk1|]. by apply Hrecs.
  - assert (∀ issues g1 g2, g_epicMap g1 = g_epicMap g2 →
      g_epicMap (foldl (processIssue toLowerCase) g1 issues)
      = g_epicMap (foldl (processIssue toLowerCase) g2 issues)) as Hepic.
    { induction issues as [|i issues IH]; intros g1 g2 Heq; simpl; [done|].
      apply IH. by rewrite !processIssue_epicMap, Heq. }
    by apply Hepic.
Qed.

End AssembledGraph.

(** X2: the second loop of a forest build never records an edge twice:
    whatever the query returned, every adjacency list of the Coverage and
    of the Containment dictionary is free of duplicates. *)
Theorem forest_adjacency_duplicate_free (toLowerCase : string → string)
  (issues : list Issue) (issueMap : Rec Issue) (p : Key) :
  NoDup (lookupList (g_coversMap (processRelationships toLowerCase issues issueMap)) p)
  ∧ NoDup (lookupList (g_parentMap (processRelationships toLowerCase issues issueMap)) p).
Proof.
  unfold processRelationships.
  match goal with |- context [foldl _ ?g0 _] =>
    destruct (processRelationships_step toLowerCase issues g0) as (_ & Hd & _) end.
  destruct Hd as [Hc Hp]; [|by split].
  split; intros q; apply NoDup_nil_2.
Qed.

(** X3: in the graph assembled by a forest build both ends of every
    Coverage or Containment edge have a record, the issue's own or a stub
    made from the link; the tree walk therefore never meets a child
    without a record. *)
Theorem forest_edge_endpoints_have_records (toLowerCase : string → string)
  (searchIssues : string → nat → list string → Result SearchResponse)
  (getIssue : Key → Result Issue) (params : ForestParams) response g lookups :
  assembleGraph toLowerCase searchIssues getIssue params = Ok (response, g, lookups) →
  ∀ p c, c ∈ allChildren (g_coversMap g) (g_parentMap g) p →
         is_Some (rget p (g_issueMap g)) ∧ is_Some (rget c (g_issueMap g)).
Proof.
  intros Hgraph p c Hc. apply assembleGraph_inv in Hgraph as (_ & Hend & _).
  apply Hend. by apply elem_of_allChildren.
Qed.

Lemma forest_edge_endpoints_have_records_witness :
  is_Some (rget "T-1" (g_issueMap twoEpicGraph))
  ∧ is_Some (rget "T-2" (g_issueMap twoEpicGraph)).
Proof.
  apply (forest_edge_endpoints_have_records asciiLower twoEpicSearch noSuchIssue
           defaultParams {| sr_issues := twoEpicIssues; sr_total := 2 |} twoEpicGraph []).
  - vm_compute. reflexivity.
  - vm_compute. left.
Defined.

(** X4: a key returned by the query of a forest build keeps a record of
    the query result: neither the stub of a link nor an epic fetched later
    takes its place. *)
Theorem forest_query_records_kept (toLowerCase : string → string)
  (searchIssues : string → nat → list string → Result SearchResponse)
  (getIssue : Key → Result Issue) (params : ForestParams) response g lookups :
  assembleGraph toLowerCase searchIssues getIssue params = Ok (response, g, lookups) →
  ∀ i, i ∈ sr_issues response →
       ∃ r, rget (key i) (g_issueMap g) = Some r
            ∧ r ∈ sr_issues response ∧ key r = key i.
Proof. intros Hgraph. by apply assembleGraph_inv in Hgraph as (_ & _ & Hrec & _). Qed.

Lemma forest_query_records_kept_witness :
  ∃ r, rget "T-2" (g_issueMap twoEpicGraph) = Some r
       ∧ r ∈ twoEpicIssues ∧ key r = "T-2".
Proof.
  apply (forest_query_records_kept asciiLower twoEpicSearch noSuchIssue
           defaultParams {| sr_issues := twoEpicIssues; sr_total := 2 |} twoEpicGraph []
           eq_refl (task "T-2" (ELString "E-2") [])).
  vm_compute. right. left.
Defined.

(** ** When a forest build fails *)

Lemma collectEpicKey_uncallable e :
  (∃ err, collectEpicKey e = Err err) ↔ uncallableEpicLink e = true.
Proof.
  rewrite collectEpicKey_throws. split.
  - intros (o_key & o_id & -> & Hk). simpl. by rewrite Hk.
  - destruct e as [|s| |o_key o_id []]; simpl; try done.
    intros Hk. exists o_key, o_id. split; [done|]. by destruct (truthy _).
Qed.

Lemma fillIssueMap_throws issues :
  ∀ issueMap keys,
  (∃ err, fillIssueMap issues issueMap keys = Err err)
  ↔ Exists (fun i => uncallableEpicLink (customfield_10102 i) = true) issues.
Proof.
  induction issues as [|i issues IH]; intros issueMap keys; simpl.
  - rewrite Exists_nil. split; [by intros [? ?]|done].
  - rewrite Exists_cons.
    destruct (uncallableEpicLink (customfield_10102 i)) eqn:Hshape.
    + assert (epicLinkTruthy (customfield_10102 i) = true) as ->.
      { by destruct (customfield_10102 i) as [|s| |? ? []]. }
      apply collectEpicKey_uncallable in Hshape as [err ->].
      split; [by left|by eexists].
    + assert (∀ err, collectEpicKey (customfield_10102 i) ≠ Err err) as Hok.
      { intros err Herr. assert (uncallableEpicLink (customfield_10102 i) = true)
          by (apply collectEpicKey_uncallable; by eexists). congruence. }
      destruct (epicLinkTruthy _).
      * destruct (collectEpicKey _) as [[epicKey|]|err]; [| |by destruct (Hok err)];
          rewrite IH; split; [by right|by intros [?|?]|by right|by intros [?|?]].
      * rewrite IH. split; [by right|by intros [?|?]].
Qed.


(** ** The nodes of a walk *)

Lemma forEachChild_appends (Q : RenderedNode → Prop) rec cs :
  (∀ c l w r, rec c l w = Some r → Forall Q r.1) →
  ∀ i n lines v lines' v',
  forEachChild rec cs i n lines v = Some (lines', v') →
  ∃ new, lines' = lines ++ new ∧ Forall Q new.
Proof.
  intros Hrec. induction cs as [|c cs IH]; intros i n lines v lines' v'; simpl.
  - intros [= <- <-]. exists []. by rewrite app_nil_r.
  - destruct (rec c (i =? n - 1)%nat v) as [[childLines w]|] eqn:Hc; [|done].
    intros Hrest. apply IH in Hrest as (new & -> & Hnew).
    exists (childLines ++ new). rewrite app_assoc. split; [done|].
    apply Forall_app. split; [|done]. by apply Hrec in Hc.
Qed.

Section WalkNodes.

Variable issueMap : Rec Issue.
Variables coversMap parentMap : gmap Key (list Key).

(** Every rendered node carries the record of its key and lies at or
    below the level at which the walk started. *)
Lemma buildTreeLines_nodes fuel :
  ∀ issueKey level prefix isLast visited lines visited',
  buildTreeLines issueMap coversMap parentMap fuel issueKey level prefix isLast visited
  = Some (lines, visited') →
  Forall (fun n => rget (rn_key n) issueMap = Some (rn_issue n) ∧ level ≤ rn_level n) lines.
Proof.
  induction fuel as [|fuel IH]; intros issueKey level prefix isLast visited lines visited';
    simpl; [done|].
  case_bool_decide; [by intros [= <- <-]|].
  destruct (rget issueKey issueMap) as [issue|] eqn:Hissue; [|by intros [= <- <-]].
  intros Hrun.
  apply forEachChild_appends
    with (Q := fun n => rget (rn_key n) issueMap = Some (rn_issue n) ∧ level ≤ rn_level n)
    in Hrun as (new & -> & Hnew).
  - apply Forall_app. split; [|done]. apply Forall_singleton. by split.
  - intros c l w [ls w'] Hc. apply IH in Hc. simpl.
    eapply Forall_impl; [exact Hc|]. intros n [? ?]. split; [done|lia].
Qed.

(** A walk that renders anything renders its starting key first, at the
    starting level, and everything else strictly below. *)
Lemma buildTreeLines_head fuel issueKey level prefix isLast visited lines visited' :
  buildTreeLines issueMap coversMap parentMap fuel issueKey level prefix isLast visited
  = Some (lines, visited') →
  lines = []
  ∨ ∃ n rest, lines = n :: rest ∧ rn_key n = issueKey ∧ rn_level n = level
              ∧ rn_prefix n = prefix ∧ rn_isLast n = isLast
              ∧ Forall (fun m => level < rn_level m) rest.
Proof.
  destruct fuel as [|fuel]; simpl; [done|].
  case_bool_decide as Hvis; [intros [= <- <-]; by left|].
  destruct (rget issueKey issueMap) as [issue|] eqn:Hissue; [|intros [= <- <-]; by left].
  intros Hrun. right.
  apply forEachChild_appends with (Q := fun m => level < rn_level m)
    in Hrun as (new & -> & Hnew).
  - by eexists _, new.
  - intros c l w [ls w'] Hc. apply buildTreeLines_nodes in Hc. simpl.
    eapply Forall_impl; [exact Hc|]. intros n [_ ?]. lia.
Qed.

End WalkNodes.

(** ** What a rooted build records *)

Section RootedRecords.

Variable toLowerCase : string → string.
Variable getIssue : Key → Result Issue.
Variable params : RootParams.

(** A property of the fetch state that the edge insertions and the two
    outcomes of a lookup keep is kept by the whole fetch. *)
Variable P : FetchState → Prop.
Hypothesis P_addParent : ∀ p c st, P st → P (addParent p c st).
Hypothesis P_addCovers : ∀ p c st, P st → P (addCovers p c st).
Hypothesis P_addEpic : ∀ e k st, P st → P (addEpicUnique e k st).
Hypothesis P_failed : ∀ key e st,
  key ∉ fs_visited st → getIssue key = Err e → P st → P (beginLookup key st).
Hypothesis P_fetched : ∀ key issue st,
  key ∉ fs_visited st → getIssue key = Ok issue → P st →
  P (setIssue key issue (beginLookup key st)).

Lemma forEachM_keeps {A} (f : A → FetchState → option FetchState) xs :
  (∀ x s s', f x s = Some s' → P s → P s') →
  ∀ st st', forEachM f xs st = Some st' → P st → P st'.
Proof.
  intros Hf. induction xs as [|x xs IH]; intros st st'; simpl.
  - by intros [= <-].
  - destruct (f x st) as [s|] eqn:Hx; [|done]. simpl. intros Hrun HP.
    eapply IH; [done|]. by eapply Hf.
Qed.

Lemma followEdge_keeps add recur parent child next st st' :
  (∀ p c s, P s → P (add p c s)) →
  (∀ k s s', recur k s = Some s' → P s → P s') →
  followEdge add recur parent child next st = Some st' → P st → P st'.
Proof.
  intros Hadd Hrec. unfold followEdge.
  destruct (truthy parent && truthy child); [|by intros [= <-]].
  case_bool_decide.
  - intros [= <-] ?. by apply Hadd.
  - intros Hrun HP. eapply Hrec; [done|]. by apply Hadd.
Qed.

Lemma fetchLink_keeps recur key link st st' :
  (∀ k s s', recur k s = Some s' → P s → P s') →
  fetchLink toLowerCase recur key link st = Some st' → P st → P st'.
Proof.
  intros Hrec. unfold fetchLink. intros Hrun HP.
  apply bind_Some in Hrun as (s2 & H1 & H2).
  assert (P s2) as HP2.
  { clear H2. destruct (isRequirementLink _ _); [|by injection H1 as <-].
    apply bind_Some in H1 as (s1 & H0 & H1).
    assert (P s1) as HP1.
    { clear H1. destruct (outwardIs _ _ _); [|by injection H0 as <-].
      by eapply followEdge_keeps in H0. }
    clear H0. destruct (inwardIs _ _ _); [|by injection H1 as <-].
    by eapply followEdge_keeps in H1. }
  clear H1. destruct (isParentChildLink _ _); [|by injection H2 as <-].
  apply bind_Some in H2 as (s3 & H2 & H3).
  assert (P s3) as HP3.
  { clear H3. destruct (outwardIs _ _ _); [|by injection H2 as <-].
    by eapply followEdge_keeps in H2. }
  clear H2. destruct (inwardIs _ _ _); [|by injection H3 as <-].
  by eapply followEdge_keeps in H3.
Qed.

Lemma fetchRelated_keeps recur key issue st st' :
  (∀ k s s', recur k s = Some s' → P s → P s') →
  fetchRelated toLowerCase params recur key issue st = Some st' → P st → P st'.
Proof.
  intros Hrec. unfold fetchRelated. intros Hrun HP.
  apply bind_Some in Hrun as (s1 & H1 & H2).
  assert (P s1) as HP1.
  { clear H2. destruct (rootedEpicKey _) as [epicKey|]; [|by injection H1 as <-].
    cbv zeta in H1. destruct (_ && _).
    - eapply Hrec; [done|]. by apply P_addEpic.
    - injection H1 as <-. by apply P_addEpic. }
  eapply forEachM_keeps; [|done..].
  intros link s s'. by apply fetchLink_keeps.
Qed.

Lemma fetchIssueHierarchy_keeps fuel :
  ∀ key depth st st',
  fetchIssueHierarchy toLowerCase getIssue params fuel key depth st = Some st' →
  P st → P st'.
Proof.
  induction fuel as [|fuel IH]; intros key depth st st'; simpl.
  - destruct (_ || _); [|done]. by intros [= <-].
  - destruct (effectiveMaxDepth params <? depth)%nat; simpl.
    { by intros [= <-]. }
    case_bool_decide as Hvis. { by intros [= <-]. }
    destruct (getIssue key) as [issue|e] eqn:Hget.
    + intros Hrun HP. eapply fetchRelated_keeps; [|done|by apply P_fetched].
      intros k s s'. apply IH.
    + intros [= <-] HP. by eapply P_failed.
Qed.

End RootedRecords.

Lemma recordsFetched_edges getIssue st st' :
  fs_issueMap st' = fs_issueMap st → fs_visited st' = fs_visited st →
  fs_lookups st' = fs_lookups st →
  recordsFetched getIssue st → recordsFetched getIssue st'.
Proof.
  unfold recordsFetched, recordsVisited. intros -> -> ->. done.
Qed.

Lemma recordsFetched_failed getIssue key e st :
  getIssue key = Err e → recordsFetched getIssue st →
  recordsFetched getIssue (beginLookup key st).
Proof.
  intros Hget (Hvals & Hlen & Hvis). split_and!; simpl.
  - done.
  - rewrite filter_app, length_app, Hlen.
    rewrite filter_cons_False, filter_nil; [simpl; lia|]. by rewrite Hget.
  - intros k Hk. apply Hvis in Hk. set_solver.
Qed.

Lemma recordsFetched_fetched getIssue key issue st :
  key ∉ fs_visited st → getIssue key = Ok issue → recordsFetched getIssue st →
  recordsFetched getIssue (setIssue key issue (beginLookup key st)).
Proof.
  intros Hfresh Hget (Hvals & Hlen & Hvis). split_and!; simpl.
  - intros k v. destruct (decide (key = k)) as [<-|Hne].
    + rewrite rget_rset_eq. by intros [= <-].
    + rewrite rget_rset_ne by done. apply Hvals.
  - rewrite rkeys_rset. unfold setAdd. rewrite bool_decide_eq_false_2.
    + rewrite filter_app, !length_app, Hlen.
      rewrite filter_cons_True, filter_nil; [done|]. by rewrite Hget.
    + intros Hin%rget_is_Some_rkeys. by apply Hfresh, Hvis.
  - intros k. unfold recordsVisited in Hvis. simpl.
    destruct (decide (key = k)) as [<-|Hne]; [set_solver|].
    rewrite rget_rset_ne by done. intros Hk%Hvis. set_solver.
Qed.

Lemma fetchFromRoot_recordsFetched toLowerCase getIssue params st :
  fetchFromRoot toLowerCase getIssue params = Some st → recordsFetched getIssue st.
Proof.
  intros Hrun. unfold fetchFromRoot in Hrun.
  eapply fetchIssueHierarchy_keeps with (P := recordsFetched getIssue) in Hrun; [done|..].
  - intros. by eapply recordsFetched_edges.
  - intros. by eapply recordsFetched_edges.
  - intros. by eapply recordsFetched_edges.
  - intros. by eapply recordsFetched_failed.
  - intros. by eapply recordsFetched_fetched.
  - split_and!; [done|done|]. by intros k [? ?].
Qed.

(** X6: in rooted mode every rendered node carries the record that the
    lookup of its own key returned, and the reported number of issues is
    the number of lookups that succeeded. *)
Theorem rooted_nodes_are_fetched_records (toLowerCase : string → string)
  (getIssue : Key → Result Issue) (params : RootParams) :
  ∃ st, fetchFromRoot toLowerCase getIssue params = Some st
  ∧ match getIssueHierarchyFromRoot toLowerCase getIssue params with
    | Some (RootedHierarchy out) =>
        Forall (fun n => getIssue (rn_key n) = Ok (rn_issue n)) (ro_treeLines out)
        ∧ getIssue (rp_issueKey params) = Ok (ro_rootIssue out)
        ∧ ro_totalIssues out
          = length (filter (fun k => isOk (getIssue k) = true) (fs_lookups st))
    | _ => True
    end.
Proof.
  destruct (fetchFromRoot_total toLowerCase getIssue params) as (st & Hst & _).
  exists st. split; [done|].
  pose proof (fetchFromRoot_recordsFetched _ _ _ _ Hst) as (Hvals & Hlen & _).
  unfold getIssueHierarchyFromRoot. rewrite Hst. cbn -[buildTreeLines treeFuel].
  destruct (rget (rp_issueKey params) (fs_issueMap st)) as [rootIssue|] eqn:Hroot; [|done].
  destruct (buildTreeLines _ _ _ _ _ _ _ _ _) as [[treeLines v]|] eqn:Hwalk; [|done].
  cbn -[buildTreeLines treeFuel]. split_and!; [|by apply Hvals|done].
  apply buildTreeLines_nodes in Hwalk.
  eapply Forall_impl; [exact Hwalk|]. intros n [Hn _]. by apply Hvals.
Qed.

(** ** The sections of the forest, node by node *)

Lemma filter_deeper (level : nat) (lines : list RenderedNode) :
  Forall (fun m => level < rn_level m) lines →
  filter (fun n => rn_level n = level) lines = [].
Proof.
  induction 1 as [|m lines Hm _ IH]; [done|].
  rewrite filter_cons_False by lia. done.
Qed.

Lemma valueKeys_concat (m : gmap Key (list Key)) (c : Key) :
  c ∈ (⋃ ((fun kv : Key * list Key => list_to_set kv.2) <$> map_to_list m) : gset Key)
  → c ∈ concat (map_to_list m).*2.
Proof.
  intros (s & Hs & Hc)%elem_of_union_list.
  apply list_elem_of_fmap in Hs as ([k l] & -> & Hkl). simpl in Hc.
  apply elem_of_list_to_set in Hc.
  apply list_elem_of_In, in_concat. exists l. split; [|by apply list_elem_of_In].
  apply list_elem_of_In, list_elem_of_fmap. by exists (k, l).
Qed.

Section WalkMarks.

Variable issueMap : Rec Issue.
Variables coversMap parentMap : gmap Key (list Key).

#[local] Abbreviation CK := (childKeys coversMap parentMap).

Lemma forEachChild_marks rec cs :
  (∀ c l w r, c ∈ cs → rec c l w = Some r → r.2 ⊆ w ∪ {[c]} ∪ CK) →
  (∀ c, c ∈ cs → c ∈ CK) →
  ∀ i n lines v lines' v',
  forEachChild rec cs i n lines v = Some (lines', v') → v' ⊆ v ∪ CK.
Proof.
  induction cs as [|c cs IH]; intros Hrec Hcs i n lines v lines' v'; simpl.
  - intros [= <- <-]. set_solver.
  - destruct (rec c (i =? n - 1)%nat v) as [[childLines w]|] eqn:Hc; [|done].
    intros Hrest. apply IH in Hrest.
    + apply Hrec in Hc; [|by left]. simpl in Hc.
      pose proof (Hcs c ltac:(left)). set_solver.
    + intros ? ? ? ? ?. apply Hrec. by right.
    + intros ? ?. apply Hcs. by right.
Qed.

(** A walk marks its starting key and keys that are somebody's child,
    nothing else. *)
Lemma buildTreeLines_marks fuel :
  ∀ issueKey level prefix isLast visited lines visited',
  buildTreeLines issueMap coversMap parentMap fuel issueKey level prefix isLast visited
  = Some (lines, visited') →
  visited' ⊆ visited ∪ {[issueKey]} ∪ CK.
Proof.
  induction fuel as [|fuel IH]; intros issueKey level prefix isLast visited lines visited';
    simpl; [done|].
  case_bool_decide; [intros [= <- <-]; set_solver|].
  destruct (rget issueKey issueMap) as [issue|] eqn:Hissue; [|intros [= <- <-]; set_solver].
  intros Hrun. apply forEachChild_marks in Hrun; [set_solver|..].
  - intros c l w [ls w'] _ Hc. by apply IH in Hc.
  - intros c. apply allChildren_childKeys.
Qed.

End WalkMarks.

Section SectionNodes.

Variable g : Graph.

#[local] Abbreviation topLevel level lines :=
  (rn_key <$> filter (fun n => rn_level n = level) lines).

(** The issues of a section in their order: each one contributes at most
    one node at the level of the section, its own, and nodes below. *)
Lemma forEachIssue_top guard level prefix isLastAt rest :
  ∀ i lines visited lines' visited',
  forEachIssue guard (walkFrom g level prefix) isLastAt rest i lines visited
  = Some (lines', visited') →
  ∃ new, lines' = lines ++ new
         ∧ Forall (fun n => level ≤ rn_level n) new
         ∧ sublist (topLevel level new) (filter (fun k => guard k = true) rest).
Proof.
  induction rest as [|k rest IH]; intros i lines visited lines' visited'; simpl.
  - intros [= <- <-]. exists []. rewrite app_nil_r. by split_and!.
  - destruct (guard k) eqn:Hguard.
    + destruct (walkFrom g level prefix k (isLastAt i) visited)
        as [[treeLines v1]|] eqn:Hwalk; [|done].
      simpl. intros Hrest. apply IH in Hrest as (new & -> & Hlevels & Hsub).
      exists (treeLines ++ new). rewrite app_assoc. split; [done|].
      unfold walkFrom in Hwalk. split.
      * apply Forall_app. split; [|done].
        apply buildTreeLines_nodes in Hwalk.
        eapply Forall_impl; [exact Hwalk|]. by intros n [_ ?].
      * rewrite filter_app, fmap_app, filter_cons_True by done.
        apply buildTreeLines_head in Hwalk
          as [->|(n & deeper & -> & Hkey & Hlevel & _ & _ & Hdeeper)].
        -- simpl. by apply sublist_cons.
        -- rewrite filter_cons_True by done. rewrite filter_deeper by done.
           simpl. rewrite Hkey. by apply sublist_skip.
    + intros Hrest. apply IH in Hrest as (new & -> & Hlevels & Hsub).
      exists new. split_and!; [done..|].
      rewrite filter_cons_False; [done|]. by rewrite Hguard.
Qed.

Lemma renderIssues_top guard cap level prefix isLastAt issues lines :
  renderIssues g guard cap level prefix isLastAt issues = Some lines →
  Forall (fun n => level ≤ rn_level n) lines
  ∧ sublist (topLevel level lines) (take cap issues).
Proof.
  unfold renderIssues. intros Hrun.
  apply fmap_Some in Hrun as ([ls v] & Hrun & ->).
  apply forEachIssue_top in Hrun as (new & -> & Hlevels & Hsub). simpl.
  split; [done|]. etrans; [exact Hsub|]. apply sublist_filter.
Qed.

(** When the issues are distinct, have a record and are nobody's child,
    every one of them is rendered at the level of the section. *)
Lemma forEachIssue_roots level prefix isLastAt rest :
  ∀ i lines visited lines' visited',
  NoDup rest →
  (∀ k, k ∈ rest → (k ∉ visited) ∧ (k ∉ childKeys (g_coversMap g) (g_parentMap g))
                    ∧ is_Some (rget k (g_issueMap g))) →
  forEachIssue (fun _ => true) (walkFrom g level prefix) isLastAt rest i lines visited
  = Some (lines', visited') →
  ∃ new, lines' = lines ++ new ∧ topLevel level new = rest.
Proof.
  induction rest as [|k rest IH]; intros i lines visited lines' visited' Hnd Hrest; simpl.
  - intros [= <- <-]. exists []. by rewrite app_nil_r.
  - destruct (walkFrom g level prefix k (isLastAt i) visited)
      as [[treeLines v1]|] eqn:Hwalk; [|done].
    simpl. intros Hrun. apply NoDup_cons in Hnd as [Hk Hnd].
    destruct (Hrest k ltac:(left)) as (Hfresh & _ & Hrecord).
    unfold walkFrom in Hwalk.
    pose proof (buildTreeLines_marks _ _ _ _ _ _ _ _ _ _ _ Hwalk) as Hmarks.
    pose proof (buildTreeLines_expands _ _ _ _ _ _ _ _ _ _ _ Hfresh Hrecord Hwalk)
      as [[others Hkeys] _].
    apply IH in Hrun as (new & -> & Htop); [|done|].
    + exists (treeLines ++ new). rewrite app_assoc. split; [done|].
      rewrite filter_app, fmap_app, Htop.
      apply buildTreeLines_head in Hwalk
        as [->|(n & deeper & -> & Hkey & Hlevel & _ & _ & Hdeeper)]; [done|].
      rewrite filter_cons_True by done. rewrite filter_deeper by done.
      simpl. by rewrite Hkey.
    + intros k' Hk'. destruct (Hrest k' ltac:(by right)) as (? & ? & ?).
      split_and!; [|done..]. intros Hin%Hmarks. set_solver.
Qed.

End SectionNodes.

(** X7: the section of an epic outside the folders reports the number of
    the epic's issues, renders nothing above level 1, has at level 1 a
    subsequence of the epic's first thirty issues, and counts the issues
    beyond thirty as not shown. *)
Theorem epic_section_shows_first_thirty (g : Graph) (d : EpicData) :
  ∃ s, epicSection g d = Some s
  ∧ es_issueCount s = length (ed_issues d)
  ∧ es_more s = length (ed_issues d) - 30
  ∧ Forall (fun n => 1 ≤ rn_level n) (es_lines s)
  ∧ sublist (rn_key <$> filter (fun n => rn_level n = 1) (es_lines s))
            (take 30 (ed_issues d)).
Proof.
  destruct (epicSection_total g d) as (s & Hs & _). exists s. split; [done|].
  unfold epicSection in Hs. apply bind_Some in Hs as (lines & Hlines & [= <-]). simpl.
  apply renderIssues_top in Hlines as [? ?]. done.
Qed.

(** X8: for a dictionary of records with distinct keys (the keys of an
    object), the section of the tasks without epic is absent exactly when
    there is no root task; otherwise its nodes at level 0 are the first
    twenty root tasks, each once and in the order of the dictionary of
    records, and the rest are counted as not shown. *)
Theorem root_section_lists_root_tasks (g : Graph) :
  NoDup (rkeys (g_issueMap g)) →
  match rootSection g with
  | Some (Some (lines, more)) =>
      rootTasks g ≠ []
      ∧ rn_key <$> filter (fun n => rn_level n = 0) lines = take 20 (rootTasks g)
      ∧ more = length (rootTasks g) - 20
  | Some None => rootTasks g = []
  | None => False
  end.
Proof.
  intros Hnd. unfold rootSection.
  destruct (rootTasks g) as [|k roots] eqn:Hroots; [done|]. rewrite <- Hroots.
  destruct (renderIssues_total g (fun _ => true) 20 0 ""
              (fun i => (i =? length (rootTasks g) `min` 20 - 1)%nat) (rootTasks g))
    as (lines & Hlines & _).
  rewrite Hlines. simpl. split_and!; [by rewrite Hroots| |done].
  unfold renderIssues in Hlines.
  apply fmap_Some in Hlines as ([ls v] & Hrun & ->).
  apply forEachIssue_roots in Hrun as (new & -> & Htop); [done|..].
  - eapply sublist_NoDup; [|apply sublist_take].
    unfold rootTasks, tasksWithoutEpic. by do 2 apply NoDup_filter.
  - intros k' Hk'. eapply elem_of_sublist in Hk'; [|apply sublist_take].
    split; [set_solver|].
    unfold rootTasks in Hk'. apply list_elem_of_filter in Hk' as [[Hc Hp] Hk'].
    unfold tasksWithoutEpic in Hk'. apply list_elem_of_filter in Hk' as [_ Hk'].
    split; [|by apply rget_is_Some_rkeys].
    unfold childKeys. intros [?%valueKeys_concat|?%valueKeys_concat]%elem_of_union; done.
Qed.

Lemma root_section_lists_root_tasks_witness :
  match rootSection groupedGraph with
  | Some (Some (lines, more)) =>
      rootTasks groupedGraph ≠ []
      ∧ rn_key <$> filter (fun n => rn_level n = 0) lines = take 20 (rootTasks groupedGraph)
      ∧ more = length (rootTasks groupedGraph) - 20
  | Some None => rootTasks groupedGraph = []
  | None => False
  end.
Proof.
  apply (root_section_lists_root_tasks groupedGraph).
  apply (bool_decide_unpack _). vm_compute. reflexivity.
Defined.

(** ** [transitionIssue]: which transition is taken *)

Lemma findTransition_first (toLowerCase : string → string) (params : TransitionRequest)
  (before after : list Transition) (t : Transition) :
  Forall (fun t' => toLowerCase (tr_name t') ≠ toLowerCase (tq_transitionName params))
    before →
  toLowerCase (tr_name t) = toLowerCase (tq_transitionName params) →
  findTransition toLowerCase params (before ++ t :: after) = Some t.
Proof.
  intros Hbefore Ht. unfold findTransition.
  induction Hbefore as [|t' before Ht' _ IH]; simpl.
  - by rewrite decide_True.
  - rewrite decide_False by done.
    destruct (list_find _ (before ++ t :: after)) as [[i x]|]; simpl in *; congruence.
Qed.

(** X9: of several transitions whose names equal the requested one up to
    case, [transitionIssue] takes the first in the order of the response.
    It asks for that transition by its id, with the comment of the
    request; when the tracker accepts, the answer reports the target
    status of that transition and lists the transitions with a different
    id, and when the tracker refuses, the error is rethrown wrapped. *)
Theorem transition_takes_first_match (toLowerCase : string → string)
  (getIssueTransitions : Key → Result (list Transition))
  (apiTransitionIssue : Key → string → string → Result unit)
  (params : TransitionRequest) (before after : list Transition) (t : Transition) :
  getIssueTransitions (tq_issueKey params) = Ok (before ++ t :: after) →
  Forall (fun t' => toLowerCase (tr_name t') ≠ toLowerCase (tq_transitionName params))
    before →
  toLowerCase (tr_name t) = toLowerCase (tq_transitionName params) →
  run_calls (transitionIssue toLowerCase getIssueTransitions apiTransitionIssue params)
  = [CallGetIssueTransitions (tq_issueKey params);
     CallTransitionIssue (tq_issueKey params) (tr_id t) (tq_comment params)]
  ∧ run_result (transitionIssue toLowerCase getIssueTransitions apiTransitionIssue params)
    = match apiTransitionIssue (tq_issueKey params) (tr_id t) (tq_comment params) with
      | Ok _ =>
          Ok {| td_issueKey := tq_issueKey params;
                td_transition := tq_transitionName params;
                td_newStatus := tr_toName t;
                td_comment := tq_comment params;
                td_otherTransitions :=
                  (fun t' => (tr_name t', tr_toName t')) <$>
                    filter (fun t' => tr_id t' ≠ tr_id t) (before ++ t :: after) |}
      | Err e =>
          Err {| statusCode := None;
                 message := "Failed to transition issue: " +:+ message e |}
      end.
Proof.
  intros Hget Hbefore Ht. unfold transitionIssue.
  rewrite Hget, (findTransition_first _ _ _ _ _ Hbefore Ht).
  by destruct (apiTransitionIssue _ _ _).
Qed.

Lemma transition_takes_first_match_witness :
  run_calls (transitionIssue asciiLower (fun _ => Ok (sampleTransitions ++ sameNameTransitions))
               (fun _ _ _ => Ok tt) (sampleRequest "done"))
  = [CallGetIssueTransitions "RIVER-1"; CallTransitionIssue "RIVER-1" "21" ""]
  ∧ run_result (transitionIssue asciiLower
                  (fun _ => Ok (sampleTransitions ++ sameNameTransitions))
                  (fun _ _ _ => Ok tt) (sampleRequest "done"))
    = Ok {| td_issueKey := "RIVER-1";
            td_transition := "done";
            td_newStatus := "Done";
            td_comment := "";
            td_otherTransitions := [("In Progress", "In Progress"); ("DONE", "Resolved")] |}.
Proof.
  apply (transition_takes_first_match asciiLower
           (fun _ => Ok (sampleTransitions ++ sameNameTransitions))
           (fun _ _ _ => Ok tt) (sampleRequest "done")
           (take 1 sampleTransitions) sameNameTransitions
           {| tr_id := "21"; tr_name := "Done"; tr_toName := "Done" |}).
  - reflexivity.
  - apply (bool_decide_unpack _). vm_compute. reflexivity.
  - reflexivity.
Defined.

(** * The issues of the user, grouped by status *)

(** ** The stable sort *)

Section StableSort.

Context {A : Type} (f : A → nat).

Lemma insertBy_app (x : A) (l1 l2 : list A) :
  Forall (fun y => f y ≤ f x) l1 → Forall (fun y => f x < f y) l2 →
  insertBy f x (l1 ++ l2) = l1 ++ x :: l2.
Proof.
  intros H1 H2. induction H1 as [|y l1 Hy _ IH]; simpl.
  - destruct H2 as [|y l2 Hy _]; simpl; [done|].
    destruct (f y <=? f x)%nat eqn:Hle; [|done]. apply Nat.leb_le in Hle. lia.
  - rewrite (proj2 (Nat.leb_le _ _) Hy). by rewrite IH.
Qed.

Lemma sortBy_snoc (l : list A) (x : A) : sortBy f (l ++ [x]) = insertBy f x (sortBy f l).
Proof. unfold sortBy. by rewrite foldl_app. Qed.

#[local] Abbreviation bucketsOn := (bucketsOn f).

Lemma bucketsOn_app vs1 vs2 l : bucketsOn (vs1 ++ vs2) l = bucketsOn vs1 l ++ bucketsOn vs2 l.
Proof. unfold bucketsOn. by rewrite fmap_app, concat_app. Qed.

Lemma bucketsOn_snoc_other vs l x : f x ∉ vs → bucketsOn vs (l ++ [x]) = bucketsOn vs l.
Proof.
  unfold bucketsOn, ofPriority. induction vs as [|v vs IH]; [done|].
  intros [Hne Hvs]%not_elem_of_cons. rewrite !fmap_cons. cbn [concat].
  rewrite IH by done.
  rewrite filter_app, filter_cons_False, filter_nil, app_nil_r; done.
Qed.

Lemma bucketsOn_values vs l : Forall (fun y => f y ∈ vs) (bucketsOn vs l).
Proof.
  unfold bucketsOn, ofPriority. induction vs as [|v vs IH]; [done|].
  rewrite fmap_cons. cbn [concat]. apply Forall_app. split.
  - apply Forall_forall. intros y [-> _]%list_elem_of_filter. by left.
  - eapply Forall_impl; [exact IH|]. intros y ?. by right.
Qed.

Lemma sortBy_buckets (n : nat) (l : list A) :
  Forall (fun x => f x < n) l → sortBy f l = bucketsOn (seq 0 n) l.
Proof.
  induction l as [|x l IH] using rev_ind; intros Hl.
  - unfold bucketsOn, ofPriority. simpl. induction (seq 0 n); simpl; done.
  - apply Forall_app in Hl as [Hl Hx]. rewrite Forall_singleton in Hx.
    rewrite sortBy_snoc, IH by done.
    assert (seq 0 n = seq 0 (f x) ++ [f x] ++ seq (S (f x)) (n - S (f x))) as ->.
    { replace n with (f x + (1 + (n - S (f x)))) at 1 by lia.
      rewrite seq_app. f_equal. }
    rewrite !bucketsOn_app.
    rewrite (bucketsOn_snoc_other (seq 0 (f x))), (bucketsOn_snoc_other (seq (S (f x)) _)).
    2: { rewrite elem_of_seq. lia. }
    2: { rewrite elem_of_seq. lia. }
    assert (bucketsOn [f x] (l ++ [x]) = bucketsOn [f x] l ++ [x]) as ->.
    { unfold bucketsOn, ofPriority. simpl. rewrite !app_nil_r.
      by rewrite filter_app, filter_cons_True, filter_nil. }
    rewrite !app_assoc. rewrite <- (app_assoc _ [x]). simpl.
    apply insertBy_app.
    + apply Forall_app. split.
      * eapply Forall_impl; [apply bucketsOn_values|]. simpl.
        intros y Hy%elem_of_seq. lia.
      * eapply Forall_impl; [apply bucketsOn_values|]. simpl.
        intros y Hy%list_elem_of_singleton. lia.
    + eapply Forall_impl; [apply bucketsOn_values|]. simpl.
      intros y Hy%elem_of_seq. lia.
Qed.

End StableSort.

Lemma getPriorityValue_bound (priorityName : string) : getPriorityValue priorityName < 7.
Proof. unfold getPriorityValue. repeat (destruct (String.eqb _ _); [lia|]). lia. Qed.

(** X10: a section lists its tasks by priority: the tasks named Блокер in
    the order of the query result, then those named Highest, High, the
    tasks of medium priority together with those without a priority or
    with an unknown one, then Low, Lowest and Незначительный; at most
    [maxShow] of them are shown and the others are counted.  An empty
    group has no section. *)
Theorem status_section_by_priority (statusName : string) (tasks : list Issue)
  (maxShow : nat) :
  match formatStatusGroup statusName tasks maxShow with
  | Some s =>
      ss_tasks s
      = taskLine <$> take maxShow
          (ofPriority taskPriority 0 tasks ++ ofPriority taskPriority 1 tasks
           ++ ofPriority taskPriority 2 tasks ++ ofPriority taskPriority 3 tasks
           ++ ofPriority taskPriority 4 tasks ++ ofPriority taskPriority 5 tasks
           ++ ofPriority taskPriority 6 tasks)
      ∧ ss_count s = length tasks
      ∧ length (ss_tasks s) = maxShow `min` length tasks
      ∧ ss_more s = (if (maxShow <? length tasks)%nat
                     then Some (length tasks - maxShow, taskWord (length tasks - maxShow))
                     else None)
  | None => tasks = []
  end.
Proof.
  unfold formatStatusGroup. destruct (length tasks =? 0)%nat eqn:Hempty.
  { apply Nat.eqb_eq in Hempty. by destruct tasks. }
  cbn [ss_tasks ss_count ss_more].
  assert (sortBy taskPriority tasks
          = ofPriority taskPriority 0 tasks ++ ofPriority taskPriority 1 tasks
            ++ ofPriority taskPriority 2 tasks ++ ofPriority taskPriority 3 tasks
            ++ ofPriority taskPriority 4 tasks ++ ofPriority taskPriority 5 tasks
            ++ ofPriority taskPriority 6 tasks) as Hsorted.
  { rewrite (sortBy_buckets taskPriority 7).
    - unfold bucketsOn. simpl. by rewrite app_nil_r.
    - apply Forall_forall. intros x _. apply getPriorityValue_bound. }
  split_and!; [by rewrite Hsorted|done| |done].
  rewrite length_fmap, length_take.
  assert (length (sortBy taskPriority tasks) = length tasks) as ->; [|done].
  clear. induction tasks as [|x l IH] using rev_ind; [done|].
  rewrite sortBy_snoc, length_app. simpl. rewrite <- IH.
  generalize (sortBy taskPriority l). intros s.
  induction s as [|y s IHs]; simpl; [done|].
  destruct (_ <=? _)%nat; simpl; lia.
Qed.

(** ** The two dictionaries of the grouping loop *)

Lemma withStatus_snoc_eq n l i :
  statusNameOfIssue i = Some n → withStatus n (l ++ [i]) = withStatus n l ++ [i].
Proof. intros Hi. unfold withStatus. by rewrite filter_app, filter_cons_True. Qed.

Lemma withStatus_snoc_ne n l i :
  statusNameOfIssue i ≠ Some n → withStatus n (l ++ [i]) = withStatus n l.
Proof.
  intros Hi. unfold withStatus.
  by rewrite filter_app, filter_cons_False, filter_nil, app_nil_r.
Qed.

Lemma rkeys_groupsOf names l : rkeys (groupsOf names l) = names.
Proof.
  unfold rkeys, groupsOf. induction names as [|n names IH]; [done|].
  rewrite !fmap_cons. cbn [fst]. f_equal. exact IH.
Qed.

Lemma rget_groupsOf n names l :
  rget n (groupsOf names l)
  = if bool_decide (n ∈ names) then Some (withStatus n l) else None.
Proof.
  unfold groupsOf. induction names as [|n' names IH].
  - by rewrite bool_decide_eq_false_2 by apply not_elem_of_nil.
  - rewrite fmap_cons. cbn [rget]. destruct (decide (n = n')) as [<-|Hne].
    + rewrite (bool_decide_eq_true_2 (n = n)) by done.
      by rewrite bool_decide_eq_true_2 by left.
    + rewrite (bool_decide_eq_false_2 (n = n')) by done. rewrite IH.
      case_bool_decide as Hin.
      * by rewrite bool_decide_eq_true_2 by (by right).
      * rewrite bool_decide_eq_false_2; [done|].
        by intros [?|?]%elem_of_cons.
Qed.

Lemma groupsOf_snoc_other names l i n :
  statusNameOfIssue i = Some n → n ∉ names →
  groupsOf names (l ++ [i]) = groupsOf names l.
Proof.
  intros Hi Hn. unfold groupsOf. apply list_fmap_ext. intros j n' Hn'. f_equal.
  apply withStatus_snoc_ne. rewrite Hi. intros Heq. apply Hn.
  injection Heq as ->. by eapply list_elem_of_lookup_2.
Qed.

Lemma rset_groupsOf_in names l i n :
  NoDup names → n ∈ names → statusNameOfIssue i = Some n →
  rset n (withStatus n l ++ [i]) (groupsOf names l) = groupsOf names (l ++ [i]).
Proof.
  intros Hnd Hin Hi. unfold groupsOf.
  induction names as [|n' names IH]; [by apply elem_of_nil in Hin|].
  apply NoDup_cons in Hnd as [Hn' Hnd]. simpl.
  destruct (decide (n = n')) as [<-|Hne].
  - rewrite (bool_decide_eq_true_2 (n = n)) by done.
    rewrite withStatus_snoc_eq by done. f_equal.
    symmetry. by apply (groupsOf_snoc_other names l i n).
  - rewrite (bool_decide_eq_false_2 (n = n')) by done.
    rewrite (withStatus_snoc_ne n') by (rewrite Hi; congruence). f_equal.
    apply IH; [done|]. by apply elem_of_cons in Hin as [?|?].
Qed.

Lemma rset_absent {V} (k : Key) (v : V) (r : Rec V) :
  k ∉ rkeys r → rset k v r = r ++ [(k, v)].
Proof.
  unfold rkeys. induction r as [|[k' v'] r IH]; simpl; [done|].
  intros [Hne Hk]%not_elem_of_cons.
  rewrite bool_decide_eq_false_2 by done. by rewrite IH.
Qed.

Lemma rset_last {V} (k : Key) (v w : V) (r : Rec V) :
  k ∉ rkeys r → rset k v (r ++ [(k, w)]) = r ++ [(k, v)].
Proof.
  unfold rkeys. induction r as [|[k' v'] r IH]; simpl.
  - intros _. by rewrite bool_decide_eq_true_2.
  - intros [Hne Hk]%not_elem_of_cons.
    rewrite bool_decide_eq_false_2 by done. by rewrite IH.
Qed.

Lemma rget_last {V} (k : Key) (w : V) (r : Rec V) :
  k ∉ rkeys r → rget k (r ++ [(k, w)]) = Some w.
Proof.
  unfold rkeys. induction r as [|[k' v'] r IH]; simpl.
  - intros _. by rewrite bool_decide_eq_true_2.
  - intros [Hne Hk]%not_elem_of_cons.
    rewrite bool_decide_eq_false_2 by done. by apply IH.
Qed.

Lemma otherStatusNames_snoc l i n :
  statusNameOfIssue i = Some n →
  otherStatusNames (l ++ [i])
  = if bool_decide (n ∈ statusGroupNames) then otherStatusNames l
    else setAdd n (otherStatusNames l).
Proof.
  intros Hi. unfold otherStatusNames. rewrite omap_app. simpl. rewrite Hi.
  rewrite filter_app. case_bool_decide as Hn.
  - by rewrite filter_cons_False, filter_nil, app_nil_r by (by intros ?).
  - rewrite filter_cons_True, filter_nil by done.
    unfold arrayFromSet. by rewrite foldl_app.
Qed.

Lemma otherStatusNames_outside l n : n ∈ otherStatusNames l → n ∉ statusGroupNames.
Proof.
  unfold otherStatusNames. rewrite elem_of_arrayFromSet.
  by intros [? _]%list_elem_of_filter.
Qed.

Lemma withStatus_unseen l n :
  n ∉ statusGroupNames → n ∉ otherStatusNames l → withStatus n l = [].
Proof.
  intros Hout Hn. unfold withStatus.
  destruct (filter _ l) as [|i rest] eqn:Hfilter; [done|]. exfalso.
  assert (i ∈ filter (fun issue => statusNameOfIssue issue = Some n) l) as Hin
    by (rewrite Hfilter; left).
  apply list_elem_of_filter in Hin as [Hstatus Hi].
  apply Hn. unfold otherStatusNames.
  apply elem_of_arrayFromSet, list_elem_of_filter. split; [done|].
  apply list_elem_of_omap. by exists i.
Qed.

Lemma NoDup_statusGroupNames : NoDup statusGroupNames.
Proof. apply (bool_decide_unpack _). vm_compute. reflexivity. Qed.

Lemma groupIssue_step (done : list Issue) (i : Issue) (s : Status) :
  status (fields i) = Some s →
  groupIssue (groupsOf statusGroupNames done) (groupsOf (otherStatusNames done) done) i
  = Ok (groupsOf statusGroupNames (done ++ [i]),
        groupsOf (otherStatusNames (done ++ [i])) (done ++ [i])).
Proof.
  intros Hs. unfold groupIssue. rewrite Hs.
  assert (statusNameOfIssue i = Some (statusNameOf s)) as Hi.
  { unfold statusNameOfIssue. by rewrite Hs. }
  set (n := statusNameOf s) in *. cbv zeta.
  rewrite rget_groupsOf, (otherStatusNames_snoc _ _ _ Hi).
  destruct (decide (n ∈ statusGroupNames)) as [Hn|Hn].
  - rewrite !bool_decide_eq_true_2 by done. f_equal. f_equal.
    + by apply rset_groupsOf_in; [apply NoDup_statusGroupNames|..].
    + symmetry. apply (groupsOf_snoc_other _ _ _ n); [done|].
      intros Hin%otherStatusNames_outside. done.
  - rewrite !bool_decide_eq_false_2 by done. f_equal. f_equal.
    + symmetry. by apply (groupsOf_snoc_other _ _ _ n).
    + unfold rsetIfAbsent, setAdd. rewrite rget_groupsOf.
      destruct (decide (n ∈ otherStatusNames done)) as [Hseen|Hseen].
      * rewrite !bool_decide_eq_true_2 by done.
        rewrite rget_groupsOf, bool_decide_eq_true_2 by done. simpl.
        by apply rset_groupsOf_in; [apply NoDup_arrayFromSet|..].
      * rewrite !bool_decide_eq_false_2 by done.
        rewrite (rset_absent n [] (groupsOf _ _)) by (by rewrite rkeys_groupsOf).
        rewrite rget_last by (by rewrite rkeys_groupsOf). simpl.
        rewrite rset_last by (by rewrite rkeys_groupsOf).
        unfold groupsOf at 2. rewrite fmap_app. simpl.
        rewrite (withStatus_snoc_eq n) by done.
        rewrite (withStatus_unseen done n) by done. simpl.
        f_equal. symmetry. by apply (groupsOf_snoc_other _ _ _ n).
Qed.

Lemma groupByStatus_from (rest done : list Issue) :
  groupByStatus rest (groupsOf statusGroupNames done) (groupsOf (otherStatusNames done) done)
  = if bool_decide (Forall (fun i => is_Some (status (fields i))) rest)
    then Ok (groupsOf statusGroupNames (done ++ rest),
             groupsOf (otherStatusNames (done ++ rest)) (done ++ rest))
    else Err statusUndefined.
Proof.
  revert done. induction rest as [|i rest IH]; intros done; cbn [groupByStatus].
  - rewrite bool_decide_eq_true_2 by done. by rewrite app_nil_r.
  - destruct (status (fields i)) as [s|] eqn:Hs.
    + rewrite (groupIssue_step done i s Hs), IH. rewrite <- app_assoc.
      cbn [app]. case_bool_decide as Hrest.
      * rewrite bool_decide_eq_true_2; [done|]. apply Forall_cons. by rewrite Hs.
      * rewrite bool_decide_eq_false_2; [done|]. by intros [_ ?]%Forall_cons.
    + unfold groupIssue. rewrite Hs.
      rewrite bool_decide_eq_false_2; [done|].
      intros [[? Hi] _]%Forall_cons. congruence.
Qed.

Lemma groupByStatus_closed (issues : list Issue) :
  groupByStatus issues emptyStatusGroups []
  = if bool_decide (Forall (fun i => is_Some (status (fields i))) issues)
    then Ok (groupsOf statusGroupNames issues, groupsOf (otherStatusNames issues) issues)
    else Err statusUndefined.
Proof. apply (groupByStatus_from issues []). Qed.

Lemma omap_groupsOf {B} (names : list string) (issues : list Issue)
  (f : string → list Issue → option B) :
  omap (fun '(statusName, tasks) => f statusName tasks) (groupsOf names issues)
  = omap (fun n => f n (withStatus n issues)) names.
Proof.
  unfold groupsOf. induction names as [|n names IH]; [done|].
  csimpl. by rewrite IH.
Qed.

Lemma getMyIssuesGroupedByStatus_closed
  (searchIssues : string → nat → list string → Result SearchResponse)
  (params : GroupedParams) (response : SearchResponse) :
  searchIssues (if truthy (gp_jql params) then gp_jql params else myIssuesJql)
    (if (gp_maxResults params =? 0)%nat then 500 else gp_maxResults params)
    groupedFields = Ok response →
  getMyIssuesGroupedByStatus searchIssues params
  = if bool_decide (Forall (fun i => is_Some (status (fields i))) (sr_issues response))
    then Ok {| go_total := sr_total response;
               go_jql := if truthy (gp_jql params) then gp_jql params else myIssuesJql;
               go_shown := length (sr_issues response);
               go_sections :=
                 omap (fun n => formatStatusGroup n (withStatus n (sr_issues response)) 20)
                   (statusGroupNames ++ otherStatusNames (sr_issues response));
               go_links := statusFilterLinks (groupsOf statusGroupNames (sr_issues response)) |}
    else groupedFailed statusUndefined.
Proof.
  intros Hsearch. unfold getMyIssuesGroupedByStatus. rewrite Hsearch.
  cbv zeta. rewrite groupByStatus_closed. case_bool_decide; [|done].
  f_equal. f_equal. rewrite omap_app.
  rewrite (omap_groupsOf statusGroupNames _ (fun n ts => formatStatusGroup n ts 20)).
  rewrite (omap_groupsOf (otherStatusNames _) _ (fun n ts => formatStatusGroup n ts 20)).
  symmetry. apply omap_app.
Qed.



(** ** The counts of the sections *)

Lemma count_formatStatusGroup n tasks maxShow :
  from_option ss_count 0 (formatStatusGroup n tasks maxShow) = length tasks.
Proof.
  unfold formatStatusGroup. destruct (length tasks =? 0)%nat eqn:Hempty; [|done].
  by apply Nat.eqb_eq in Hempty.
Qed.

Lemma sum_section_counts (names : list string) (issues : list Issue) :
  sum_list (ss_count <$> omap (fun n => formatStatusGroup n (withStatus n issues) 20) names)
  = sum_list ((fun n => length (withStatus n issues)) <$> names).
Proof.
  induction names as [|n names IH]; [done|]. csimpl.
  pose proof (count_formatStatusGroup n (withStatus n issues) 20) as Hcount.
  destruct (formatStatusGroup n (withStatus n issues) 20) as [s|];
    cbn [from_option] in Hcount; rewrite ?fmap_cons; cbn [sum_list].
  - by rewrite IH, Hcount.
  - by rewrite IH, <- Hcount.
Qed.

Lemma sum_withStatus_cons (names : list string) (i : Issue) (l : list Issue) (n0 : string) :
  statusNameOfIssue i = Some n0 → NoDup names →
  sum_list ((fun n => length (withStatus n (i :: l))) <$> names)
  = (if bool_decide (n0 ∈ names) then 1 else 0)
    + sum_list ((fun n => length (withStatus n l)) <$> names).
Proof.
  intros Hi. induction names as [|n names IH]; [done|].
  intros [Hn Hnd]%NoDup_cons. rewrite !fmap_cons. cbn [sum_list]. rewrite IH by done.
  unfold withStatus at 1. rewrite filter_cons.
  destruct (decide (n0 = n)) as [<-|Hne].
  - rewrite decide_True by done.
    rewrite (bool_decide_eq_true_2 (n0 ∈ n0 :: names)) by left.
    rewrite (bool_decide_eq_false_2 (n0 ∈ names)) by done. simpl. done.
  - rewrite decide_False by (rewrite Hi; congruence).
    fold (withStatus n l).
    destruct (decide (n0 ∈ names)) as [Hin|Hin].
    + rewrite (bool_decide_eq_true_2 (n0 ∈ names)) by done.
      rewrite (bool_decide_eq_true_2 (n0 ∈ n :: names)) by (by right). lia.
    + rewrite (bool_decide_eq_false_2 (n0 ∈ names)) by done.
      rewrite (bool_decide_eq_false_2 (n0 ∈ n :: names)); [lia|].
      by intros [?|?]%elem_of_cons.
Qed.

Lemma sum_withStatus (names : list string) (issues : list Issue) :
  NoDup names →
  Forall (fun i => ∃ n, statusNameOfIssue i = Some n ∧ n ∈ names) issues →
  sum_list ((fun n => length (withStatus n issues)) <$> names) = length issues.
Proof.
  intros Hnd. induction 1 as [|i l (n0 & Hi & Hin) _ IH].
  - induction names as [|n names IHn]; [done|].
    apply NoDup_cons in Hnd as [_ Hnd]. rewrite fmap_cons. simpl. by apply IHn.
  - rewrite (sum_withStatus_cons names i l n0 Hi Hnd), IH.
    by rewrite bool_decide_eq_true_2.
Qed.

Lemma statusNames_NoDup (issues : list Issue) :
  NoDup (statusGroupNames ++ otherStatusNames issues).
Proof.
  apply NoDup_app. split_and!.
  - apply NoDup_statusGroupNames.
  - intros n Hn Hother%otherStatusNames_outside. done.
  - apply NoDup_arrayFromSet.
Qed.

Lemma statusNames_cover (issues : list Issue) (i : Issue) (s : Status) :
  i ∈ issues → status (fields i) = Some s →
  statusNameOf s ∈ statusGroupNames ++ otherStatusNames issues.
Proof.
  intros Hi Hs. apply elem_of_app.
  destruct (decide (statusNameOf s ∈ statusGroupNames)) as [?|Hout]; [by left|right].
  unfold otherStatusNames. apply elem_of_arrayFromSet, list_elem_of_filter.
  split; [done|]. apply list_elem_of_omap. exists i. split; [done|].
  unfold statusNameOfIssue. by rewrite Hs.
Qed.




(** * The links of one issue *)

Section LinkCategories.

Variable toLowerCase : string → string.

#[local] Abbreviation isReq := (isRequirementLink toLowerCase).
#[local] Abbreviation isPC := (isParentChildLink toLowerCase).
#[local] Abbreviation ends := (linkEnds toLowerCase).

Lemma categorizeLink_ends (lists : LinkLists) (link : IssueLink) :
  categorizeLink toLowerCase lists link
  = {| coversLinks :=
         coversLinks lists ++ (if isReq (link_type link) then ends link else []);
       parentChildLinks :=
         parentChildLinks lists
         ++ (if negb (isReq (link_type link)) && isPC (link_type link)
             then ends link else []);
       otherLinks :=
         otherLinks lists
         ++ (if negb (isReq (link_type link)) && negb (isPC (link_type link))
             then ends link else []) |}.
Proof.
  unfold categorizeLink, linkEnds, pushLinkInfo. destruct lists as [cs ps os].
  destruct (inwardIssue link), (outwardIssue link), (isReq (link_type link)),
    (isPC (link_type link)); simpl; rewrite ?app_nil_r, <- ?app_assoc; done.
Qed.

Lemma foldl_categorizeLink (links : list IssueLink) (lists : LinkLists) :
  foldl (categorizeLink toLowerCase) lists links
  = {| coversLinks := coversLinks lists ++ endsWhere toLowerCase isReq links;
       parentChildLinks :=
         parentChildLinks lists
         ++ endsWhere toLowerCase (fun t => negb (isReq t) && isPC t) links;
       otherLinks :=
         otherLinks lists
         ++ endsWhere toLowerCase (fun t => negb (isReq t) && negb (isPC t)) links |}.
Proof.
  revert lists. unfold endsWhere.
  induction links as [|link links IH]; intros lists.
  - destruct lists. simpl. by rewrite !app_nil_r.
  - cbn [foldl]. rewrite IH, categorizeLink_ends. cbn [coversLinks parentChildLinks otherLinks].
    rewrite !fmap_cons. cbn [concat]. by rewrite <- !app_assoc.
Qed.

Lemma endsWhere_partition (links : list IssueLink) :
  endsWhere toLowerCase isReq links
  ++ endsWhere toLowerCase (fun t => negb (isReq t) && isPC t) links
  ++ endsWhere toLowerCase (fun t => negb (isReq t) && negb (isPC t)) links
  ≡ₚ concat (ends <$> links).
Proof.
  unfold endsWhere. induction links as [|link links IH]; [done|].
  rewrite !fmap_cons. cbn [concat]. rewrite <- IH.
  destruct (isReq (link_type link)), (isPC (link_type link)); simpl;
    rewrite ?app_nil_r; solve_Permutation.
Qed.

Lemma endsWhere_nil p (links : list IssueLink) :
  Forall (fun link => inwardIssue link = None ∧ outwardIssue link = None) links →
  endsWhere toLowerCase p links = [].
Proof.
  unfold endsWhere. induction 1 as [|link links [Hin Hout] _ IH]; [done|].
  rewrite fmap_cons. cbn [concat]. rewrite IH. unfold linkEnds. rewrite Hin, Hout.
  by destruct (p _).
Qed.

End LinkCategories.

(** X14: [getIssueLinks] files every end of every link in exactly one
    category, by the type of the link alone: the requirement links hold
    the ends of the links of requirement type, the parent-child links
    those of the links of parent-child type that are not of requirement
    type, the other links the rest, each in the order of the links, the
    inward end of a link before its outward end.  Together the three
    categories are a rearrangement of all the ends. *)
Theorem issue_links_partition (toLowerCase : string → string)
  (getIssue : Key → Result Issue) (issueKey : Key) (issue : Issue) (s : Status) :
  getIssue issueKey = Ok issue →
  status (fields issue) = Some s →
  ∃ out,
    getIssueLinks toLowerCase getIssue issueKey = Ok out
    ∧ coversLinks (il_links out)
      = endsWhere toLowerCase (isRequirementLink toLowerCase) (issuelinks issue)
    ∧ parentChildLinks (il_links out)
      = endsWhere toLowerCase
          (fun t => negb (isRequirementLink toLowerCase t)
                    && isParentChildLink toLowerCase t) (issuelinks issue)
    ∧ otherLinks (il_links out)
      = endsWhere toLowerCase
          (fun t => negb (isRequirementLink toLowerCase t)
                    && negb (isParentChildLink toLowerCase t)) (issuelinks issue)
    ∧ coversLinks (il_links out) ++ parentChildLinks (il_links out)
      ++ otherLinks (il_links out)
      ≡ₚ concat (linkEnds toLowerCase <$> issuelinks issue).
Proof.
  intros Hget Hs. unfold getIssueLinks. rewrite Hget, Hs. cbv zeta.
  rewrite foldl_categorizeLink. eexists. split; [done|].
  cbn [il_links coversLinks parentChildLinks otherLinks app].
  split_and!; [done..|]. apply endsWhere_partition.
Qed.

Lemma issue_links_partition_witness :
  ∃ out,
    getIssueLinks asciiLower linkedLookup "L-1" = Ok out
    ∧ coversLinks (il_links out)
      = endsWhere asciiLower (isRequirementLink asciiLower) mixedLinks
    ∧ parentChildLinks (il_links out)
      = endsWhere asciiLower
          (fun t => negb (isRequirementLink asciiLower t)
                    && isParentChildLink asciiLower t) mixedLinks
    ∧ otherLinks (il_links out)
      = endsWhere asciiLower
          (fun t => negb (isRequirementLink asciiLower t)
                    && negb (isParentChildLink asciiLower t)) mixedLinks
    ∧ coversLinks (il_links out) ++ parentChildLinks (il_links out)
      ++ otherLinks (il_links out)
      ≡ₚ concat (linkEnds asciiLower <$> mixedLinks).
Proof.
  apply (issue_links_partition asciiLower linkedLookup "L-1" linkedIssue
           {| st_name := Some "Backlog"; st_category := None |}).
  - reflexivity.
  - reflexivity.
Defined.

Lemma linkEnds_nil (toLowerCase : string → string) (link : IssueLink) :
  linkEnds toLowerCase link = [] ↔ inwardIssue link = None ∧ outwardIssue link = None.
Proof.
  unfold linkEnds. destruct (inwardIssue link), (outwardIssue link); simpl; naive_solver.
Qed.

Lemma concat_linkEnds_nil (toLowerCase : string → string) (links : list IssueLink) :
  concat (linkEnds toLowerCase <$> links) = []
  ↔ Forall (fun link => inwardIssue link = None ∧ outwardIssue link = None) links.
Proof.
  induction links as [|link links IH].
  - split; [by constructor|done].
  - rewrite fmap_cons. cbn [concat]. rewrite Forall_cons, <- IH, <- linkEnds_nil.
    split.
    + by intros [? ?]%app_eq_nil.
    + intros [-> ->]. done.
Qed.

(** X15: [getIssueLinks] fails when the lookup of the issue fails and
    when the record has no status, and in no other case; the error is
    rethrown wrapped.  Otherwise the answer carries the line "No links
    found" exactly when the epic link is falsy and no link has an inward
    or an outward issue. *)
Theorem issue_links_failure_and_empty (toLowerCase : string → string)
  (getIssue : Key → Result Issue) (issueKey : Key) :
  match getIssue issueKey with
  | Err e =>
      getIssueLinks toLowerCase getIssue issueKey
      = Err {| statusCode := None;
               message := "Failed to retrieve issue links: " +:+ message e |}
  | Ok issue =>
      match status (fields issue) with
      | None =>
          getIssueLinks toLowerCase getIssue issueKey
          = Err {| statusCode := None;
                   message := "Failed to retrieve issue links: "
                              +:+ message statusUndefined |}
      | Some s =>
          ∃ out,
            getIssueLinks toLowerCase getIssue issueKey = Ok out
            ∧ il_status out = s
            ∧ (il_noLinks out = true
               ↔ epicLinkTruthy (customfield_10102 issue) = false
                 ∧ Forall (fun link => inwardIssue link = None ∧ outwardIssue link = None)
                     (issuelinks issue))
      end
  end.
Proof.
  unfold getIssueLinks. destruct (getIssue issueKey) as [issue|e]; [|done].
  destruct (status (fields issue)) as [s|]; [|done].
  cbv zeta. rewrite foldl_categorizeLink. eexists. split; [done|]. split; [done|].
  cbn [il_noLinks il_links coversLinks parentChildLinks otherLinks app].
  rewrite !andb_true_iff, !Nat.eqb_eq, !length_zero_iff_nil.
  rewrite <- concat_linkEnds_nil with (toLowerCase := toLowerCase).
  split.
  - intros [[[Hepic Hc] Hp] Ho]. split.
    + by destruct (epicLinkTruthy _).
    + apply Permutation_nil_r. rewrite <- endsWhere_partition. by rewrite Hc, Hp, Ho.
  - intros [Hepic Hnone]. apply concat_linkEnds_nil in Hnone.
    rewrite Hepic. split_and!; [done|by apply endsWhere_nil..].
Qed.

(** * The neighbours of one issue *)

Section NavigationFacts.

Variable toLowerCase : string → string.
Variable getIssue : Key → Result Issue.

Lemma relatedByLinks_omap (test : IssueLink → option LinkedIssue) (links : list IssueLink) :
  relatedByLinks test links = relatedOfLinked <$> omap test links.
Proof.
  unfold relatedByLinks.
  assert (∀ acc, foldl (fun relatedIssues link =>
                          match test link with
                          | Some linked => relatedIssues ++ [relatedOfLinked linked]
                          | None => relatedIssues
                          end) acc links
                 = acc ++ (relatedOfLinked <$> omap test links)) as Hgen.
  { induction links as [|link links IH]; intros acc; csimpl.
    - by rewrite app_nil_r.
    - rewrite IH. destruct (test link); csimpl; [|done]. by rewrite <- app_assoc. }
  apply Hgen.
Qed.

Lemma fetchSiblings_closed (issueKey : Key) (parentLinks : list IssueLink)
  (rows : list RelatedIssue) (lookups : list Key) :
  fetchSiblings toLowerCase getIssue issueKey parentLinks (rows, lookups)
  = (rows ++ omap (fetchedRow getIssue) (siblingKeys toLowerCase issueKey parentLinks),
     lookups ++ siblingKeys toLowerCase issueKey parentLinks).
Proof.
  unfold fetchSiblings, siblingKeys. revert rows lookups.
  induction parentLinks as [|link links IH]; intros rows lookups.
  - simpl. by rewrite !app_nil_r.
  - cbn [foldl]. destruct (childOf toLowerCase link) as [linked|] eqn:Hchild.
    + assert (omap (childOf toLowerCase) (link :: links)
              = linked :: omap (childOf toLowerCase) links) as ->.
      { csimpl. by rewrite Hchild. }
      rewrite fmap_cons, filter_cons. case_bool_decide as Hself.
      * rewrite decide_True by done. unfold fetchRelatedIssue.
        assert (omap (fetchedRow getIssue)
                  (li_key linked
                   :: filter (fun k => k ≠ issueKey)
                        (li_key <$> omap (childOf toLowerCase) links))
                = match fetchedRow getIssue (li_key linked) with
                  | Some row => [row]
                  | None => []
                  end
                  ++ omap (fetchedRow getIssue)
                       (filter (fun k => k ≠ issueKey)
                          (li_key <$> omap (childOf toLowerCase) links))) as ->.
        { csimpl. by destruct (fetchedRow getIssue (li_key linked)). }
        unfold fetchedRow at 1.
        destruct (getIssue (li_key linked)) as [fetched|e].
        -- rewrite IH. destruct (relatedOfFetched fetched); by rewrite <- !app_assoc.
        -- rewrite IH. by rewrite <- !app_assoc.
      * rewrite decide_False by congruence. apply IH.
    + assert (omap (childOf toLowerCase) (link :: links)
              = omap (childOf toLowerCase) links) as ->.
      { csimpl. by rewrite Hchild. }
      apply IH.
Qed.

End NavigationFacts.

Lemma omap_length_le {A B} (f : A → option B) (l : list A) :
  length (omap f l) ≤ length l.
Proof.
  induction l as [|x l IH]; csimpl; [done|]. destruct (f x); simpl; lia.
Qed.

(** X16: [navigateHierarchy] fails when the lookup of the issue itself
    fails, with the error rethrown wrapped and nothing else looked up, and
    in no other case: a failed lookup of the epic, of the parent or of a
    sibling is caught.  The issue itself is always looked up first, and
    the four directions that read the links send no other lookup. *)
Theorem navigate_fails_only_with_start_issue (toLowerCase : string → string)
  (getIssue : Key → Result Issue) (issueKey : Key) (direction : NavDirection) :
  match getIssue issueKey with
  | Err e =>
      navigateHierarchy toLowerCase getIssue issueKey direction
      = {| nr_result := Err {| statusCode := None;
                               message := "Failed to navigate hierarchy: " +:+ message e |};
           nr_lookups := [issueKey] |}
  | Ok issue =>
      ∃ related rest,
        navigateHierarchy toLowerCase getIssue issueKey direction
        = {| nr_result := Ok {| nav_direction := direction;
                                nav_summary := summary (fields issue);
                                nav_related := related |};
             nr_lookups := issueKey :: rest |}
        ∧ match direction with
          | NavEpic => length rest ≤ 1 ∧ length related ≤ length rest
          | NavSiblings => length related ≤ length rest - 1
          | _ => rest = []
          end
  end.
Proof.
  unfold navigateHierarchy. destruct (getIssue issueKey) as [issue|e]; [|done].
  destruct direction.
  - destruct (rootedEpicKey _) as [epicKey|]; [|by eexists [], []; split; [|simpl; lia]].
    unfold fetchRelatedIssue. destruct (getIssue epicKey) as [epic|e].
    + destruct (relatedOfFetched epic); eexists _, [epicKey]; (split; [done|simpl; lia]).
    + eexists [], [epicKey]. split; [done|simpl; lia].
  - by eexists _, [].
  - by eexists _, [].
  - by eexists _, [].
  - by eexists _, [].
  - destruct (firstParentKey _ _) as [parentKey|]; [|by eexists [], []].
    destruct (truthy parentKey); [|by eexists [], []].
    destruct (getIssue parentKey) as [parentIssue|e].
    + rewrite fetchSiblings_closed. eexists _, _. split; [done|].
      pose proof (omap_length_le (fetchedRow getIssue)
                    (siblingKeys toLowerCase issueKey (issuelinks parentIssue))).
      simpl. lia.
    + eexists [], [parentKey]. split; [done|simpl; lia].
Qed.

(** X17: the siblings of an issue are looked for under the first parent
    that its links name, and under no other.  After the issue and that
    parent, exactly the children named by the parent's links are looked
    up, in their order and as often as they are named, except the issue
    itself, which is never looked up again.  A sibling gets a row when its
    lookup succeeds and the record has a status and an issue type; the
    other siblings are skipped. *)
Theorem navigate_siblings (toLowerCase : string → string)
  (getIssue : Key → Result Issue) (issueKey parentKey : Key)
  (issue parentIssue : Issue) :
  getIssue issueKey = Ok issue →
  firstParentKey toLowerCase (issuelinks issue) = Some parentKey →
  truthy parentKey = true →
  getIssue parentKey = Ok parentIssue →
  navigateHierarchy toLowerCase getIssue issueKey NavSiblings
  = {| nr_result :=
         Ok {| nav_direction := NavSiblings;
               nav_summary := summary (fields issue);
               nav_related :=
                 omap (fetchedRow getIssue)
                   (siblingKeys toLowerCase issueKey (issuelinks parentIssue)) |};
       nr_lookups :=
         issueKey :: parentKey
         :: siblingKeys toLowerCase issueKey (issuelinks parentIssue) |}
  ∧ (issueKey ∉ siblingKeys toLowerCase issueKey (issuelinks parentIssue))
  ∧ siblingKeys toLowerCase issueKey (issuelinks parentIssue)
    = filter (fun k => k ≠ issueKey)
        (li_key <$> omap (childOf toLowerCase) (issuelinks parentIssue)).
Proof.
  intros Hissue Hparent Htruthy Hfetched. split_and!; [|by intros [? _]%list_elem_of_filter|done].
  unfold navigateHierarchy. rewrite Hissue, Hparent, Htruthy, Hfetched.
  by rewrite fetchSiblings_closed.
Qed.

Lemma navigate_siblings_witness :
  navigateHierarchy asciiLower siblingLookup "S-1" NavSiblings
  = {| nr_result :=
         Ok {| nav_direction := NavSiblings;
               nav_summary := Some "L-1";
               nav_related :=
                 omap (fetchedRow siblingLookup)
                   (siblingKeys asciiLower "S-1"
                      [isParentOf "S-1"; isParentOf "S-2"; isParentOf "S-3";
                       isParentOf "S-4"]) |};
       nr_lookups :=
         "S-1" :: "P-1"
         :: siblingKeys asciiLower "S-1"
              [isParentOf "S-1"; isParentOf "S-2"; isParentOf "S-3"; isParentOf "S-4"] |}
  ∧ ("S-1" ∉ siblingKeys asciiLower "S-1"
               [isParentOf "S-1"; isParentOf "S-2"; isParentOf "S-3"; isParentOf "S-4"])
  ∧ siblingKeys asciiLower "S-1"
      [isParentOf "S-1"; isParentOf "S-2"; isParentOf "S-3"; isParentOf "S-4"]
    = filter (fun k => k ≠ "S-1")
        (li_key <$> omap (childOf asciiLower)
           [isParentOf "S-1"; isParentOf "S-2"; isParentOf "S-3"; isParentOf "S-4"]).
Proof.
  apply (navigate_siblings asciiLower siblingLookup "S-1" "P-1"
           {| key := "S-1"; fields := fields linkedIssue; customfield_10102 := ELNone;
              issuelinks := [isChildOf "P-1"; isChildOf "P-2"] |}
           {| key := "P-1"; fields := fields linkedIssue; customfield_10102 := ELNone;
              issuelinks := [isParentOf "S-1"; isParentOf "S-2"; isParentOf "S-3";
                             isParentOf "S-4"] |}).
  - reflexivity.
  - reflexivity.
  - reflexivity.
  - reflexivity.
Defined.

(** The siblings of S-1 on the sample: S-2 is listed, S-3 cannot be
    fetched and the record of S-4 has no status. *)
Example siblings_of_S1 :
  nr_lookups (navigateHierarchy asciiLower siblingLookup "S-1" NavSiblings)
  = ["S-1"; "P-1"; "S-2"; "S-3"; "S-4"]
  ∧ (fun out => rel_key <$> nav_related out)
      <$> nr_result_ok (navigateHierarchy asciiLower siblingLookup "S-1" NavSiblings)
    = Some ["S-2"].
Proof. split; vm_compute; reflexivity. Qed.

(** ** Navigation and the rooted hierarchy *)

Lemma edgesKept_refl st : edgesKept st st.
Proof. by split. Qed.

Lemma edgesKept_trans st1 st2 st3 : edgesKept st1 st2 → edgesKept st2 st3 → edgesKept st1 st3.
Proof. intros [? ?] [? ?]. split; naive_solver. Qed.

Lemma edgesKept_addParent p c st : edgesKept st (addParent p c st).
Proof. split; [|done]. intros ? ? ?. by apply lookupList_addEdge_mono. Qed.

Lemma edgesKept_addCovers p c st : edgesKept st (addCovers p c st).
Proof. split; [done|]. intros ? ? ?. by apply lookupList_addEdge_mono. Qed.

Section NavigationAndHierarchy.

Variable toLowerCase : string → string.
Variable getIssue : Key → Result Issue.
Variable params : RootParams.

Lemma fetchIssueHierarchy_edgesKept fuel key depth st st' :
  fetchIssueHierarchy toLowerCase getIssue params fuel key depth st = Some st' →
  edgesKept st st'.
Proof.
  intros Hrun.
  eapply (fetchIssueHierarchy_keeps toLowerCase getIssue params (edgesKept st));
    [..|exact Hrun|apply edgesKept_refl].
  - intros p c s Hs. eapply edgesKept_trans; [exact Hs|apply edgesKept_addParent].
  - intros p c s Hs. eapply edgesKept_trans; [exact Hs|apply edgesKept_addCovers].
  - intros e k s Hs. eapply edgesKept_trans; [exact Hs|by split].
  - intros k e s _ _ Hs. eapply edgesKept_trans; [exact Hs|by split].
  - intros k i s _ _ Hs. eapply edgesKept_trans; [exact Hs|by split].
Qed.

Variable recur : Key → FetchState → option FetchState.
Hypothesis recur_edgesKept : ∀ k s s', recur k s = Some s' → edgesKept s s'.

Lemma followEdge_edgesKept add parent child next st st' :
  (∀ p c s, edgesKept s (add p c s)) →
  followEdge add recur parent child next st = Some st' → edgesKept st st'.
Proof.
  intros Hadd. unfold followEdge. destruct (truthy parent && truthy child).
  - case_bool_decide.
    + intros [= <-]. apply Hadd.
    + intros Hrun%recur_edgesKept. eapply edgesKept_trans; [apply Hadd|done].
  - intros [= <-]. apply edgesKept_refl.
Qed.

Lemma followEdge_addParent parent child next st st' :
  truthy parent = true → truthy child = true →
  followEdge addParent recur parent child next st = Some st' →
  child ∈ lookupList (fs_parentMap st') parent.
Proof.
  intros Hp Hc. unfold followEdge. rewrite Hp, Hc. simpl. case_bool_decide.
  - intros [= <-]. simpl. apply lookupList_addEdge_new.
  - intros [Hkept _]%recur_edgesKept. apply Hkept. simpl. apply lookupList_addEdge_new.
Qed.

Lemma followEdge_addCovers parent child next st st' :
  truthy parent = true → truthy child = true →
  followEdge addCovers recur parent child next st = Some st' →
  child ∈ lookupList (fs_coversMap st') parent.
Proof.
  intros Hp Hc. unfold followEdge. rewrite Hp, Hc. simpl. case_bool_decide.
  - intros [= <-]. simpl. apply lookupList_addEdge_new.
  - intros [_ Hkept]%recur_edgesKept. apply Hkept. simpl. apply lookupList_addEdge_new.
Qed.

Lemma fetchLink_outward key link st st' :
  truthy key = true →
  fetchLink toLowerCase recur key link st = Some st' →
  edgesKept st st'
  ∧ (∀ o, childOf toLowerCase link = Some o → truthy (li_key o) = true →
          li_key o ∈ lookupList (fs_parentMap st') key)
  ∧ (∀ o, coveredOf toLowerCase link = Some o → truthy (li_key o) = true →
          li_key o ∈ lookupList (fs_coversMap st') key).
Proof.
  intros Hkey. unfold fetchLink, childOf, coveredOf. intros Hrun.
  apply bind_Some in Hrun as (s2 & H1 & H2).
  assert (edgesKept st s2
          ∧ ∀ o, (if isRequirementLink toLowerCase (link_type link)
                  then outwardIs toLowerCase "covers" link else None) = Some o →
                 truthy (li_key o) = true →
                 li_key o ∈ lookupList (fs_coversMap s2) key) as [Hkept1 Hcovers].
  { clear H2. destruct (isRequirementLink _ _).
    2: { injection H1 as <-. split; [apply edgesKept_refl|done]. }
    apply bind_Some in H1 as (s1 & H0 & H1).
    assert (edgesKept s1 s2) as Hs12.
    { clear H0. destruct (inwardIs _ _ _); [|injection H1 as <-; apply edgesKept_refl].
      eapply followEdge_edgesKept; [apply edgesKept_addCovers|done]. }
    clear H1. destruct (outwardIs toLowerCase "covers" link) as [o|].
    - split.
      + eapply edgesKept_trans; [|exact Hs12].
        eapply followEdge_edgesKept; [apply edgesKept_addCovers|done].
      + intros o' [= <-] Ho. apply Hs12. by eapply followEdge_addCovers.
    - injection H0 as <-. by split. }
  assert (edgesKept s2 st'
          ∧ ∀ o, (if isParentChildLink toLowerCase (link_type link)
                  then outwardIs toLowerCase "is parent of" link else None) = Some o →
                 truthy (li_key o) = true →
                 li_key o ∈ lookupList (fs_parentMap st') key) as [Hkept2 Hchild].
  { clear H1 Hkept1 Hcovers. destruct (isParentChildLink _ _).
    2: { injection H2 as <-. split; [apply edgesKept_refl|done]. }
    apply bind_Some in H2 as (s3 & H2 & H3).
    assert (edgesKept s3 st') as Hs3.
    { clear H2. destruct (inwardIs _ _ _); [|injection H3 as <-; apply edgesKept_refl].
      eapply followEdge_edgesKept; [apply edgesKept_addParent|done]. }
    clear H3. destruct (outwardIs toLowerCase "is parent of" link) as [o|].
    - split.
      + eapply edgesKept_trans; [|exact Hs3].
        eapply followEdge_edgesKept; [apply edgesKept_addParent|done].
      + intros o' [= <-] Ho. apply Hs3. by eapply followEdge_addParent.
    - injection H2 as <-. by split. }
  split_and!.
  - by eapply edgesKept_trans.
  - done.
  - intros o Ho Htruthy. apply Hkept2. by apply Hcovers.
Qed.

Lemma forEachM_fetchLink_outward key links :
  truthy key = true →
  ∀ st st',
  forEachM (fetchLink toLowerCase recur key) links st = Some st' →
  edgesKept st st'
  ∧ (∀ link o, link ∈ links → childOf toLowerCase link = Some o →
               truthy (li_key o) = true → li_key o ∈ lookupList (fs_parentMap st') key)
  ∧ (∀ link o, link ∈ links → coveredOf toLowerCase link = Some o →
               truthy (li_key o) = true → li_key o ∈ lookupList (fs_coversMap st') key).
Proof.
  intros Hkey. induction links as [|link links IH]; intros st st'; simpl.
  - intros [= <-]. split_and!; [apply edgesKept_refl|by intros ? ? ?%elem_of_nil..].
  - destruct (fetchLink toLowerCase recur key link st) as [s1|] eqn:Hlink; [|done].
    simpl. intros Hrest.
    apply (fetchLink_outward _ _ _ _ Hkey) in Hlink as (Hkept1 & Hchild1 & Hcovers1).
    apply IH in Hrest as (Hkept2 & Hchild2 & Hcovers2).
    split_and!.
    + by eapply edgesKept_trans.
    + intros l o [->|Hl]%elem_of_cons Ho Htruthy.
      * apply Hkept2. by apply Hchild1.
      * by eapply Hchild2.
    + intros l o [->|Hl]%elem_of_cons Ho Htruthy.
      * apply Hkept2. by apply Hcovers1.
      * by eapply Hcovers2.
Qed.

End NavigationAndHierarchy.



(** * The body of [completeIssue] *)

Section ClientLogic.

Context {Server : Type}.

#[local] Abbreviation Client := (Client Server).

Lemma spec_ret {A} (a : A) (Φ : list ApiCall → Result A → Prop) :
  Φ [] (Ok a) → clientSpec (ret Server a) Φ.
Proof. intros HΦ s calls. exists []. by rewrite app_nil_r. Qed.

Lemma spec_throw {A} (e : ApiError) (Φ : list ApiCall → Result A → Prop) :
  Φ [] (Err e) → clientSpec (throw Server e) Φ.
Proof. intros HΦ s calls. exists []. by rewrite app_nil_r. Qed.

Lemma spec_request {A} (call : ApiCall) (answer : Server → Result A * Server)
  (Φ : list ApiCall → Result A → Prop) :
  (∀ r, Φ [call] r) → clientSpec (request Server call answer) Φ.
Proof.
  intros HΦ s calls. exists [call]. unfold request. destruct (answer s) as [r s']. done.
Qed.

Lemma spec_bind {A B} (m : Client A) (k : A → Client B)
  (Ψ : list ApiCall → Result A → Prop) (Φ : list ApiCall → Result B → Prop) :
  clientSpec m Ψ →
  (∀ new a, Ψ new (Ok a) → clientSpec (k a) (fun new' r => Φ (new ++ new') r)) →
  (∀ new e, Ψ new (Err e) → Φ new (Err e)) →
  clientSpec (bind Server m k) Φ.
Proof.
  intros Hm Hk Herr s calls. unfold bind.
  destruct (Hm s calls) as (new & Hcalls & HΨ).
  destruct (m s calls) as [[[a|e] s'] calls']; simpl in *; subst calls'.
  - destruct (Hk new a HΨ s' (calls ++ new)) as (new' & Hcalls' & HΦ).
    exists (new ++ new'). by rewrite app_assoc.
  - exists new. split; [done|]. by apply Herr.
Qed.

Lemma spec_mono {A} (m : Client A) (Ψ Φ : list ApiCall → Result A → Prop) :
  clientSpec m Ψ → (∀ new r, Ψ new r → Φ new r) → clientSpec m Φ.
Proof.
  intros Hm Himp s calls. destruct (Hm s calls) as (new & ? & ?).
  exists new. split; [done|]. by apply Himp.
Qed.

End ClientLogic.

(** ** The requests of the body *)

Lemma requestsWithin_nil k t n : requestsWithin k t n [].
Proof. split_and!; [done|simpl; lia..]. Qed.

Lemma requestsWithin_app k t1 n1 t2 n2 l1 l2 :
  requestsWithin k t1 n1 l1 → requestsWithin k t2 n2 l2 →
  requestsWithin k (t1 + t2) (n1 + n2) (l1 ++ l2).
Proof.
  intros (H1 & Ht1 & Hn1) (H2 & Ht2 & Hn2). split_and!.
  - by apply Forall_app.
  - rewrite filter_app, length_app. lia.
  - rewrite length_app. lia.
Qed.

Lemma requestsWithin_mono k t n t' n' l :
  requestsWithin k t n l → t ≤ t' → n ≤ n' → requestsWithin k t' n' l.
Proof. intros (? & ? & ?) ? ?. split_and!; [done|lia..]. Qed.

Section BodyRequests.

Variable toLowerCase : string → string.
Variable Server : Type.
Variable apiGetIssue : Key → Server → Result CompletionIssue * Server.
Variable apiGetIssueTransitions : Key → Server → Result TransitionsResponse * Server.
Variable apiTransitionIssue :
  Key → string → string → option string → Server → Result unit * Server.
Variable generateResolution : CompletionIssue → Result string.

#[local] Abbreviation within k t n :=
  (fun (new : list ApiCall) (_ : Result _) => requestsWithin k t n new).

(** The rule of sequencing with a budget of requests. *)
Lemma spec_bind_within {A B} k t1 n1 t2 n2 t n
  (m : Client Server A) (f : A → Client Server B) :
  t1 + t2 ≤ t → n1 + n2 ≤ n →
  clientSpec m (within k t1 n1) →
  (∀ a, clientSpec (f a) (within k t2 n2)) →
  clientSpec (bind Server m f) (within k t n).
Proof.
  intros Ht Hn Hm Hf. eapply spec_bind; [exact Hm|..].
  - intros new a Hnew. eapply spec_mono; [apply Hf|]. intros new' r Hnew'.
    simpl in Hnew, Hnew'.
    eapply requestsWithin_mono; [apply requestsWithin_app; [exact Hnew|exact Hnew']|lia..].
  - intros new e Hnew. simpl in Hnew. eapply requestsWithin_mono; [exact Hnew|lia..].
Qed.

Lemma spec_ret_within {A} k t n (a : A) : clientSpec (ret Server a) (within k t n).
Proof. apply spec_ret, requestsWithin_nil. Qed.

Lemma spec_throw_within {A} k t n e : clientSpec (throw Server (A := A) e) (within k t n).
Proof. apply spec_throw, requestsWithin_nil. Qed.

Lemma getIssueC_within k :
  clientSpec (getIssueC Server apiGetIssue k) (within k 0 1).
Proof.
  apply spec_request. intros _. split_and!; [by apply Forall_singleton|simpl; lia..].
Qed.

Lemma getIssueTransitionsC_within k :
  clientSpec (getIssueTransitionsC Server apiGetIssueTransitions k) (within k 0 1).
Proof.
  apply spec_request. intros _. split_and!; [by apply Forall_singleton|simpl; lia..].
Qed.

Lemma transitionIssueC_within k transitionId comment resolution :
  clientSpec (transitionIssueC Server apiTransitionIssue k transitionId comment resolution)
    (within k 1 1).
Proof.
  apply spec_request. intros _. split_and!; [by apply Forall_singleton|simpl; lia..].
Qed.

Lemma statusOf_within k issue : clientSpec (statusOf Server issue) (within k 0 0).
Proof.
  unfold statusOf. destruct (ci_status issue);
    [apply spec_ret_within|apply spec_throw_within].
Qed.

Lemma transitionsOf_within k response :
  clientSpec (transitionsOf Server response) (within k 0 0).
Proof.
  unfold transitionsOf. destruct response;
    [apply spec_ret_within|apply spec_throw_within].
Qed.

Lemma resolutionTextOf_within k params issue :
  clientSpec (resolutionTextOf Server generateResolution params issue) (within k 0 0).
Proof.
  unfold resolutionTextOf. destruct (truthy _); [apply spec_ret_within|].
  destruct (generateResolution issue); [apply spec_ret_within|apply spec_throw_within].
Qed.

Lemma leaveCanceled_within k status :
  clientSpec (leaveCanceled Server apiGetIssueTransitions apiTransitionIssue k status)
    (within k 1 2).
Proof.
  unfold leaveCanceled. destruct (_ && _); [|apply spec_ret_within].
  apply (spec_bind_within k 0 1 1 1); [lia..|apply getIssueTransitionsC_within|].
  intros transitions1.
  apply (spec_bind_within k 0 0 1 1); [lia..|apply transitionsOf_within|].
  intros transitions. destruct (findTo "Закрыт" transitions).
  - apply transitionIssueC_within.
  - apply spec_ret_within.
Qed.

Lemma throughClosed_within k resolutionText :
  clientSpec (throughClosed toLowerCase Server apiGetIssueTransitions apiTransitionIssue
                k resolutionText)
    (within k 2 4).
Proof.
  unfold throughClosed.
  apply (spec_bind_within k 0 1 2 3); [lia..|apply getIssueTransitionsC_within|].
  intros transitionsAfterCanceled.
  apply (spec_bind_within k 0 0 2 3); [lia..|apply transitionsOf_within|].
  intros transitions. destruct (findTo "Закрыт" transitions); [|apply spec_ret_within].
  apply (spec_bind_within k 1 1 1 2); [lia..|apply transitionIssueC_within|].
  intros _.
  apply (spec_bind_within k 0 1 1 1); [lia..|apply getIssueTransitionsC_within|].
  intros transitionsAfterClosed.
  apply (spec_bind_within k 0 0 1 1); [lia..|apply transitionsOf_within|].
  intros transitions'. destruct (findTo "Готово" transitions'); [|apply spec_ret_within].
  apply (spec_bind_within k 1 1 0 0); [lia..|apply transitionIssueC_within|].
  intros _. apply spec_ret_within.
Qed.

Lemma completeFetchedC_within k params issue :
  clientSpec (completeFetchedC toLowerCase Server apiGetIssue apiGetIssueTransitions
                apiTransitionIssue generateResolution k params issue)
    (within k 4 9).
Proof.
  unfold completeFetchedC.
  apply (spec_bind_within k 0 0 4 9); [lia..|apply statusOf_within|]. intros status.
  apply (spec_bind_within k 1 2 3 7); [lia..|apply leaveCanceled_within|]. intros _.
  apply (spec_bind_within k 0 1 3 6); [lia..|apply getIssueC_within|]. intros updatedIssue.
  apply (spec_bind_within k 0 0 3 6); [lia..|apply statusOf_within|]. intros updated.
  destruct (negb _); [apply spec_throw_within|].
  apply (spec_bind_within k 0 1 3 5); [lia..|apply getIssueTransitionsC_within|].
  intros transitionsResponse.
  destruct (findTo "Готово" _) as [doneTransition|].
  - apply (spec_bind_within k 0 0 1 1); [lia..|apply resolutionTextOf_within|].
    intros resolutionText.
    apply (spec_bind_within k 1 1 0 0); [lia..|apply transitionIssueC_within|].
    intros _. apply spec_ret_within.
  - destruct (findDoneCategory _) as [doneCategoryTransition|]; [|apply spec_throw_within].
    apply (spec_bind_within k 0 0 3 5); [lia..|apply resolutionTextOf_within|].
    intros resolutionText.
    apply (spec_bind_within k 1 1 2 4); [lia..|apply transitionIssueC_within|].
    intros _.
    apply (spec_bind_within k 2 4 0 0); [lia..| |].
    + destruct (String.eqb _ _); [apply throughClosed_within|apply spec_ret_within].
    + intros [readyResolution|]; apply spec_ret_within.
Qed.

Lemma completeKnownIssueC_requests k params :
  clientSpec (completeKnownIssueC toLowerCase Server apiGetIssue apiGetIssueTransitions
                apiTransitionIssue generateResolution k params)
    (fun new _ => requestsWithin k 4 10 new ∧ head new = Some (CallGetIssue k)).
Proof.
  unfold completeKnownIssueC.
  apply spec_bind with (Ψ := fun new _ => new = [CallGetIssue k]).
  - by apply spec_request.
  - intros new issue ->. eapply spec_mono; [apply completeFetchedC_within|].
    intros new' r Hnew'. split; [|done].
    apply (requestsWithin_app k 0 1 4 9 [CallGetIssue k] new'); [|done].
    split_and!; [by apply Forall_singleton|simpl; lia..].
  - intros new e ->. split; [|done].
    split_and!; [by apply Forall_singleton|simpl; lia..].
Qed.

End BodyRequests.

(** X19: whatever the tracker answers, the body of [completeIssue] sends
    requests for the issue to complete only, at most ten of them, of which
    at most four are transition requests; the first request is the lookup
    of the issue. *)
Theorem complete_requests_bounded (toLowerCase : string → string) (Server : Type)
  (apiGetIssue : Key → Server → Result CompletionIssue * Server)
  (apiGetIssueTransitions : Key → Server → Result TransitionsResponse * Server)
  (apiTransitionIssue : Key → string → string → option string → Server
                        → Result unit * Server)
  (generateResolution : CompletionIssue → Result string)
  (server : Server) (issueKey : Key) (params : CompleteParams) :
  requestsWithin issueKey 4 10
    (run_calls (completeKnownIssue toLowerCase Server apiGetIssue apiGetIssueTransitions
                  apiTransitionIssue generateResolution server issueKey params))
  ∧ head (run_calls (completeKnownIssue toLowerCase Server apiGetIssue
                       apiGetIssueTransitions apiTransitionIssue generateResolution
                       server issueKey params))
    = Some (CallGetIssue issueKey).
Proof.
  unfold completeKnownIssue.
  destruct (completeKnownIssueC_requests toLowerCase Server apiGetIssue
              apiGetIssueTransitions apiTransitionIssue generateResolution
              issueKey params server []) as (new & Hnew & Hspec).
  destruct (completeKnownIssueC _ _ _ _ _ _ _ _ _ _) as [[result s'] calls].
  simpl in Hnew. subst calls. done.
Qed.

(** ** What a completion reports *)

Section BodyReport.

Variable toLowerCase : string → string.
Variable Server : Type.
Variable apiGetIssue : Key → Server → Result CompletionIssue * Server.
Variable apiGetIssueTransitions : Key → Server → Result TransitionsResponse * Server.
Variable apiTransitionIssue :
  Key → string → string → option string → Server → Result unit * Server.
Variable generateResolution : CompletionIssue → Result string.

#[local] Abbreviation reported k params :=
  (fun (new : list ApiCall) (r : Result CompleteDone) =>
     match r with
     | Ok done =>
         completionReport generateResolution k params done
         ∧ ∃ transitionId, CallTransitionIssue k transitionId (cd_comment done) ∈ new
     | Err _ => True
     end).

#[local] Abbreviation anything := (fun (_ : list ApiCall) (_ : Result _) => True).

Lemma resolutionTextOf_spec params issue :
  clientSpec (resolutionTextOf Server generateResolution params issue)
    (fun new r =>
       match r with
       | Ok text =>
           if truthy (cp_customResolution params)
           then text = cp_customResolution params
           else ∃ issue', generateResolution issue' = Ok text
       | Err _ => True
       end).
Proof.
  unfold resolutionTextOf. destruct (truthy (cp_customResolution params)).
  - by apply spec_ret.
  - destruct (generateResolution issue) as [text|e] eqn:Hgen.
    + apply spec_ret. by exists issue.
    + by apply spec_throw.
Qed.

Lemma allowed_status (updatedStatus : option string) :
  negb match updatedStatus with
       | Some name =>
           bool_decide (name ∈ ALLOWED_STATUSES_FOR_COMPLETION) || String.eqb name "Закрыт"
       | None => false
       end = false →
  ∃ name, updatedStatus = Some name
          ∧ (name ∈ ALLOWED_STATUSES_FOR_COMPLETION ∨ name = "Закрыт").
Proof.
  destruct updatedStatus as [name|]; [|done]. intros Hallowed%negb_false_iff.
  exists name. split; [done|]. apply orb_true_iff in Hallowed as [Hin|Heq].
  - left. by apply bool_decide_eq_true in Hin.
  - right. by apply String.eqb_eq in Heq.
Qed.

Lemma completeFetchedC_reported k params issue :
  clientSpec (completeFetchedC toLowerCase Server apiGetIssue apiGetIssueTransitions
                apiTransitionIssue generateResolution k params issue)
    (reported k params).
Proof.
  unfold completeFetchedC.
  apply spec_bind with (Ψ := anything);
    [eapply spec_mono; [apply (statusOf_within Server k)|done]| |done].
  intros n1 status _.
  apply spec_bind with (Ψ := anything);
    [eapply spec_mono; [apply (leaveCanceled_within Server)|done]| |done].
  intros n2 _ _.
  apply spec_bind with (Ψ := anything);
    [eapply spec_mono; [apply (getIssueC_within Server)|done]| |done].
  intros n3 updatedIssue _.
  apply spec_bind with (Ψ := anything);
    [eapply spec_mono; [apply (statusOf_within Server k)|done]| |done].
  intros n4 updated _.
  destruct (negb _) eqn:Hallowed; [by apply spec_throw|].
  apply allowed_status in Hallowed.
  apply spec_bind with (Ψ := anything);
    [eapply spec_mono; [apply (getIssueTransitionsC_within Server)|done]| |done].
  intros n5 transitionsResponse _.
  destruct (findTo "Готово" _) as [doneTransition|].
  - eapply spec_bind; [apply resolutionTextOf_spec| |done].
    intros n6 resolutionText Htext.
    apply spec_bind with
      (Ψ := fun new _ => new = [CallTransitionIssue k (ct_id doneTransition) resolutionText]);
      [by apply spec_request| |done].
    intros n7 _ ->. apply spec_ret. split; [by split_and!|].
    exists (ct_id doneTransition). cbn [cd_comment]. rewrite !elem_of_app.
    do 6 right. left. by left.
  - destruct (findDoneCategory _) as [doneCategoryTransition|]; [|by apply spec_throw].
    eapply spec_bind; [apply resolutionTextOf_spec| |done].
    intros n6 resolutionText Htext.
    apply spec_bind with
      (Ψ := fun new _ =>
              new = [CallTransitionIssue k (ct_id doneCategoryTransition) resolutionText]);
      [by apply spec_request| |done].
    intros n7 _ ->.
    apply spec_bind with (Ψ := anything); [| |done].
    + destruct (String.eqb _ _).
      * eapply spec_mono; [apply (throughClosed_within toLowerCase Server)|done].
      * by apply spec_ret.
    + intros n8 finished _.
      assert (∀ rest : list ApiCall,
                CallTransitionIssue k (ct_id doneCategoryTransition) resolutionText
                ∈ n1 ++ n2 ++ n3 ++ n4 ++ n5 ++ n6
                  ++ [CallTransitionIssue k (ct_id doneCategoryTransition) resolutionText]
                  ++ rest) as Hsent.
      { intros rest. rewrite !elem_of_app. do 6 right. left. by left. }
      destruct finished as [readyResolution|]; apply spec_ret;
        (split; [by split_and!|]); exists (ct_id doneCategoryTransition); apply Hsent.
Qed.

Lemma completeKnownIssueC_reported k params :
  clientSpec (completeKnownIssueC toLowerCase Server apiGetIssue apiGetIssueTransitions
                apiTransitionIssue generateResolution k params)
    (reported k params).
Proof.
  unfold completeKnownIssueC.
  apply spec_bind with (Ψ := anything); [by apply spec_request| |done].
  intros n0 issue _. eapply spec_mono; [apply completeFetchedC_reported|].
  intros new [d|e]; [|done]. intros [Hreport [transitionId Hsent]].
  split; [done|]. exists transitionId. apply elem_of_app. by right.
Qed.

End BodyReport.

(** X20: whatever the tracker answers, a completion that succeeds reports
    the issue it was asked to complete and a status, read by the second
    lookup, from which completion is allowed (one of the seven listed
    statuses or "Закрыт"); its comment is the custom resolution when one
    was given and a text of the resolution generator otherwise; and a
    transition request for the issue with that comment was sent. *)
Theorem complete_success_report (toLowerCase : string → string) (Server : Type)
  (apiGetIssue : Key → Server → Result CompletionIssue * Server)
  (apiGetIssueTransitions : Key → Server → Result TransitionsResponse * Server)
  (apiTransitionIssue : Key → string → string → option string → Server
                        → Result unit * Server)
  (generateResolution : CompletionIssue → Result string)
  (server : Server) (issueKey : Key) (params : CompleteParams) :
  match run_result (completeKnownIssue toLowerCase Server apiGetIssue
                      apiGetIssueTransitions apiTransitionIssue generateResolution
                      server issueKey params) with
  | Ok done =>
      completionReport generateResolution issueKey params done
      ∧ ∃ transitionId,
          CallTransitionIssue issueKey transitionId (cd_comment done)
          ∈ run_calls (completeKnownIssue toLowerCase Server apiGetIssue
                         apiGetIssueTransitions apiTransitionIssue generateResolution
                         server issueKey params)
  | Err _ => True
  end.
Proof.
  unfold completeKnownIssue.
  destruct (completeKnownIssueC_reported toLowerCase Server apiGetIssue
              apiGetIssueTransitions apiTransitionIssue generateResolution
              issueKey params server []) as (new & Hnew & Hspec).
  destruct (completeKnownIssueC _ _ _ _ _ _ _ _ _ _) as [[result s'] calls].
  simpl in Hnew, Hspec. subst calls. done.
Qed.

(** X21: with a custom resolution the resolution generator has no part in
    a completion: the requests sent and the answer are the same whatever
    the generator would return or throw. *)
Theorem complete_custom_resolution_verbatim (toLowerCase : string → string)
  (Server : Type)
  (apiGetIssue : Key → Server → Result CompletionIssue * Server)
  (apiGetIssueTransitions : Key → Server → Result TransitionsResponse * Server)
  (apiTransitionIssue : Key → string → string → option string → Server
                        → Result unit * Server)
  (generateResolution generateResolution' : CompletionIssue → Result string)
  (server : Server) (issueKey : Key) (params : CompleteParams) :
  truthy (cp_customResolution params) = true →
  completeKnownIssue toLowerCase Server apiGetIssue apiGetIssueTransitions
    apiTransitionIssue generateResolution server issueKey params
  = completeKnownIssue toLowerCase Server apiGetIssue apiGetIssueTransitions
      apiTransitionIssue generateResolution' server issueKey params.
Proof.
  intros Hcustom.
  unfold completeKnownIssue, completeKnownIssueC, completeFetchedC, resolutionTextOf.
  rewrite Hcustom. reflexivity.
Qed.

Lemma complete_custom_resolution_verbatim_witness :
  completeKnownIssue asciiLower nat (trackerGetIssue "Under Review") trackerGetTransitions
    trackerTransition templateResolution 0 "RIVER-7" (completeRiver7 "Проверено")
  = completeKnownIssue asciiLower nat (trackerGetIssue "Under Review") trackerGetTransitions
      trackerTransition (fun _ => Err notFound) 0 "RIVER-7" (completeRiver7 "Проверено").
Proof.
  apply (complete_custom_resolution_verbatim asciiLower nat (trackerGetIssue "Under Review")
           trackerGetTransitions trackerTransition templateResolution
           (fun _ => Err notFound) 0 "RIVER-7" (completeRiver7 "Проверено")).
  reflexivity.
Defined.

(** The completion of RIVER-7 on the sample tracker: the transition to
    "Готово" is taken although the transition into the Done category
    comes first, with the resolution named "Готово". *)
Example complete_river7 :
  completeKnownIssue asciiLower nat (trackerGetIssue "Under Review") trackerGetTransitions
    trackerTransition templateResolution 0 "RIVER-7" (completeRiver7 "Проверено")
  = {| run_result :=
         Ok {| cd_issueKey := "RIVER-7";
               cd_previousStatus := Some "Under Review";
               cd_updatedStatus := Some "Under Review";
               cd_newStatus := "Готово";
               cd_resolution := Some "Готово";
               cd_comment := "Проверено";
               cd_throughClosed := false |};
       run_calls := [CallGetIssue "RIVER-7"; CallGetIssue "RIVER-7";
                     CallGetIssueTransitions "RIVER-7";
                     CallTransitionIssue "RIVER-7" "51" "Проверено"] |}.
Proof. vm_compute. reflexivity. Qed.

(** ** Two paths through the body *)

Section BodyPaths.

Context {Server : Type}.

Lemma bind_request_ok {A B} (call : ApiCall) (answer : Server → Result A * Server)
  (f : A → Client Server B) (s : Server) (calls : list ApiCall) (a : A) :
  (answer s).1 = Ok a →
  bind Server (request Server call answer) f s calls = f a (answer s).2 (calls ++ [call]).
Proof. unfold bind, request. destruct (answer s) as [r s']. simpl. by intros ->. Qed.

Lemma bind_request_err {A B} (call : ApiCall) (answer : Server → Result A * Server)
  (f : A → Client Server B) (s : Server) (calls : list ApiCall) (e : ApiError) :
  (answer s).1 = Err e →
  bind Server (request Server call answer) f s calls = (Err e, (answer s).2, calls ++ [call]).
Proof. unfold bind, request. destruct (answer s) as [r s']. simpl. by intros ->. Qed.

End BodyPaths.

(** X22: [completeIssue] refuses an issue whose status allows no
    completion.  When the lookups of the issue answer with a record whose
    status is neither one of the seven listed statuses nor "Закрыт" (and
    not "Canceled" of the Done category, which is first moved on), the
    call fails with "Cannot complete issue from status ..." after the two
    lookups: no transition is asked for, none is requested, and the
    resolution generator is not consulted. *)
Theorem complete_refuses_status (toLowerCase : string → string) (Server : Type)
  (apiGetIssue : Key → Server → Result CompletionIssue * Server)
  (apiGetIssueTransitions : Key → Server → Result TransitionsResponse * Server)
  (apiTransitionIssue : Key → string → string → option string → Server
                        → Result unit * Server)
  (generateResolution : CompletionIssue → Result string)
  (server : Server) (trackerFile : TrackerFile) (params : CompleteParams)
  (issue : CompletionIssue) (status : StatusInfo) :
  truthy (cp_issueKey params) = true →
  (∀ s, (apiGetIssue (cp_issueKey params) s).1 = Ok issue) →
  ci_status issue = Some status →
  (∀ name, sn_name status = Some name →
           (name ∉ ALLOWED_STATUSES_FOR_COMPLETION) ∧ name ≠ "Закрыт"
           ∧ (name = "Canceled" → sn_categoryKey status ≠ Some "done")) →
  completeIssue CompleteDone
    (completeKnownIssue toLowerCase Server apiGetIssue apiGetIssueTransitions
       apiTransitionIssue generateResolution server)
    trackerFile params
  = {| run_result :=
         Err {| statusCode := None;
                message := "Failed to complete issue: "
                           +:+ message (cannotComplete (sn_name status)) |};
       run_calls := [CallGetIssue (cp_issueKey params); CallGetIssue (cp_issueKey params)] |}.
Proof.
  intros Hkey Hissue Hstatus Hname. unfold completeIssue. rewrite Hkey.
  assert (completeKnownIssue toLowerCase Server apiGetIssue apiGetIssueTransitions
            apiTransitionIssue generateResolution server (cp_issueKey params) params
          = {| run_result := Err (cannotComplete (sn_name status));
               run_calls := [CallGetIssue (cp_issueKey params);
                             CallGetIssue (cp_issueKey params)] |}) as ->; [|done].
  unfold completeKnownIssue, completeKnownIssueC, getIssueC.
  rewrite (bind_request_ok _ _ _ _ _ issue) by apply Hissue.
  unfold completeFetchedC at 1, statusOf. rewrite Hstatus.
  unfold bind at 1, ret at 1.
  assert (leaveCanceled Server apiGetIssueTransitions apiTransitionIssue
            (cp_issueKey params) status = ret Server tt) as ->.
  { unfold leaveCanceled. destruct (sn_name status) as [name|] eqn:Hn; [|done].
    destruct (Hname name eq_refl) as (_ & _ & Hcanceled).
    case_bool_decide as Hc; [|done]. injection Hc as ->.
    by rewrite bool_decide_eq_false_2 by (by apply Hcanceled). }
  unfold bind at 1, ret at 1, getIssueC.
  rewrite (bind_request_ok _ _ _ _ _ issue) by apply Hissue.
  rewrite Hstatus. unfold bind at 1, ret at 1.
  assert (match sn_name status with
          | Some name =>
              bool_decide (name ∈ ALLOWED_STATUSES_FOR_COMPLETION)
              || String.eqb name "Закрыт"
          | None => false
          end = false) as ->.
  { destruct (sn_name status) as [name|] eqn:Hn; [|done].
    destruct (Hname name eq_refl) as (Hout & Hclosed & _).
    rewrite bool_decide_eq_false_2 by done. by apply String.eqb_neq. }
  reflexivity.
Qed.

Lemma complete_refuses_status_witness :
  completeIssue CompleteDone
    (completeKnownIssue asciiLower nat (trackerGetIssue "Blocked") trackerGetTransitions
       trackerTransition templateResolution 0)
    NoFile (completeRiver7 "")
  = {| run_result :=
         Err {| statusCode := None;
                message := "Failed to complete issue: "
                           +:+ message (cannotComplete (Some "Blocked")) |};
       run_calls := [CallGetIssue "RIVER-7"; CallGetIssue "RIVER-7"] |}.
Proof.
  apply (complete_refuses_status asciiLower nat (trackerGetIssue "Blocked")
           trackerGetTransitions trackerTransition templateResolution 0 NoFile
           (completeRiver7 "") (reviewedIssue "Blocked")
           {| sn_name := Some "Blocked"; sn_categoryKey := Some "indeterminate" |}).
  - reflexivity.
  - reflexivity.
  - reflexivity.
  - intros name [= <-]. split_and!; [|done..].
    apply (bool_decide_unpack _). vm_compute. reflexivity.
Defined.

Lemma findTo_first (name : string) (transitions : list CTransition) (t : CTransition) :
  findTo name transitions = Some t →
  ∃ before after,
    transitions = before ++ t :: after
    ∧ Forall (fun t' => ct_toName t' ≠ name) before
    ∧ ct_toName t = name.
Proof.
  unfold findTo. intros ([i t'] & Hfind & ->)%fmap_Some.
  apply list_find_Some in Hfind as (Hi & Hname & Hbefore). simpl.
  exists (take i transitions), (drop (S i) transitions). split_and!; [|apply Forall_forall|done].
  - by rewrite <- (take_drop_middle _ _ _ Hi) at 1.
  - intros t0 Ht0. apply list_elem_of_lookup in Ht0 as [j Hj].
    pose proof (lookup_lt_Some _ _ _ Hj) as Hlt. rewrite length_take in Hlt.
    rewrite lookup_take_lt in Hj by lia. eapply Hbefore; [exact Hj|lia].
Qed.

(** X23: from a status that allows completion, an issue is moved by the
    first transition that leads to "Готово", whatever transitions into the
    Done category are offered before it.  With a custom resolution the
    requests are the two lookups, the reading of the transitions and that
    one transition, with the custom resolution as its comment; the answer
    is a success when the tracker accepts the transition and its error
    otherwise. *)
Theorem complete_prefers_ready (toLowerCase : string → string) (Server : Type)
  (apiGetIssue : Key → Server → Result CompletionIssue * Server)
  (apiGetIssueTransitions : Key → Server → Result TransitionsResponse * Server)
  (apiTransitionIssue : Key → string → string → option string → Server
                        → Result unit * Server)
  (generateResolution : CompletionIssue → Result string)
  (server : Server) (issueKey : Key) (params : CompleteParams)
  (issue : CompletionIssue) (status : StatusInfo) (name : string)
  (transitions : list CTransition) (t : CTransition) :
  (∀ s, (apiGetIssue issueKey s).1 = Ok issue) →
  ci_status issue = Some status →
  sn_name status = Some name →
  name ∈ ALLOWED_STATUSES_FOR_COMPLETION ∨ name = "Закрыт" →
  (∀ s, (apiGetIssueTransitions issueKey s).1 = Ok (Some transitions)) →
  findTo "Готово" transitions = Some t →
  truthy (cp_customResolution params) = true →
  (∃ before after,
     transitions = before ++ t :: after
     ∧ Forall (fun t' => ct_toName t' ≠ "Готово") before
     ∧ ct_toName t = "Готово")
  ∧ ∃ s,
      completeKnownIssue toLowerCase Server apiGetIssue apiGetIssueTransitions
        apiTransitionIssue generateResolution server issueKey params
      = {| run_result :=
             match (apiTransitionIssue issueKey (ct_id t) (cp_customResolution params)
                      (readyResolutionOf toLowerCase t) s).1 with
             | Ok _ =>
                 Ok {| cd_issueKey := issueKey;
                       cd_previousStatus := Some name;
                       cd_updatedStatus := Some name;
                       cd_newStatus := "Готово";
                       cd_resolution := readyResolutionOf toLowerCase t;
                       cd_comment := cp_customResolution params;
                       cd_throughClosed := false |}
             | Err e => Err e
             end;
           run_calls :=
             [CallGetIssue issueKey; CallGetIssue issueKey;
              CallGetIssueTransitions issueKey;
              CallTransitionIssue issueKey (ct_id t) (cp_customResolution params)] |}.
Proof.
  intros Hissue Hstatus Hname Hallowed Htransitions Hready Hcustom.
  pose proof (findTo_first _ _ _ Hready) as Hfirst. split; [exact Hfirst|].
  destruct Hfirst as (_ & _ & _ & _ & HtoName).
  unfold completeKnownIssue, completeKnownIssueC, getIssueC.
  rewrite (bind_request_ok _ _ _ _ _ issue) by apply Hissue.
  unfold completeFetchedC at 1, statusOf. rewrite Hstatus.
  unfold bind at 1, ret at 1.
  assert (leaveCanceled Server apiGetIssueTransitions apiTransitionIssue issueKey status
          = ret Server tt) as ->.
  { unfold leaveCanceled. rewrite Hname. case_bool_decide as Hc; [|done].
    injection Hc as ->. exfalso. destruct Hallowed as [Hin|Heq]; [|done].
    revert Hin. apply (bool_decide_unpack _). vm_compute. reflexivity. }
  unfold bind at 1, ret at 1, getIssueC.
  rewrite (bind_request_ok _ _ _ _ _ issue) by apply Hissue.
  rewrite Hstatus. unfold bind at 1, ret at 1. rewrite Hname.
  assert (bool_decide (name ∈ ALLOWED_STATUSES_FOR_COMPLETION) || String.eqb name "Закрыт"
          = true) as ->.
  { destruct Hallowed as [Hin| ->]; [by rewrite bool_decide_eq_true_2|].
    by rewrite String.eqb_refl, orb_true_r. }
  cbn [negb]. unfold getIssueTransitionsC.
  rewrite (bind_request_ok _ _ _ _ _ (Some transitions)) by apply Htransitions.
  cbv beta zeta. change (default [] (Some transitions)) with transitions.
  rewrite Hready. unfold resolutionTextOf. rewrite Hcustom.
  unfold bind at 1, ret at 1. unfold transitionIssueC.
  exists (apiGetIssueTransitions issueKey
            (apiGetIssue issueKey (apiGetIssue issueKey server).2).2).2.
  unfold bind, request.
  destruct (apiTransitionIssue issueKey (ct_id t) (cp_customResolution params)
              (readyResolutionOf toLowerCase t) _) as [[[]|e] s']; simpl.
  - by rewrite HtoName.
  - done.
Qed.

Lemma complete_prefers_ready_witness :
  (∃ before after,
     offeredTransitions
     = before ++ {| ct_id := "51"; ct_name := "Finish"; ct_toName := "Готово";
                    ct_toCategoryKey := Some "done";
                    ct_resolution := Some {| rf_required := true;
                                             rf_allowedValues := Some ["Fixed"; "Готово"] |} |}
       :: after
     ∧ Forall (fun t' => ct_toName t' ≠ "Готово") before
     ∧ "Готово" = "Готово")
  ∧ ∃ s,
      completeKnownIssue asciiLower nat (trackerGetIssue "Under Review")
        trackerGetTransitions trackerTransition templateResolution 0 "RIVER-7"
        (completeRiver7 "Проверено")
      = {| run_result :=
             match (trackerTransition "RIVER-7" "51" "Проверено" (Some "Готово") s).1 with
             | Ok _ =>
                 Ok {| cd_issueKey := "RIVER-7";
                       cd_previousStatus := Some "Under Review";
                       cd_updatedStatus := Some "Under Review";
                       cd_newStatus := "Готово";
                       cd_resolution := Some "Готово";
                       cd_comment := "Проверено";
                       cd_throughClosed := false |}
             | Err e => Err e
             end;
           run_calls :=
             [CallGetIssue "RIVER-7"; CallGetIssue "RIVER-7";
              CallGetIssueTransitions "RIVER-7";
              CallTransitionIssue "RIVER-7" "51" "Проверено"] |}.
Proof.
  apply (complete_prefers_ready asciiLower nat (trackerGetIssue "Under Review")
           trackerGetTransitions trackerTransition templateResolution 0 "RIVER-7"
           (completeRiver7 "Проверено") (reviewedIssue "Under Review")
           {| sn_name := Some "Under Review"; sn_categoryKey := Some "indeterminate" |}
           "Under Review" offeredTransitions
           {| ct_id := "51"; ct_name := "Finish"; ct_toName := "Готово";
              ct_toCategoryKey := Some "done";
              ct_resolution := Some {| rf_required := true;
                                       rf_allowedValues := Some ["Fixed"; "Готово"] |} |}).
  - reflexivity.
  - reflexivity.
  - reflexivity.
  - left. apply (bool_decide_unpack _). vm_compute. reflexivity.
  - reflexivity.
  - reflexivity.
  - reflexivity.
Defined.

(** * Epics and folders *)

Lemma rget_pushEpicData folder d m f :
  default [] (rget f (pushEpicData folder d m))
  = if bool_decide (f = folder)
    then (if bool_decide (ed_epicKey d ∈ ed_epicKey <$> default [] (rget folder m))
          then default [] (rget folder m) else default [] (rget folder m) ++ [d])
    else default [] (rget f m).
Proof.
  unfold pushEpicData. destruct (decide (f = folder)) as [->|Hf].
  - rewrite (bool_decide_eq_true_2 (folder = folder)) by done. by rewrite rget_rset_eq.
  - rewrite (bool_decide_eq_false_2 (f = folder)) by done.
    by rewrite rget_rset_ne by done.
Qed.

Lemma pushEpicData_all d (folders : list string) :
  ∀ m, NoDup folders →
  (∀ f, f ∈ folders → ed_epicKey d ∉ ed_epicKey <$> default [] (rget f m)) →
  ∀ f, default [] (rget f (foldl (fun m f => pushEpicData f d m) m folders))
       = default [] (rget f m) ++ (if bool_decide (f ∈ folders) then [d] else []).
Proof.
  induction folders as [|f0 folders IH]; intros m Hnd Hfresh f.
  - simpl. by rewrite app_nil_r.
  - apply NoDup_cons in Hnd as [Hf0 Hnd]. cbn [foldl]. rewrite IH; [|done|].
    + rewrite rget_pushEpicData. destruct (decide (f = f0)) as [->|Hne].
      * rewrite (bool_decide_eq_true_2 (f0 = f0)) by done.
        rewrite bool_decide_eq_false_2 by (apply Hfresh; left).
        rewrite (bool_decide_eq_false_2 (f0 ∈ folders)) by done.
        rewrite (bool_decide_eq_true_2 (f0 ∈ f0 :: folders)) by left.
        by rewrite app_nil_r.
      * rewrite (bool_decide_eq_false_2 (f = f0)) by done.
        destruct (decide (f ∈ folders)) as [Hin|Hout].
        -- rewrite !bool_decide_eq_true_2; [done|by right|done].
        -- rewrite !bool_decide_eq_false_2; [done| |done].
           by intros [?|?]%elem_of_cons.
    + intros f' Hf'. rewrite rget_pushEpicData.
      rewrite bool_decide_eq_false_2 by (intros ->; done).
      apply Hfresh. by right.
Qed.

Lemma groupEpics_fold (g : Graph) (issueToFolderMap : Rec (list string)) (keys : list Key) :
  ∀ (done : list Key) (F : Rec (list EpicData)) (W : list EpicData),
  NoDup (done ++ keys) →
  (∀ f d, d ∈ default [] (rget f F) → ed_epicKey d ∈ done) →
  let result :=
    foldl (fun '(folderToEpicsMap, epicsWithoutFolders) epicKey =>
             let issuesInEpic := default [] (rget epicKey (g_epicMap g)) in
             let epicData := {| ed_epicKey := epicKey;
                                ed_epic := rget epicKey (g_issueMap g);
                                ed_issues := issuesInEpic |} in
             match epicFolders issueToFolderMap epicKey issuesInEpic with
             | [] => (folderToEpicsMap, epicsWithoutFolders ++ [epicData])
             | folders =>
                 (foldl (fun m f => pushEpicData f epicData m) folderToEpicsMap folders,
                  epicsWithoutFolders)
             end) (F, W) keys in
  result.2
  = W ++ (epicDataOf g <$> filter (fun k => epicFoldersOf g issueToFolderMap k = []) keys)
  ∧ ∀ f, default [] (rget f result.1)
         = default [] (rget f F)
           ++ (epicDataOf g <$> filter (fun k => f ∈ epicFoldersOf g issueToFolderMap k) keys).
Proof.
  induction keys as [|k keys IH]; intros done F W Hnd Hdone; cbv zeta.
  - simpl. split; [by rewrite app_nil_r|]. intros f. by rewrite app_nil_r.
  - match goal with
    | |- context [foldl ?step (F, W) (k :: keys)] =>
        change (foldl step (F, W) (k :: keys)) with (foldl step (step (F, W) k) keys)
    end.
    cbv beta iota zeta.
    change (epicFolders issueToFolderMap k (default [] (rget k (g_epicMap g))))
      with (epicFoldersOf g issueToFolderMap k).
    change {| ed_epicKey := k; ed_epic := rget k (g_issueMap g);
              ed_issues := default [] (rget k (g_epicMap g)) |}
      with (epicDataOf g k).
    assert (NoDup ((done ++ [k]) ++ keys)) as Hnd' by (by rewrite <- app_assoc).
    assert (k ∉ done) as Hk.
    { apply NoDup_app in Hnd as (_ & Hdisj & _). intros Hin. apply (Hdisj k Hin). by left. }
    rewrite !filter_cons.
    destruct (epicFoldersOf g issueToFolderMap k) as [|f0 folders] eqn:Hfolders.
    + rewrite decide_True by done.
      specialize (IH (done ++ [k]) F (W ++ [epicDataOf g k]) Hnd').
      cbv zeta in IH. destruct IH as [HW HF].
      { intros f d Hd. apply elem_of_app. left. by eapply Hdone. }
      split.
      * rewrite HW, <- app_assoc. done.
      * intros f. rewrite HF, filter_cons, Hfolders.
        rewrite decide_False by (by intros ?%elem_of_nil). done.
    + rewrite decide_False by done.
      assert (NoDup (f0 :: folders)) as Hfnd.
      { rewrite <- Hfolders. apply NoDup_arrayFromSet. }
      assert (∀ f, default [] (rget f (foldl (fun m f => pushEpicData f (epicDataOf g k) m)
                                          F (f0 :: folders)))
                   = default [] (rget f F)
                     ++ (if bool_decide (f ∈ f0 :: folders) then [epicDataOf g k] else []))
        as Hpushed.
      { apply pushEpicData_all; [done|].
        intros f _ (d & Hkey & Hd)%list_elem_of_fmap. apply Hk.
        simpl in Hkey. rewrite Hkey. by eapply Hdone. }
      specialize (IH (done ++ [k])
                    (foldl (fun m f => pushEpicData f (epicDataOf g k) m) F (f0 :: folders))
                    W Hnd').
      cbv zeta in IH. destruct IH as [HW HF].
      { intros f d. rewrite Hpushed, !elem_of_app. intros [Hd|Hd].
        - left. by eapply Hdone.
        - right. case_bool_decide; [|by apply elem_of_nil in Hd].
          apply list_elem_of_singleton in Hd as ->. by left. }
      split; [exact HW|].
      intros f. rewrite HF, Hpushed, <- app_assoc, filter_cons, Hfolders. f_equal.
      destruct (decide (f ∈ f0 :: folders)) as [Hin|Hout].
      * by rewrite bool_decide_eq_true_2.
      * by rewrite bool_decide_eq_false_2.
Qed.



(** On the sample E-1 goes to "Release 1" because of its issue T-1, and
    E-2 to "Release 2", the first segment of its own folder path. *)
Example epics_in_release_folders :
  (fun entry : string * list EpicData => (entry.1, ed_epicKey <$> entry.2))
    <$> (groupEpics twoEpicGraph releaseFolders ["E-1"; "E-2"]).1
  = [("Release 1", ["E-1"]); ("Release 2", ["E-2"])]
  ∧ (groupEpics twoEpicGraph releaseFolders ["E-1"; "E-2"]).2 = [].
Proof. split; vm_compute; reflexivity. Qed.

(** * The shape of a rendered tree *)

Section TreeShape.

Variable issueMap : Rec Issue.
Variables coversMap parentMap : gmap Key (list Key).

#[local] Abbreviation shaped := (treeShaped coversMap parentMap).

Lemma treeShaped_nil : shaped [].
Proof. intros front m back Heq. by destruct front. Qed.

Lemma treeShaped_singleton n : shaped [n].
Proof.
  intros front m back Heq Hfront. destruct front as [|x front]; [done|].
  injection Heq as _ Heq. by destruct front.
Qed.

(** Appending the tree of a child under the head of the lines so far. *)
Lemma treeShaped_app_child (h : RenderedNode) (acc childLines : list RenderedNode) (c : Key) :
  Forall (fun x => rn_level h < rn_level x) acc →
  shaped (h :: acc) →
  c ∈ allChildren coversMap parentMap (rn_key h) →
  (childLines = []
   ∨ ∃ hd rest, childLines = hd :: rest ∧ rn_key hd = c ∧ rn_level hd = S (rn_level h)) →
  shaped childLines →
  shaped ((h :: acc) ++ childLines).
Proof.
  intros Hacc Hshaped Hc Hhead Hchild front m back Heq Hfront.
  apply List.app_eq_app in Heq as [l [[Hleft Hright]|[Hleft Hright]]].
  - destruct l as [|x l].
    + rewrite app_nil_r in Hleft. subst front. simpl in Hright.
      destruct Hhead as [->|(hd & rest & -> & Hkey & Hlevel)]; [done|].
      injection Hright as -> ->.
      exists [], h, acc. split_and!; [done|done|by rewrite Hkey|done].
    + simpl in Hright. injection Hright as -> ->.
      by apply (Hshaped front x l).
  - destruct l as [|x l].
    + rewrite app_nil_r in Hleft. subst front. simpl in Hright.
      destruct Hhead as [->|(hd & rest & -> & Hkey & Hlevel)]; [done|].
      injection Hright as -> ->.
      exists [], h, acc. split_and!; [done|done|by rewrite Hkey|done].
    + destruct (Hchild (x :: l) m back Hright ltac:(done)) as (f1 & p & f2 & Hl & ? & ? & ?).
      exists ((h :: acc) ++ f1), p, f2. split_and!; [|done..].
      rewrite Hleft, Hl. by rewrite <- app_assoc.
Qed.

Lemma forEachChild_treeShaped rec (h : RenderedNode) cs :
  (∀ c l w r, c ∈ cs → rec c l w = Some r →
     (r.1 = [] ∨ ∃ hd rest, r.1 = hd :: rest ∧ rn_key hd = c
                            ∧ rn_level hd = S (rn_level h))
     ∧ Forall (fun x => rn_level h < rn_level x) r.1
     ∧ shaped r.1) →
  (∀ c, c ∈ cs → c ∈ allChildren coversMap parentMap (rn_key h)) →
  ∀ i n acc v lines v',
  Forall (fun x => rn_level h < rn_level x) acc →
  shaped (h :: acc) →
  forEachChild rec cs i n (h :: acc) v = Some (lines, v') →
  shaped lines.
Proof.
  induction cs as [|c cs IH]; intros Hrec Hcs i n acc v lines v' Hacc Hshaped; simpl.
  - by intros [= <- <-].
  - destruct (rec c (i =? n - 1)%nat v) as [[childLines w]|] eqn:Hc; [|done].
    destruct (Hrec c _ _ _ ltac:(left) Hc) as (Hhead & Hdeeper & Hchild). simpl in *.
    change (h :: acc ++ childLines) with (h :: (acc ++ childLines)).
    apply IH.
    + intros c' l w' r Hc'. apply Hrec. by right.
    + intros c' Hc'. apply Hcs. by right.
    + by apply Forall_app.
    + apply (treeShaped_app_child h acc childLines c); [done..|by apply Hcs; left|done|done].
Qed.

Lemma buildTreeLines_treeShaped fuel :
  ∀ issueKey level prefix isLast visited lines visited',
  buildTreeLines issueMap coversMap parentMap fuel issueKey level prefix isLast visited
  = Some (lines, visited') →
  shaped lines.
Proof.
  induction fuel as [|fuel IH]; intros issueKey level prefix isLast visited lines visited';
    simpl; [done|].
  case_bool_decide; [intros [= <- <-]; apply treeShaped_nil|].
  destruct (rget issueKey issueMap) as [issue|] eqn:Hissue;
    [|intros [= <- <-]; apply treeShaped_nil].
  apply (forEachChild_treeShaped _
           {| rn_key := issueKey; rn_level := level; rn_prefix := prefix;
              rn_isLast := isLast; rn_issue := issue |}).
  - intros c l w [ls w'] _ Hc. simpl. split_and!.
    + apply buildTreeLines_head in Hc
        as [->|(hd & rest & -> & Hkey & Hlevel & _)]; [by left|right].
      by exists hd, rest.
    + apply buildTreeLines_nodes in Hc. eapply Forall_impl; [exact Hc|].
      simpl. intros x [_ ?]. lia.
    + by eapply IH.
  - done.
  - done.
  - apply treeShaped_singleton.
Qed.

End TreeShape.

(** X25: the tree of a rooted hierarchy shows the edges that were
    recorded.  Its first node is the root, at level 0; every other node
    lies exactly one level below the nearest node before it that is
    higher, and is a child of that node in the Coverage or Containment
    dictionary. *)
Theorem rooted_tree_follows_edges (toLowerCase : string → string)
  (getIssue : Key → Result Issue) (params : RootParams) :
  ∃ st, fetchFromRoot toLowerCase getIssue params = Some st
  ∧ match getIssueHierarchyFromRoot toLowerCase getIssue params with
    | Some (RootedHierarchy out) =>
        (∃ root rest,
           ro_treeLines out = root :: rest
           ∧ rn_key root = rp_issueKey params ∧ rn_level root = 0
           ∧ Forall (fun n => 0 < rn_level n) rest)
        ∧ treeShaped (fs_coversMap st) (fs_parentMap st) (ro_treeLines out)
    | _ => True
    end.
Proof.
  destruct (fetchFromRoot_total toLowerCase getIssue params) as (st & Hst & _).
  exists st. split; [done|].
  unfold getIssueHierarchyFromRoot. rewrite Hst. cbn -[buildTreeLines treeFuel].
  destruct (rget (rp_issueKey params) (fs_issueMap st)) as [rootIssue|] eqn:Hroot; [|done].
  destruct (buildTreeLines _ _ _ _ _ _ _ _ _) as [[treeLines v]|] eqn:Hwalk; [|done].
  cbn -[buildTreeLines treeFuel]. split.
  - pose proof (buildTreeLines_expands _ _ _ _ _ _ _ _ _ _ _
                  (not_elem_of_empty _) (mk_is_Some _ _ Hroot) Hwalk) as [[others Hkeys] _].
    apply buildTreeLines_head in Hwalk
      as [->|(root & rest & -> & Hkey & Hlevel & _ & _ & Hdeeper)]; [done|].
    by exists root, rest.
  - by eapply buildTreeLines_treeShaped.
Qed.

(** * The folder overlay *)

Lemma forEachM_inv {A S} (P : S → Prop) (f : A → S → option S) (xs : list A) :
  (∀ x s s', x ∈ xs → f x s = Some s' → P s → P s') →
  ∀ s s', forEachM f xs s = Some s' → P s → P s'.
Proof.
  induction xs as [|x xs IH]; intros Hf s s'; simpl.
  - by intros [= <-].
  - destruct (f x s) as [s1|] eqn:Hx; [|done]. simpl. intros Hrun HP.
    eapply IH; [|done|].
    + intros y t t' Hy. apply Hf. by right.
    + eapply Hf; [by left|done..].
Qed.

Lemma rget_pushUnique k v m k' :
  rget k' (pushUnique k v m)
  = if bool_decide (k' = k)
    then Some (if bool_decide (v ∈ default [] (rget k m))
               then default [] (rget k m) else default [] (rget k m) ++ [v])
    else rget k' m.
Proof.
  unfold pushUnique. destruct (decide (k' = k)) as [->|Hne].
  - rewrite (bool_decide_eq_true_2 (k = k)) by done. by rewrite rget_rset_eq.
  - rewrite (bool_decide_eq_false_2 (k' = k)) by done. by rewrite rget_rset_ne.
Qed.

Lemma rget_NoDup_default (m : Rec (list string)) (k : Key) :
  (∀ paths, rget k m = Some paths → NoDup paths) → NoDup (default [] (rget k m)).
Proof. destruct (rget k m) as [paths|]; simpl; [by intros H; apply H|constructor]. Qed.

Lemma mapElement_inv elements folderInfoMap issueMap allEpicKeysInMap element ov ov' :
  element ∈ elements →
  mapElement elements folderInfoMap issueMap allEpicKeysInMap element ov = Some ov' →
  overlayInv elements issueMap allEpicKeysInMap ov →
  overlayInv elements issueMap allEpicKeysInMap ov'.
Proof.
  intros Hin. unfold mapElement.
  destruct (truthy (el_issueKey element) && _ && truthy (el_parentId element)) eqn:Htest;
    [|by intros [= <-]].
  apply andb_true_iff in Htest as [[Hkey Hknown]%andb_true_iff Hparent].
  intros Hrun. apply bind_Some in Hrun as (folderPath & _ & Hrun).
  destruct (last folderPath) as [name|] eqn:Hlast; [|by injection Hrun as <-].
  injection Hrun as <-. intros (Herr & Hkeys & Hpaths).
  split_and!; cbn [ov_structureErrors ov_issueToFolderMap]; [done| |].
  - intros k. unfold pushUnique. rewrite rkeys_rset, elem_of_setAdd.
    intros [->|Hk]; [|by apply Hkeys]. split_and!; [done| |by exists element].
    apply orb_true_iff in Hknown as [Hrec|Hepic].
    + left. by apply bool_decide_eq_true in Hrec.
    + right. by apply bool_decide_eq_true in Hepic.
  - intros k paths. rewrite rget_pushUnique.
    destruct (decide (k = el_issueKey element)) as [->|Hk].
    2: { rewrite (bool_decide_eq_false_2 (k = el_issueKey element)) by done. apply Hpaths. }
    rewrite (bool_decide_eq_true_2 (el_issueKey element = el_issueKey element)) by done.
    intros [= <-]. pose proof (rget_NoDup_default (ov_issueToFolderMap ov)
                                 (el_issueKey element)) as Hnd.
    specialize (Hnd (fun paths Hp => proj1 (Hpaths _ _ Hp))).
    destruct (decide (join " → " folderPath
                      ∈ default [] (rget (el_issueKey element) (ov_issueToFolderMap ov))))
      as [Hseen|Hseen].
    + rewrite bool_decide_eq_true_2 by done.
      split; [done|]. intros Hnil. rewrite Hnil in Hseen. by apply elem_of_nil in Hseen.
    + rewrite bool_decide_eq_false_2 by done. split.
      * apply NoDup_app. split_and!; [done| |apply NoDup_singleton].
        intros x Hx ->%list_elem_of_singleton. done.
      * by intros [? ?]%app_eq_nil.
Qed.



(** * The statistics of a forest *)

Lemma totalLength_acc (lists : list (list Key)) (acc : nat) :
  foldl (fun sum arr => sum + length arr) acc lists = acc + totalLength lists.
Proof.
  unfold totalLength. revert acc. induction lists as [|l lists IH]; intros acc; simpl.
  - lia.
  - rewrite IH, (IH (length l)). lia.
Qed.

Lemma totalLength_cons (l : list Key) (lists : list (list Key)) :
  totalLength (l :: lists) = length l + totalLength lists.
Proof. unfold totalLength at 1. simpl. by rewrite totalLength_acc. Qed.

Lemma totalLength_pushEpic (e k : Key) (m : Rec (list Key)) :
  totalLength (pushEpic e k m).*2 = S (totalLength m.*2).
Proof.
  unfold pushEpic. induction m as [|[e' l] m IH].
  - done.
  - cbn [rget rset]. destruct (decide (e = e')) as [<-|He].
    + rewrite !(bool_decide_eq_true_2 (e = e)) by done.
      rewrite !fmap_cons, !totalLength_cons. cbn [snd default from_option id].
      rewrite length_app. simpl. lia.
    + rewrite !(bool_decide_eq_false_2 (e = e')) by done.
      rewrite !fmap_cons, !totalLength_cons. cbn [snd]. rewrite IH. lia.
Qed.

Lemma totalLength_processRelationships toLowerCase issues :
  ∀ g,
  totalLength (g_epicMap (foldl (processIssue toLowerCase) g issues)).*2
  = totalLength (g_epicMap g).*2 + length (omap groupLinkOf issues).
Proof.
  induction issues as [|i issues IH]; intros g; csimpl; [lia|].
  rewrite IH, processIssue_epicMap.
  destruct (groupLinkOf i) as [e|]; [|done].
  rewrite totalLength_pushEpic. simpl. lia.
Qed.

Lemma buildOutput_statistics g total ov out :
  buildOutput g total ov = Some out →
  fo_total out = total
  ∧ fo_epicsCount out = length (allEpicKeysInMap g)
  ∧ fo_withEpicLink out = totalLength (g_epicMap g).*2
  ∧ fo_totalInHierarchy out = length (rkeys (g_issueMap g)).
Proof.
  unfold buildOutput.
  destruct (groupEpics g (ov_issueToFolderMap ov) (allEpicKeysInMap g)) as [F W].
  intros Hrun. apply bind_Some in Hrun as (folders & _ & Hrun).
  apply bind_Some in Hrun as (epics & _ & Hrun).
  apply bind_Some in Hrun as (roots & _ & Hrun). by injection Hrun as <-.
Qed.

(** X27: the header and the statistics of a forest count what the query
    returned.  The total is the total of the response; the number of
    epics is the number of distinct epic keys that the issues of the
    result link to; the number of issues with an epic link is the number
    of issues of the result with a decodable epic link. *)
Theorem forest_statistics (toLowerCase : string → string)
  (searchIssues : string → nat → list string → Result SearchResponse)
  (getIssue : Key → Result Issue)
  (getStructureHierarchy : string → nat → Result (list Element))
  (params : ForestParams) response g lookups ov :
  assembleGraph toLowerCase searchIssues getIssue params = Ok (response, g, lookups) →
  folderOverlay (getStructureHierarchy "138" 1000) (g_issueMap g) (allEpicKeysInMap g)
  = Some ov →
  ∃ out,
    getIssueHierarchy toLowerCase searchIssues getIssue getStructureHierarchy params
    = Some {| fr_result := Ok out; fr_lookups := lookups |}
    ∧ fo_total out = sr_total response
    ∧ fo_epicsCount out = length (arrayFromSet (omap groupLinkOf (sr_issues response)))
    ∧ fo_withEpicLink out = length (omap groupLinkOf (sr_issues response)).
Proof.
  intros Hgraph Hov. unfold getIssueHierarchy. rewrite Hgraph, Hov. simpl.
  destruct (buildOutput_total g (sr_total response) ov) as (out & Hout & _).
  rewrite Hout. exists out. split; [done|].
  apply buildOutput_statistics in Hout as (Htotal & Hepics & Hlinked & _).
  apply assembleGraph_inv in Hgraph as (_ & _ & _ & Hepic).
  split_and!.
  - done.
  - rewrite Hepics. unfold allEpicKeysInMap. rewrite Hepic.
    pose proof (epicKeys_arrayFromSet toLowerCase (sr_issues response) []) as Hkeys.
    unfold allEpicKeysInMap in Hkeys. by rewrite Hkeys.
  - rewrite Hlinked, Hepic. unfold processRelationships.
    by rewrite totalLength_processRelationships.
Qed.

Lemma forest_statistics_witness :
  ∃ out,
    getIssueHierarchy asciiLower twoEpicSearch noSuchIssue structureUnavailable
      defaultParams = Some {| fr_result := Ok out; fr_lookups := [] |}
    ∧ fo_total out = 2
    ∧ fo_epicsCount out = length (arrayFromSet (omap groupLinkOf twoEpicIssues))
    ∧ fo_withEpicLink out = length (omap groupLinkOf twoEpicIssues).
Proof.
  eapply (forest_statistics asciiLower twoEpicSearch noSuchIssue
            structureUnavailable defaultParams
            {| sr_issues := twoEpicIssues; sr_total := 2 |}).
  - vm_compute. reflexivity.
  - vm_compute. reflexivity.
Defined.
